(** * sdl3-intra-compat: a shallow embedding of the cross-version test driver

    The script builds several tags of a C library, runs the installed tests of
    every older tag against the shared library of the tag under test (the DUT)
    and prints a result matrix.  This file embeds the script in Rocq, function
    by function, and proves the properties its specification states.

    Conventions of the embedding:
    - Python [str] is [string]; character-level scanners work on [list ascii];
    - Python [int] is [Z];
    - a Python [dict] is an insertion-ordered association list ([Dict.t]);
    - a Python [set] is a duplicate-free list in insertion order; Python
      iterates a set of strings in the order of their hashes, which changes
      from run to run, so the order of the rows of a printed table is the
      one of one run only: the general statements about the tables speak of
      their rows as a whole, and a concrete run that lists rows lists them
      in insertion order;
    - texts are over the characters with code below 256;
    - exceptions are values of [Exn]; code that may raise returns [exc];
    - code that starts processes, reads the clock or prints runs in the
      monad [M], which threads a [World] and may raise; the clock of the
      world is an idealised one, on which only [time.sleep] takes time;
    - the progress messages of the script are left out; the two tables of
      the report are printed line by line. *)

From Stdlib Require Import List String Ascii ZArith Bool Lia Arith DecimalString.
Import ListNotations.
Open Scope string_scope.
Open Scope Z_scope.

(* ================================================================== *)
(** * Strings *)

(** Python's [sub in s] on strings. *)
Fixpoint contains (sub s : string) : bool :=
  if String.prefix sub s then true
  else match s with
       | EmptyString => false
       | String _ s' => contains sub s'
       end.

(** Python's truth value of an optional string argument: [None] and the empty
    string are false. *)
Definition truthy (o : option string) : bool :=
  match o with
  | None => false
  | Some s => negb (String.eqb s EmptyString)
  end.

Definition len (s : string) : Z := Z.of_nat (String.length s).

Fixpoint repeat_char (c : ascii) (n : nat) : string :=
  match n with
  | O => EmptyString
  | S n' => String c (repeat_char c n')
  end.

(** [s.ljust(w)], [s.rjust(w)] and the format spec [^w] (the odd blank of a
    centred field goes to the right). *)
Definition ljust (s : string) (w : Z) : string :=
  s ++ repeat_char " " (Z.to_nat (w - len s)).

Definition rjust (s : string) (w : Z) : string :=
  repeat_char " " (Z.to_nat (w - len s)) ++ s.

Definition center (s : string) (w : Z) : string :=
  let pad := Z.max 0 (w - len s) in
  let l := pad / 2 in
  repeat_char " " (Z.to_nat l) ++ s ++ repeat_char " " (Z.to_nat (pad - l)).

(** [sep.join(xs)]. *)
Fixpoint join (sep : string) (xs : list string) : string :=
  match xs with
  | [] => EmptyString
  | [x] => x
  | x :: rest => x ++ sep ++ join sep rest
  end.

(** The double quote, as a character and as a string. *)
Definition dquote : ascii := "034"%char.
Definition dq : string := String dquote EmptyString.

(** The line feed. *)
Definition nl : string := String "010" EmptyString.

(* ================================================================== *)
(** * Exceptions *)

Inductive Exn : Type :=
| KeyError (key : string)
| IndexError (msg : string)
| ValueError (msg : string)
| StopIteration
| NameError (name : string)
| FileNotFoundError (path : string)
| OSError (msg : string)
| ConfigError (msg : string)
| Unmodelled (what : string).

Inductive exc (A : Type) : Type :=
| Ok (a : A)
| Raise (e : Exn).
Arguments Ok {A} a.
Arguments Raise {A} e.

Definition exc_bind {A B} (m : exc A) (k : A -> exc B) : exc B :=
  match m with
  | Ok a => k a
  | Raise e => Raise e
  end.

(* ================================================================== *)
(** * Insertion-ordered dictionaries *)

Module Dict.

Definition t (V : Type) : Type := list (string * V).

Fixpoint get {V} (k : string) (d : t V) : option V :=
  match d with
  | [] => None
  | (k', v) :: d' => if String.eqb k k' then Some v else get k d'
  end.

(** [d[k] = v]: an existing key keeps its place, a new one goes last. *)
Fixpoint set {V} (k : string) (v : V) (d : t V) : t V :=
  match d with
  | [] => [(k, v)]
  | (k', v') :: d' =>
      if String.eqb k k' then (k, v) :: d' else (k', v') :: set k v d'
  end.

(** [k in d]. *)
Definition mem {V} (k : string) (d : t V) : bool :=
  match get k d with Some _ => true | None => false end.

Definition keys {V} (d : t V) : list string := map fst d.

Definition items {V} (d : t V) : list (string * V) := d.

(** [d[k]], which raises [KeyError] on a missing key. *)
Definition lookup {V} (k : string) (d : t V) : exc V :=
  match get k d with
  | Some v => Ok v
  | None => Raise (KeyError k)
  end.

(** [d.get(k, default)]. *)
Definition get_default {V} (k : string) (default : V) (d : t V) : V :=
  match get k d with
  | Some v => v
  | None => default
  end.

End Dict.

(** [s.update(xs)] on a set kept as a duplicate-free list. *)
Definition set_add (x : string) (s : list string) : list string :=
  if existsb (String.eqb x) s then s else s ++ [x].

Definition set_update (s xs : list string) : list string :=
  fold_left (fun acc x => set_add x acc) xs s.

(* ================================================================== *)
(** * Test results *)

Inductive TestResult : Type := SUCCESS | FAILED | TIMEOUT | NA | SKIP.

(** The members of the [StrEnum]; comparisons between results are comparisons
    of these strings. *)
Definition TestResult_value (r : TestResult) : string :=
  match r with
  | SUCCESS => "SUCCESS"
  | FAILED => "FAILED"
  | TIMEOUT => "TIMEOUT"
  | NA => "n/a"
  | SKIP => "SKIP"
  end.

Definition result_eqb (a b : TestResult) : bool :=
  String.eqb (TestResult_value a) (TestResult_value b).

Definition result_in (r : TestResult) (rs : list TestResult) : bool :=
  existsb (result_eqb r) rs.

Definition MAX_TEST_TIME : Z := 60000.

(* ================================================================== *)
(** * The world: clock, environment and child processes *)

Definition Env : Type := Dict.t string.

(** What a command does once launched: it cannot be started at all, it exits
    by itself some time after its start with a return code, or it never
    exits.  Durations and clock readings are in milliseconds; [time.time()]
    and the runner's [timeout] are in seconds. *)
Inductive Program : Type :=
| CannotStart
| Exits (after : Z) (returncode : Z)
| Hangs.

Record Child : Type := {
  pid : nat;
  child_cmd : list string;
  child_env : Env;
  child_started : Z;
  child_program : Program
}.

(** What the script does to the outside: it enters the runner, a process is
    started, a process is killed. *)
Inductive Event : Type :=
| Running (cmd : list string) (timeout : Z) (env : Env)
| Started (c : Child)
| Killed (p : nat).

(** [os n cmd env] is the behaviour of the [n]-th process started, when it
    is started with [cmd] and [env]. *)
Record World : Type := {
  now : Z;
  environ : Env;
  os : nat -> list string -> Env -> Program;
  events : list Event;
  stdout : list string
}.

Definition emit (e : Event) (w : World) : World :=
  {| now := now w; environ := environ w; os := os w;
     events := events w ++ [e]; stdout := stdout w |}.

(** [time.sleep]: the idealisation of the clock.  A real sleep may take
    longer than asked, and starting, polling and printing take time too: no
    statement below bounds from above the time that something takes. *)
Definition sleep (ms : Z) (w : World) : World :=
  {| now := now w + ms; environ := environ w; os := os w;
     events := events w; stdout := stdout w |}.

Definition write_line (line : string) (w : World) : World :=
  {| now := now w; environ := environ w; os := os w;
     events := events w; stdout := stdout w ++ [line] |}.

(** [t] seconds, in clock units. *)
Definition secs (t : Z) : Z := 1000 * t.

Definition is_started (e : Event) : bool :=
  match e with Started _ => true | _ => false end.

Definition started_count (w : World) : nat :=
  List.length (filter is_started (events w)).

Definition was_killed (p : nat) (w : World) : bool :=
  existsb (fun e => match e with Killed q => Nat.eqb p q | _ => false end)
          (events w).

(** [child.poll()] on a child that was not sent a signal: the return code
    once the child has ended by itself, else [None].  The script polls a
    child only before it kills it. *)
Definition poll (c : Child) (w : World) : option Z :=
  match child_program c with
  | Exits after rc =>
      if child_started c + after <=? now w then Some rc else None
  | _ => None
  end.

(** [child.kill()]: the signal is sent, and that is all.  The process ends
    some time later and the script never waits for it, so nothing here says
    when, or whether, the child is gone. *)
Definition kill (c : Child) (w : World) : World := emit (Killed (pid c)) w.

Definition can_start (prog : Program) : bool :=
  match prog with CannotStart => false | _ => true end.

Fixpoint has_nul (s : string) : bool :=
  match s with
  | EmptyString => false
  | String c s' => Ascii.eqb c "000" || has_nul s'
  end.

(** What [Popen] refuses whatever the system says: an empty command (there
    is no [args[0]]) and a command with a null character in an argument. *)
Definition malformed (cmd : list string) : bool :=
  match cmd with
  | [] => true
  | _ :: _ => existsb has_nul cmd
  end.

(** The exception of a [Popen] that starts nothing: [IndexError] for an
    empty command, [ValueError] for a null character, and otherwise an
    [OSError] (one of its subclasses, as [FileNotFoundError] for a missing
    executable). *)
Definition start_error (cmd : list string) : Exn :=
  match cmd with
  | [] => IndexError "list index out of range"
  | _ :: _ =>
      if existsb has_nul cmd then ValueError "embedded null byte"
      else OSError "Popen"
  end.

(** [subprocess.Popen(cmd, env=env)]. *)
Definition Popen (cmd : list string) (env : Env) (w : World)
  : exc (Child * World) :=
  let c := {| pid := started_count w; child_cmd := cmd; child_env := env;
              child_started := now w;
              child_program := os w (started_count w) cmd env |} in
  if negb (malformed cmd) && can_start (child_program c)
  then Ok (c, emit (Started c) w)
  else Raise (start_error cmd).

(* ================================================================== *)
(** * The monad of effectful code *)

Inductive outcome (A : Type) : Type :=
| Returned (a : A) (w : World)
| Raised (e : Exn) (w : World)
| OutOfFuel.
Arguments Returned {A} a w.
Arguments Raised {A} e w.
Arguments OutOfFuel {A}.

Definition M (A : Type) : Type := World -> outcome A.

Definition ret {A} (a : A) : M A := fun w => Returned a w.

Definition bind {A B} (m : M A) (k : A -> M B) : M B :=
  fun w => match m w with
           | Returned a w' => k a w'
           | Raised e w' => Raised e w'
           | OutOfFuel => OutOfFuel
           end.

Definition lift {A} (m : exc A) : M A :=
  fun w => match m with
           | Ok a => Returned a w
           | Raise e => Raised e w
           end.

Definition print (line : string) : M unit :=
  fun w => Returned tt (write_line line w).

Definition raise {A} (e : Exn) : M A := fun w => Raised e w.

(** The world in which a computation stopped, however it stopped. *)
Definition final_world {A} (o : outcome A) : option World :=
  match o with
  | Returned _ w => Some w
  | Raised _ w => Some w
  | OutOfFuel => None
  end.

(** A [for] loop whose body updates the loop-carried variables [S]. *)
Fixpoint for_each {X S} (body : X -> S -> M S) (xs : list X) (s : S) : M S :=
  match xs with
  | [] => ret s
  | x :: rest => bind (body x s) (for_each body rest)
  end.

(* ================================================================== *)
(** * Process Runner *)

(** The polling loop of [run_process_with_timeout]:
<<
    while child.poll() is None:
        if time.time() > start + timeout:
            break
        time.sleep(0.01)
>>
    Only [sleep] lets time pass. *)
Fixpoint wait_loop (fuel : nat) (child : Child) (start timeout : Z) (w : World)
  : option World :=
  match fuel with
  | O => None
  | S fuel' =>
      match poll child w with
      | Some _ => Some w
      | None =>
          if now w >? start + secs timeout then Some w
          else wait_loop fuel' child start timeout (sleep 10 w)
      end
  end.

(** Turns of the loop that a timeout can need ([loop_fuel_enough] below). *)
Definition loop_fuel (timeout : Z) : nat := Z.to_nat (100 * timeout) + 2.

Definition run_process_with_timeout (cmd : list string) (timeout : Z)
  (env : Env) : M TestResult :=
  fun w =>
    let w0 := emit (Running cmd timeout env) w in
    match Popen cmd env w0 with
    | Raise e => Raised e w0
    | Ok (child, w1) =>
        let start := now w1 in
        match wait_loop (loop_fuel timeout) child start timeout w1 with
        | None => OutOfFuel
        | Some w2 =>
            match poll child w2 with
            | None => Returned TIMEOUT (kill child w2)
            | Some returncode =>
                if returncode =? 0 then Returned SUCCESS w2
                else Returned FAILED w2
            end
        end
    end.

(* ================================================================== *)
(** * Characters and the library scanners the script relies on *)

Definition chars (s : string) : list ascii := list_ascii_of_string s.
Definition text (l : list ascii) : string := string_of_list_ascii l.

Definition in_range (lo hi c : ascii) : bool :=
  (nat_of_ascii lo <=? nat_of_ascii c)%nat
  && (nat_of_ascii c <=? nat_of_ascii hi)%nat.

Definition is_digit (c : ascii) : bool := in_range "0" "9" c.
Definition is_upper (c : ascii) : bool := in_range "A" "Z" c.
Definition is_lower (c : ascii) : bool := in_range "a" "z" c.

(** [[a-zA-Z0-9_]] *)
Definition is_ident (c : ascii) : bool :=
  is_lower c || is_upper c || is_digit c || Ascii.eqb c "_".

(** [[a-zA-Z0-9_.-]] *)
Definition is_case_name (c : ascii) : bool :=
  is_ident c || Ascii.eqb c "." || Ascii.eqb c "-".

(** [\s] of a [str] pattern, which is also what [str.strip()] removes;
    among the characters below 256: tab, line feed, vertical tab, form
    feed, carriage return, the four separators 0x1c-0x1f, the blank, the
    next-line character 0x85 and the no-break space 0xa0. *)
Definition is_space (c : ascii) : bool :=
  let n := nat_of_ascii c in
  ((9 <=? n) && (n <=? 13) || (28 <=? n) && (n <=? 32)
   || (n =? 133) || (n =? 160))%nat.

(** [str.lower()] on one character below 256: the letters A-Z and the
    capital letters 0xc0-0xde of Latin-1 (0xd7, the multiplication sign, is
    no letter). *)
Definition lower_char (c : ascii) : ascii :=
  let n := nat_of_ascii c in
  if is_upper c
     || ((192 <=? n) && (n <=? 222) && negb (n =? 215))%nat
  then ascii_of_nat (n + 32) else c.

Definition lower (s : string) : string := text (map lower_char (chars s)).

Fixpoint lstrip_chars (l : list ascii) : list ascii :=
  match l with
  | c :: l' => if is_space c then lstrip_chars l' else l
  | [] => []
  end.

Definition rstrip_chars (l : list ascii) : list ascii :=
  rev (lstrip_chars (rev l)).

Definition strip (s : string) : string :=
  text (rstrip_chars (lstrip_chars (chars s))).

Definition rstrip (s : string) : string := text (rstrip_chars (chars s)).

(** The number that a run of decimal digits writes. *)
Definition int_of_digits (l : list ascii) : Z :=
  fold_left (fun acc c => 10 * acc + Z.of_nat (nat_of_ascii c - 48)) l 0.

(** [int(s)] for a run of decimal digits: Python (3.11, which the script
    needs for [StrEnum]) refuses to convert more than 4300 digits. *)
Definition max_str_digits : Z := 4300.

Definition py_int (l : list ascii) : exc Z :=
  if max_str_digits <? Z.of_nat (List.length l)
  then Raise (ValueError
                "Exceeds the limit (4300 digits) for integer string conversion")
  else Ok (int_of_digits l).

(** [str(n)] for an integer. *)
Definition str_of_int (n : Z) : string :=
  NilZero.string_of_int (Z.to_int n).

(** ** Regular expressions

    The fragment of [re] the script's patterns are written in: literals,
    greedy [*] and [+] over a character class, an optional group, a capturing
    group and concatenation, matched with backtracking. *)
Inductive regex : Type :=
| Lit (s : string)
| Star (cls : ascii -> bool)
| Plus (cls : ascii -> bool)
| Opt (r : regex)
| Group (r : regex)
| Seq (r1 r2 : regex).

Declare Scope re_scope.
Delimit Scope re_scope with re.
Infix "$" := Seq (at level 60, right associativity) : re_scope.

Fixpoint strip_prefix (p s : list ascii) : option (list ascii) :=
  match p, s with
  | [], _ => Some s
  | a :: p', b :: s' => if Ascii.eqb a b then strip_prefix p' s' else None
  | _ :: _, [] => None
  end.

(** Greedy repetition: take the longest run first, give characters back
    while the rest of the pattern fails. *)
Fixpoint star {R} (cls : ascii -> bool) (s : list ascii)
  (k : list ascii -> option R) : option R :=
  match s with
  | c :: s' =>
      if cls c then
        match star cls s' k with
        | Some r => Some r
        | None => k s
        end
      else k s
  | [] => k s
  end.

(** The part of [s] in front of its suffix [rest]. *)
Definition consumed (s rest : list ascii) : list ascii :=
  firstn (List.length s - List.length rest) s.

(** [match_re r s groups k]: match [r] at the start of [s], then hand what
    is left of [s] and the groups captured so far to [k]. *)
Fixpoint match_re {R} (r : regex) (s : list ascii) (groups : list string)
  (k : list ascii -> list string -> option R) : option R :=
  match r with
  | Lit l =>
      match strip_prefix (chars l) s with
      | Some rest => k rest groups
      | None => None
      end
  | Star cls => star cls s (fun rest => k rest groups)
  | Plus cls =>
      match s with
      | c :: s' => if cls c then star cls s' (fun rest => k rest groups)
                   else None
      | [] => None
      end
  | Opt r' =>
      match match_re r' s groups k with
      | Some x => Some x
      | None => k s groups
      end
  | Group r' =>
      match_re r' s groups
        (fun rest gs => k rest (gs ++ [text (consumed s rest)])%list)
  | Seq r1 r2 =>
      match_re r1 s groups (fun rest gs => match_re r2 rest gs k)
  end.

(** A match of [r] at the very start of [s]: what is left of [s] and the
    captured groups ([m[1]] is the head of the list). *)
Definition match_here (r : regex) (s : list ascii)
  : option (list ascii * list string) :=
  match_re r s [] (fun rest gs => Some (rest, gs)).

(** [re.finditer]: leftmost matches, left to right, never overlapping;
    [skip] counts the characters of the current match still to be passed. *)
Fixpoint finditer_from (r : regex) (skip : nat) (s : list ascii)
  : list (list string) :=
  match s with
  | [] => []
  | _ :: s' =>
      match skip with
      | S n => finditer_from r n s'
      | O =>
          match match_here r s with
          | Some (rest, gs) =>
              gs :: finditer_from r (List.length s - List.length rest - 1) s'
          | None => finditer_from r 0 s'
          end
      end
  end.

Definition finditer (r : regex) (s : string) : list (list string) :=
  finditer_from r 0 (chars s).

(** [m[1]]. *)
Definition group1 (gs : list string) : string := nth 0 gs EmptyString.

(** ** [shlex.split], POSIX mode

    The lexer of [shlex] as [shlex.split] configures it: POSIX rules,
    [whitespace_split] on, no comment characters, no punctuation characters.
    With [whitespace_split] every character that is not white space, a quote
    or the escape character is a word character.  The lexer states are the
    characters that [shlex] itself uses: blank (between tokens), [a] (in a
    word), a quote character, the backslash. *)
Definition shlex_whitespace (c : ascii) : bool :=
  existsb (Ascii.eqb c) [" "; "009"; "013"; "010"]%char.
Definition shlex_quotes (c : ascii) : bool :=
  existsb (Ascii.eqb c) ["'"%char; dquote].
Definition shlex_escape (c : ascii) : bool := Ascii.eqb c "\".
Definition shlex_escapedquotes (c : ascii) : bool := Ascii.eqb c dquote.

Definition push (token : string) (c : ascii) : string :=
  token ++ String c EmptyString.

(** The result of [read_token]: the token ([None] at the end of the input),
    the unread input and the lexer state it leaves behind. *)
Definition token_result : Type := (option string * list ascii * option ascii)%type.

Definition emit_token (token : string) (quoted : bool) (rest : list ascii)
  (state : option ascii) : exc token_result :=
  Ok (if negb quoted && String.eqb token EmptyString then None else Some token,
      rest, state).

Fixpoint read_token (inp : list ascii) (state : option ascii)
  (escapedstate : ascii) (token : string) (quoted : bool)
  : exc token_result :=
  match state with
  | None => emit_token EmptyString quoted inp None
  | Some st =>
      match inp with
      | [] =>
          if Ascii.eqb st " " then emit_token token quoted [] None
          else if shlex_quotes st then Raise (ValueError "No closing quotation")
          else if shlex_escape st then Raise (ValueError "No escaped character")
          else emit_token token quoted [] None
      | nextchar :: rest =>
          if Ascii.eqb st " " then
            if shlex_whitespace nextchar then
              if negb (String.eqb token EmptyString) || quoted
              then emit_token token quoted rest state
              else read_token rest state escapedstate token quoted
            else if shlex_escape nextchar then
              read_token rest (Some nextchar) "a" token quoted
            else if shlex_quotes nextchar then
              read_token rest (Some nextchar) escapedstate token quoted
            else
              read_token rest (Some "a"%char) escapedstate
                         (String nextchar EmptyString) quoted
          else if shlex_quotes st then
            if Ascii.eqb nextchar st then
              read_token rest (Some "a"%char) escapedstate token true
            else if shlex_escape nextchar && shlex_escapedquotes st then
              read_token rest (Some nextchar) st token true
            else
              read_token rest state escapedstate (push token nextchar) true
          else if shlex_escape st then
            let token' :=
              if shlex_quotes escapedstate
                 && negb (Ascii.eqb nextchar st)
                 && negb (Ascii.eqb nextchar escapedstate)
              then push token st else token in
            read_token rest (Some escapedstate) escapedstate
                       (push token' nextchar) quoted
          else
            if shlex_whitespace nextchar then
              if negb (String.eqb token EmptyString) || quoted
              then emit_token token quoted rest (Some " "%char)
              else read_token rest (Some " "%char) escapedstate token quoted
            else if shlex_quotes nextchar then
              read_token rest (Some nextchar) escapedstate token quoted
            else if shlex_escape nextchar then
              read_token rest (Some nextchar) "a" token quoted
            else
              read_token rest state escapedstate (push token nextchar) quoted
      end
  end.

(** [list(lex)]: tokens until [read_token] reports the end of the input.
    A call that yields a token has read at least one character, so
    [S (length inp)] calls are always enough ([shlex_split_total] below). *)
Fixpoint shlex_tokens (fuel : nat) (inp : list ascii) (state : option ascii)
  : exc (list string) :=
  match fuel with
  | O => Raise (Unmodelled "shlex_tokens")
  | S fuel' =>
      match read_token inp state " " EmptyString false with
      | Raise e => Raise e
      | Ok (None, _, _) => Ok []
      | Ok (Some tok, rest, state') =>
          match shlex_tokens fuel' rest state' with
          | Ok toks => Ok (tok :: toks)
          | Raise e => Raise e
          end
      end
  end.

Definition shlex_split (s : string) : exc (list string) :=
  shlex_tokens (S (String.length s)) (chars s) (Some " "%char).

(** ** [configparser.ConfigParser], as far as descriptor files need it

    A fresh parser with the default settings reads one file: section headers,
    [key = value] and [key : value] lines, blank lines and full-line comments.
    Keys are lower-cased, values stripped; in a value that is asked for,
    [%%] stands for a percent sign.  What the model leaves out (continuation
    lines, a [DEFAULT] section, references [%(name)s] to other values) is
    reported as [Unmodelled] instead of being given a made-up meaning. *)
(** Text mode: a carriage return followed by a line feed, and a carriage
    return alone, are read as a line feed. *)
Fixpoint universal_newlines (l : list ascii) : list ascii :=
  match l with
  | [] => []
  | c :: l' =>
      if Ascii.eqb c "013" then
        match l' with
        | c' :: l'' =>
            if Ascii.eqb c' "010" then "010"%char :: universal_newlines l''
            else "010"%char :: universal_newlines l'
        | [] => ["010"%char]
        end
      else c :: universal_newlines l'
  end.

Fixpoint split_lines_from (cur : string) (l : list ascii) : list string :=
  match l with
  | [] => if String.eqb cur EmptyString then [] else [cur]
  | c :: l' =>
      if Ascii.eqb c "010" then cur :: split_lines_from EmptyString l'
      else split_lines_from (push cur c) l'
  end.

Definition split_lines (s : string) : list string :=
  split_lines_from EmptyString (universal_newlines (chars s)).

Fixpoint indent_of (l : list ascii) : nat :=
  match l with
  | c :: l' => if is_space c then S (indent_of l') else O
  | [] => O
  end.

(** Position of the last [c] in [l], if any. *)
Fixpoint rfind (c : ascii) (l : list ascii) : option nat :=
  match l with
  | [] => None
  | x :: l' =>
      match rfind c l' with
      | Some i => Some (S i)
      | None => if Ascii.eqb x c then Some O else None
      end
  end.

(** Position of the first [=] or [:] in [l], if any. *)
Fixpoint find_delim (l : list ascii) : option nat :=
  match l with
  | [] => None
  | x :: l' =>
      if Ascii.eqb x "=" || Ascii.eqb x ":" then Some O
      else option_map S (find_delim l')
  end.

(** [\[(?P<header>.+)\]] matched at the start of a stripped line. *)
Definition section_header (value : string) : option string :=
  match chars value with
  | "["%char :: body =>
      match rfind "]" body with
      | Some (S i) => Some (text (firstn (S i) body))
      | _ => None
      end
  | _ => None
  end.

Record ConfigState : Type := {
  cfg_sections : Dict.t (Dict.t string);
  cursect : option string;
  optname : option string;
  indent_level : nat;
  parsing_error : bool
}.

Definition config_line (line : string) (st : ConfigState) : exc ConfigState :=
  let value := strip line in
  if String.eqb value EmptyString
     || String.prefix "#" value || String.prefix ";" value
  then Ok st
  else
    let cur_indent_level := indent_of (chars line) in
    let continuation :=
      match cursect st, optname st with
      | Some _, Some _ => (indent_level st <? cur_indent_level)%nat
      | _, _ => false
      end in
    if continuation then Raise (Unmodelled "continuation line") else
    match section_header value with
    | Some sectname =>
        if Dict.mem sectname (cfg_sections st)
        then Raise (ConfigError "DuplicateSectionError")
        else if String.eqb sectname "DEFAULT"
        then Raise (Unmodelled "DEFAULT section")
        else Ok {| cfg_sections := Dict.set sectname [] (cfg_sections st);
                   cursect := Some sectname;
                   optname := None;
                   indent_level := cur_indent_level;
                   parsing_error := parsing_error st |}
    | None =>
        match cursect st with
        | None => Raise (ConfigError "MissingSectionHeaderError")
        | Some sectname =>
            let bad := {| cfg_sections := cfg_sections st;
                          cursect := cursect st;
                          optname := optname st;
                          indent_level := cur_indent_level;
                          parsing_error := true |} in
            match find_delim (chars value) with
            | None => Ok bad
            | Some i =>
                let option := text (firstn i (chars value)) in
                let optval := text (skipn (S i) (chars value)) in
                if String.eqb option EmptyString then Ok bad
                else
                  let name := lower (rstrip option) in
                  let sect := Dict.get_default sectname [] (cfg_sections st) in
                  if Dict.mem name sect
                  then Raise (ConfigError "DuplicateOptionError")
                  else Ok {| cfg_sections :=
                               Dict.set sectname
                                 (Dict.set name (strip optval) sect)
                                 (cfg_sections st);
                             cursect := cursect st;
                             optname := Some name;
                             indent_level := cur_indent_level;
                             parsing_error := parsing_error st |}
            end
        end
    end.

Fixpoint config_lines (lines : list string) (st : ConfigState)
  : exc ConfigState :=
  match lines with
  | [] => Ok st
  | line :: rest => exc_bind (config_line line st) (config_lines rest)
  end.

(** [config = ConfigParser(); config.read(path)] on the text of the file; a
    file that cannot be opened ([None]) is passed over and leaves the parser
    empty. *)
Definition config_read (content : option string)
  : exc (Dict.t (Dict.t string)) :=
  match content with
  | None => Ok []
  | Some s =>
      exc_bind
        (config_lines (split_lines s)
           {| cfg_sections := []; cursect := None; optname := None;
              indent_level := O; parsing_error := false |})
        (fun st => if parsing_error st then Raise (ConfigError "ParsingError")
                   else Ok (cfg_sections st))
  end.

(** [BasicInterpolation] of a value: [%%] is a percent sign, [%(] begins
    a reference, and any other use of [%] is an error. *)
Fixpoint interpolate (l : list ascii) : exc (list ascii) :=
  match l with
  | [] => Ok []
  | c :: rest =>
      if Ascii.eqb c "%" then
        match rest with
        | c' :: rest' =>
            if Ascii.eqb c' "%"
            then exc_bind (interpolate rest') (fun r => Ok ("%"%char :: r))
            else if Ascii.eqb c' "("
            then Raise (Unmodelled "interpolation of a reference")
            else Raise (ConfigError "InterpolationSyntaxError")
        | [] => Raise (ConfigError "InterpolationSyntaxError")
        end
      else exc_bind (interpolate rest) (fun r => Ok (c :: r))
  end.

(** [config[section][key]]. *)
Definition config_get (config : Dict.t (Dict.t string)) (section key : string)
  : exc string :=
  exc_bind (Dict.lookup section config) (fun sect =>
  match Dict.get (lower key) sect with
  | None => Raise (KeyError key)
  | Some v => exc_bind (interpolate (chars v)) (fun r => Ok (text r))
  end).

(** ** Paths and files *)

Definition Path : Type := string.

(** A path is kept as its [str].  [PurePosixPath] splits a path at the
    slashes, drops the empty components and the components [.], and keeps
    the root: [/], or [//] when the path begins with exactly two slashes;
    the path without root and components is written [.]. *)
Fixpoint split_slash (cur : string) (l : list ascii) : list string :=
  match l with
  | [] => [cur]
  | c :: l' =>
      if Ascii.eqb c "/" then cur :: split_slash EmptyString l'
      else split_slash (push cur c) l'
  end.

Definition path_components (s : string) : list string :=
  filter (fun c => negb (String.eqb c EmptyString || String.eqb c "."))
         (split_slash EmptyString (chars s)).

Definition path_root (s : string) : string :=
  match chars s with
  | "/"%char :: "/"%char :: "/"%char :: _ => "/"
  | "/"%char :: "/"%char :: _ => "//"
  | "/"%char :: _ => "/"
  | _ => EmptyString
  end.

Definition path_str (root : string) (components : list string) : Path :=
  match root, components with
  | EmptyString, [] => "."
  | _, _ => root ++ join "/" components
  end.

(** [p / q]: an absolute [q] replaces [p]. *)
Definition joinpath (p : Path) (q : string) : Path :=
  if String.prefix "/" q then path_str (path_root q) (path_components q)
  else path_str (path_root p) (path_components p ++ path_components q)%list.
Infix "//" := joinpath (at level 40, left associativity).

(** [Path.stem] of a file name: the name without its last suffix. *)
Definition stem (name : string) : string :=
  match rfind "." (chars name) with
  | Some (S i) =>
      if (S (S i) <? String.length name)%nat
      then text (firstn (S i) (chars name))
      else name
  | _ => name
  end.

(** What the script reads from disk: the text of a file, the names of the
    entries of a directory and the paths that match a pattern.  [None] is a
    file or directory that is missing or cannot be read.  The trees are
    described as they are once cloning and building, where requested, are
    over; [git] and [cmake] themselves are not modelled (their failure ends
    the run before any test is started). *)
Record FileSystem : Type := {
  read_text : Path -> option string;
  iterdir : Path -> option (list string);
  glob : string -> list Path
}.

(* ================================================================== *)
(** * Test Discovery *)

(** The loop of [get_unit_tests] over the entries of [dir]. *)
Fixpoint get_unit_tests_loop (fs : FileSystem) (dir : Path)
  (entries : list string) (tests : Dict.t (list string))
  : exc (Dict.t (list string)) :=
  match entries with
  | [] => Ok tests
  | name :: rest =>
      let test_path := dir // name in
      exc_bind (config_read (read_text fs test_path)) (fun config =>
      exc_bind (config_get config "Test" "Exec") (fun exec =>
      exc_bind (shlex_split exec) (fun command =>
      get_unit_tests_loop fs dir rest (Dict.set (stem name) command tests))))
  end.

Definition get_unit_tests (fs : FileSystem) (prefix : Path)
  : exc (Dict.t (list string)) :=
  let dir := prefix // "share/installed-tests/SDL3" in
  match iterdir fs dir with
  | None => Raise (FileNotFoundError dir)
  | Some entries => get_unit_tests_loop fs dir entries []
  end.

(** [static\s*(?:const)?\s*SDLTest_TestCaseReference\s*[a-zA-Z0-9_]+\s*=\s*
     \{\s*[a-zA-Z0-9_]+\s*,\s*"([a-zA-Z0-9_.-]+)"\s*,] *)
Definition test_case_reference : regex :=
  (Lit "static" $ Star is_space $ Opt (Lit "const") $ Star is_space $
   Lit "SDLTest_TestCaseReference" $ Star is_space $ Plus is_ident $
   Star is_space $ Lit "=" $ Star is_space $ Lit "{" $ Star is_space $
   Plus is_ident $ Star is_space $ Lit "," $ Star is_space $
   Lit dq $ Group (Plus is_case_name) $ Lit dq $ Star is_space $
   Lit ",")%re.

(** The loop of [get_automation_cases] over the files found. *)
Fixpoint get_automation_cases_loop (fs : FileSystem) (paths : list Path)
  (test_cases : list string) : exc (list string) :=
  match paths with
  | [] => Ok test_cases
  | test_path :: rest =>
      match read_text fs test_path with
      | None => Raise (FileNotFoundError test_path)
      | Some text =>
          get_automation_cases_loop fs rest
            (test_cases ++ map group1 (finditer test_case_reference text))%list
      end
  end.

Definition get_automation_cases (fs : FileSystem) (source_path : Path)
  : exc (list string) :=
  get_automation_cases_loop fs
    (glob fs (source_path // "test/testautomation*.c")) [].

(* ================================================================== *)
(** * Command line *)

(** The [argparse] namespace of [main]. *)
Record Args : Type := {
  repo : string;
  other_tags : list string;
  dut_tag : string;
  cwd : Path;
  filter_tests : option string;
  filter_testautomation : option string;
  clone : bool;
  build : bool;
  github : bool;
  testautomation : bool
}.

(** [args.testautomation] once [--filter-testautomation] has implied it. *)
Definition testautomation_mode (args : Args) : bool :=
  if truthy (filter_testautomation args) then true else testautomation args.

(** [filter and filter not in name]. *)
Definition filtered_out (filter : option string) (name : string) : bool :=
  match filter with
  | None => false
  | Some f => truthy filter && negb (contains f name)
  end.

(* ================================================================== *)
(** * Tag Pipeline *)

Definition Version : Type := (Z * Z * Z)%type.

(** [a <= b] on tuples of three integers. *)
Definition version_le (a b : Version) : bool :=
  let '(a1, a2, a3) := a in
  let '(b1, b2, b3) := b in
  if a1 =? b1 then
    if a2 =? b2 then a3 <=? b3 else a2 <? b2
  else a1 <? b1.

(** [#define\s+NAME\s+([0-9]+)] *)
Definition version_constant (name : string) : regex :=
  (Lit "#define" $ Plus is_space $ Lit name $ Plus is_space $
   Group (Plus is_digit))%re.

(** [int(next(re.finditer(pattern, version_h))[1])]. *)
Definition parse_constant (name : string) (version_h : string) : exc Z :=
  match finditer (version_constant name) version_h with
  | [] => Raise StopIteration
  | m :: _ => py_int (chars (group1 m))
  end.

Record Tables : Type := {
  TAG_SRC : Dict.t Path;
  TAG_BLD : Dict.t Path;
  TAG_PREF : Dict.t Path;
  TAG_VERSION : Dict.t Version;
  TAG_TESTS : Dict.t (Dict.t (list string));
  TAG_AUTOMATION_CASES : Dict.t (list string);
  all_test_names : list string;
  all_automation_cases : list string
}.

Definition no_tables : Tables :=
  {| TAG_SRC := []; TAG_BLD := []; TAG_PREF := []; TAG_VERSION := [];
     TAG_TESTS := []; TAG_AUTOMATION_CASES := [];
     all_test_names := []; all_automation_cases := [] |}.

(** [if args.filter_testautomation: automation_cases = [t for t in
    automation_cases if args.filter_testautomation in t]] *)
Definition filter_cases (filter : option string) (automation_cases : list string)
  : list string :=
  match filter with
  | Some f => if truthy filter then List.filter (contains f) automation_cases
              else automation_cases
  | None => automation_cases
  end.

(** One turn of the loop over [tags]. *)
Definition pipeline_step (args : Args) (fs : FileSystem) (tag : string)
  (t : Tables) : exc Tables :=
  let tag_src := cwd args // tag in
  let tag_pref := tag_src // "prefix" in
  let version_path := tag_src // "include/SDL3/SDL_version.h" in
  exc_bind (match read_text fs version_path with
            | Some h => Ok h
            | None => Raise (FileNotFoundError version_path)
            end) (fun version_h =>
  exc_bind (parse_constant "SDL_MAJOR_VERSION" version_h) (fun major =>
  exc_bind (parse_constant "SDL_MINOR_VERSION" version_h) (fun minor =>
  exc_bind (parse_constant "SDL_MICRO_VERSION" version_h) (fun micro =>
  exc_bind (get_unit_tests fs tag_pref) (fun tag_tests =>
  exc_bind (get_automation_cases fs tag_src) (fun automation_cases =>
  let automation_cases :=
    filter_cases (filter_testautomation args) automation_cases in
  Ok {| TAG_SRC := Dict.set tag tag_src (TAG_SRC t);
        TAG_BLD := Dict.set tag tag_src (TAG_BLD t);
        TAG_PREF := Dict.set tag tag_pref (TAG_PREF t);
        TAG_VERSION := Dict.set tag (major, minor, micro) (TAG_VERSION t);
        TAG_TESTS := Dict.set tag tag_tests (TAG_TESTS t);
        TAG_AUTOMATION_CASES :=
          Dict.set tag automation_cases (TAG_AUTOMATION_CASES t);
        all_test_names :=
          set_update (all_test_names t) (Dict.keys tag_tests);
        all_automation_cases :=
          set_update (all_automation_cases t) automation_cases |})))))).

Fixpoint pipeline_loop (args : Args) (fs : FileSystem) (tags : list string)
  (t : Tables) : exc Tables :=
  match tags with
  | [] => Ok t
  | tag :: rest =>
      exc_bind (pipeline_step args fs tag t) (pipeline_loop args fs rest)
  end.

(** [tags = list(args.other_tags) + [args.dut_tag]] and the loop over it. *)
Definition pipeline (args : Args) (fs : FileSystem) : exc Tables :=
  pipeline_loop args fs (other_tags args ++ [dut_tag args])%list no_tables.

(* ================================================================== *)
(** * Comparison Engine *)

Definition pathsep : string := ":".

(** The environment handed to every test process: a copy of [os.environ]
    with three entries overwritten. *)
Definition child_environment (args : Args) (t : Tables) : M Env :=
  fun w =>
    let child_environ := environ w in
    lift (exc_bind (Dict.lookup (dut_tag args) (TAG_PREF t)) (fun pref =>
          let child_environ :=
            Dict.set "DYLD_LIBRARY_PATH" (pref // "lib") child_environ in
          let child_environ :=
            Dict.set "LD_LIBRARY_PATH" (pref // "lib") child_environ in
          exc_bind (Dict.lookup "PATH" child_environ) (fun path =>
          Ok (Dict.set "PATH" ((pref // "bin") ++ pathsep ++ path)
                       child_environ)))) w.

Definition Results : Type := Dict.t (Dict.t TestResult).

(** The variables of [main] that the comparison loop writes:
    the two result matrices, the flag, and the local [test_result], which is
    unbound ([None]) until a test has been handled. *)
Record Engine : Type := {
  TEST_RESULTS : Results;
  TESTAUTOMATION_RESULTS : Results;
  success : bool;
  test_result : option TestResult
}.

Definition engine_start : Engine :=
  {| TEST_RESULTS := []; TESTAUTOMATION_RESULTS := [];
     success := true; test_result := None |}.

(** [success and test_result == TestResult.SUCCESS
     and test_result not in (TestResult.NA, TestResult.SKIP)] *)
Definition update_success (success : bool) (test_result : TestResult) : bool :=
  success && result_eqb test_result SUCCESS
  && negb (result_in test_result [NA; SKIP]).

(** [results[tag][name] = r], through the dictionary bound to [results[tag]]
    before the loop. *)
Definition record_result (tag name : string) (r : TestResult) (results : Results)
  : Results :=
  Dict.set tag (Dict.set name r (Dict.get_default tag [] results)) results.

(** Body of the loop over [TAG_TESTS[other_tag].items()]. *)
Definition run_unit_test (args : Args) (child_environ : Env)
  (other_tag : string) (item : string * list string) (st : Engine)
  : M Engine :=
  let (test_name, test_command) := item in
  bind (if filtered_out (filter_tests args) test_name
        then ret SKIP
        else run_process_with_timeout test_command MAX_TEST_TIME child_environ)
       (fun r =>
  ret {| TEST_RESULTS := record_result other_tag test_name r (TEST_RESULTS st);
         TESTAUTOMATION_RESULTS := TESTAUTOMATION_RESULTS st;
         success := update_success (success st) r;
         test_result := Some r |}).

(** Body of the loop over [TAG_AUTOMATION_CASES[other_tag]]; it records the
    result and leaves the flag alone. *)
Definition run_automation_case (args : Args) (child_environ : Env)
  (other_tag : string) (testautomation_cmd : list string)
  (testautomation_case : string) (st : Engine) : M Engine :=
  bind (if filtered_out (filter_testautomation args) testautomation_case
        then ret SKIP
        else run_process_with_timeout
               (testautomation_cmd ++ ["--filter"; testautomation_case])%list
               MAX_TEST_TIME child_environ)
       (fun r =>
  ret {| TEST_RESULTS := TEST_RESULTS st;
         TESTAUTOMATION_RESULTS :=
           record_result other_tag testautomation_case r
                         (TESTAUTOMATION_RESULTS st);
         success := success st;
         test_result := Some r |}).

(** The statement after the loop over the automation cases, which reads
    whatever [test_result] holds at that point. *)
Definition update_after_automation (st : Engine) : M Engine :=
  match test_result st with
  | None => raise (NameError "test_result")
  | Some r =>
      ret {| TEST_RESULTS := TEST_RESULTS st;
             TESTAUTOMATION_RESULTS := TESTAUTOMATION_RESULTS st;
             success := update_success (success st) r;
             test_result := test_result st |}
  end.

(** The automation part of one tag. *)
Definition run_automation (args : Args) (t : Tables) (child_environ : Env)
  (other_tag : string) (st : Engine) : M Engine :=
  if testautomation_mode args then
    bind (lift (Dict.lookup other_tag (TAG_TESTS t))) (fun tests =>
    if Dict.mem "testautomation" tests then
      bind (lift (Dict.lookup "testautomation" tests))
           (fun testautomation_cmd =>
      bind (lift (Dict.lookup other_tag (TAG_AUTOMATION_CASES t)))
           (fun cases =>
      bind (for_each (run_automation_case args child_environ other_tag
                                          testautomation_cmd) cases st)
           update_after_automation))
    else ret st)
  else ret st.

(** The unit-test part of one tag. *)
Definition run_unit_tests (args : Args) (t : Tables) (child_environ : Env)
  (other_tag : string) (st : Engine) : M Engine :=
  bind (lift (Dict.lookup other_tag (TAG_TESTS t))) (fun tests =>
  for_each (run_unit_test args child_environ other_tag) (Dict.items tests) st).

(** Body of the loop over [args.other_tags]. *)
Definition compare_tag (args : Args) (t : Tables) (child_environ : Env)
  (other_tag : string) (st : Engine) : M Engine :=
  bind (lift (Dict.lookup other_tag (TAG_VERSION t))) (fun v_other =>
  bind (lift (Dict.lookup (dut_tag args) (TAG_VERSION t))) (fun v_dut =>
  if negb (version_le v_other v_dut) then
    ret {| TEST_RESULTS := TEST_RESULTS st;
           TESTAUTOMATION_RESULTS := TESTAUTOMATION_RESULTS st;
           success := false;
           test_result := test_result st |}
  else
    let st1 := {| TEST_RESULTS := Dict.set other_tag [] (TEST_RESULTS st);
                  TESTAUTOMATION_RESULTS := TESTAUTOMATION_RESULTS st;
                  success := success st;
                  test_result := test_result st |} in
    bind (run_unit_tests args t child_environ other_tag st1) (fun st2 =>
    let st3 := {| TEST_RESULTS := TEST_RESULTS st2;
                  TESTAUTOMATION_RESULTS :=
                    Dict.set other_tag [] (TESTAUTOMATION_RESULTS st2);
                  success := success st2;
                  test_result := test_result st2 |} in
    run_automation args t child_environ other_tag st3))).

Definition engine (args : Args) (t : Tables) (child_environ : Env) : M Engine :=
  for_each (compare_tag args t child_environ) (other_tags args) engine_start.

(* ================================================================== *)
(** * Report Printer *)

(** [max(len(n) for n in names)]. *)
Definition max_len (names : list string) : exc Z :=
  match names with
  | [] => Raise (ValueError "max() arg is an empty sequence")
  | n :: rest => Ok (fold_left Z.max (map len rest) (len n))
  end.

Definition version_text (v : Version) : string :=
  let '(major, minor, micro) := v in
  str_of_int major ++ "." ++ str_of_int minor ++ "." ++ str_of_int micro.

Fixpoint map_exc {A B} (f : A -> exc B) (l : list A) : exc (list B) :=
  match l with
  | [] => Ok []
  | x :: rest =>
      exc_bind (f x) (fun y =>
      exc_bind (map_exc f rest) (fun ys => Ok (y :: ys)))
  end.

(** [tuple(results[other_tag].get(test_name, TestResult.NA)
           for other_tag in args.other_tags)] *)
Definition row_results (results : Results) (tags : list string)
  (test_name : string) : exc (list TestResult) :=
  map_exc (fun other_tag =>
             exc_bind (Dict.lookup other_tag results) (fun d =>
             Ok (Dict.get_default test_name NA d)))
          tags.

Definition row_text (width : Z) (test_name : string) (cells : list TestResult)
  : string :=
  ljust test_name width ++ "|"
  ++ join "|" (map (fun r => center (TestResult_value r) 12) cells).

Definition print_row (args : Args) (results : Results) (width : Z)
  (test_name : string) (_ : unit) : M unit :=
  bind (lift (row_results results (other_tags args) test_name)) (fun cells =>
  print (row_text width test_name cells)).

(** One table: a blank line, the heading, the two title lines, a rule and a
    row per name. *)
Definition print_table (args : Args) (t : Tables) (heading : string)
  (names : list string) (results : Results) : M unit :=
  bind (lift (max_len names)) (fun width =>
  bind (print EmptyString) (fun _ =>
  bind (print heading) (fun _ =>
  let title1 :=
    rjust "|" (width + 1)
    ++ join "|" (map (fun other_tag => center other_tag 12) (other_tags args)) in
  bind (lift (map_exc (fun other_tag =>
                         exc_bind (Dict.lookup other_tag (TAG_VERSION t))
                                  (fun v => Ok (center (version_text v) 12)))
                      (other_tags args))) (fun versions =>
  let title2 := rjust "|" (width + 1) ++ join "|" versions in
  bind (print title1) (fun _ =>
  bind (print title2) (fun _ =>
  bind (print (repeat_char "-" (String.length title1))) (fun _ =>
  for_each (print_row args results width) names tt))))))).

Definition report (args : Args) (t : Tables) (st : Engine) : M unit :=
  bind (if testautomation_mode args
        then print_table args t "Testautomation results:"
                         (all_automation_cases t) (TESTAUTOMATION_RESULTS st)
        else ret tt) (fun _ =>
  match all_test_names t with
  | [] => print "No tests"
  | _ => print_table args t "Test results:"
                     (all_test_names t) (TEST_RESULTS st)
  end).

(* ================================================================== *)
(** * The program *)

Definition exit_code (success : bool) : Z := if success then 0 else 1.

Definition main (args : Args) (fs : FileSystem) : M Z :=
  bind (lift (pipeline args fs)) (fun t =>
  bind (child_environment args t) (fun child_environ =>
  bind (engine args t child_environ) (fun st =>
  bind (report args t st) (fun _ =>
  ret (exit_code (success st)))))).

(** Exit status of [raise SystemExit(main())]: the value returned, or 1 when
    an exception escapes. *)
Definition exit_status (o : outcome Z) : option Z :=
  match o with
  | Returned code _ => Some code
  | Raised _ _ => Some 1
  | OutOfFuel => None
  end.

(* ================================================================== *)
(** * Vocabulary of the statements *)


(** The command can be started in [w]: [Popen] accepts it and the system
    starts it. *)
Definition can_be_started (cmd : list string) (env : Env) (w : World) : Prop :=
  malformed cmd = false /\ os w (started_count w) cmd env <> CannotStart.

(** The child that [Popen cmd env] creates in [w]. *)
Definition launched (cmd : list string) (env : Env) (w : World) : Child :=
  {| pid := started_count w; child_cmd := cmd; child_env := env;
     child_started := now w;
     child_program := os w (started_count w) cmd env |}.


(** An event of a test run made with the given timeout and environment. *)
Definition event_ok (timeout : Z) (env : Env) (e : Event) : Prop :=
  match e with
  | Running _ t e' => t = timeout /\ e' = env
  | Started c => child_env c = env
  | Killed _ => True
  end.

(** [w'] is [w] after some processes were run, each through the runner with
    the given timeout and environment, and some lines were printed: the
    process's own environment and the behaviour of programs are as before. *)
Definition ran_tests (timeout : Z) (env : Env) (w w' : World) : Prop :=
  exists evs,
    events w' = (events w ++ evs)%list
    /\ Forall (event_ok timeout env) evs
    /\ environ w' = environ w
    /\ os w' = os w.

(** What [main] may do to the world once the environment [env] of the test
    processes is built: run tests with it and the timeout [MAX_TEST_TIME]. *)
Definition test_run (env : Env) : World -> World -> Prop :=
  ran_tests MAX_TEST_TIME env.

(** Every way for [m] to stop relates the world it started in to the world
    it stopped in by [P]. *)
Definition respects (P : World -> World -> Prop) {A} (m : M A) : Prop :=
  forall w w', final_world (m w) = Some w' -> P w w'.

(** [m] always stops: it returns or raises. *)
Definition stops {A} (m : M A) : Prop :=
  forall w, m w <> OutOfFuel.

(** [test_result] holds a result that the flag has already taken in. *)
Definition absorbed (st : Engine) : Prop :=
  exists r, test_result st = Some r
            /\ update_success (success st) r = success st.

(** No result recorded in a matrix is SKIP. *)
Definition no_skip (results : Results) : Prop :=
  forall tag d c, Dict.get tag results = Some d -> Dict.get c d <> Some SKIP.

(** Every automation case that the tables hold contains [f]. *)
Definition cases_match (f : string) (t : Tables) : Prop :=
  (forall tag cases, Dict.get tag (TAG_AUTOMATION_CASES t) = Some cases ->
                     Forall (fun c => contains f c = true) cases)
  /\ Forall (fun c => contains f c = true) (all_automation_cases t).

(** The lines that make up a printed table: five lines of heading, then for
    each name, in order, the row of that name. *)
Definition is_table (args : Args) (results : Results) (names : list string)
  (lines : list string) : Prop :=
  exists width heading rows,
    lines = (heading ++ rows)%list
    /\ List.length heading = 5%nat
    /\ Forall2 (fun name line =>
                  exists cells,
                    row_results results (other_tags args) name = Ok cells
                    /\ line = row_text width name cells)
               names rows.

(** The version of [tag] is known and not above the version of the DUT. *)
Definition in_order (args : Args) (t : Tables) (tag : string) : Prop :=
  exists v_tag v_dut,
    Dict.get tag (TAG_VERSION t) = Some v_tag
    /\ Dict.get (dut_tag args) (TAG_VERSION t) = Some v_dut
    /\ version_le v_tag v_dut = true.

(** Only tags that passed the version check have an entry in the matrix. *)
Definition keys_checked (args : Args) (t : Tables) (results : Results) : Prop :=
  forall tag d, Dict.get tag results = Some d -> in_order args t tag.

(** [s] does not begin with a character of the class. *)
Definition stops_class (cls : ascii -> bool) (s : list ascii) : Prop :=
  match s with
  | [] => True
  | c :: _ => cls c = false
  end.

(** The text in front of the case name in a declaration of an automation
    test case, and the declaration itself, as the test sources write it. *)
Definition declaration_head : string :=
  "static const SDLTest_TestCaseReference fooRef = {foo, " ++ dq.

Definition case_declaration (name : string) : string :=
  declaration_head ++ name ++ dq ++ ", ...};".

(** What a run has printed when it stopped. *)
Definition printed (o : outcome Z) : option (list string) :=
  option_map stdout (final_world o).

(* ================================================================== *)
(** * A small installation, used for the concrete runs below *)

Module Scenario.

Definition version_h (major minor micro : string) : string :=
  "#define SDL_MAJOR_VERSION " ++ major ++ nl
  ++ "#define SDL_MINOR_VERSION " ++ minor ++ nl
  ++ "#define SDL_MICRO_VERSION " ++ micro ++ nl.

Definition descriptor (command : string) : string :=
  "[Test]" ++ nl ++ "Exec=" ++ command.

(** The descriptor of the specification's example:
    [Exec=/bin/true --flag "a b"] in the section [Test]. *)
Definition example_descriptor : string :=
  descriptor ("/bin/true --flag " ++ dq ++ "a b" ++ dq).

(** Under the working directory [w], tag [v1] is version 1.0.0 with the
    tests [alpha] and [testautomation] and the automation cases [foo_1] and
    [bar_2]; tag [v2] is version 1.1.0 with the test [beta]. *)
Definition files : Dict.t string :=
  [("w/v1/include/SDL3/SDL_version.h", version_h "1" "0" "0");
   ("w/v1/prefix/share/installed-tests/SDL3/alpha.test",
    descriptor "/p/alpha --x");
   ("w/v1/prefix/share/installed-tests/SDL3/testautomation.test",
    descriptor "/p/testautomation");
   ("w/v1/test/testautomation_main.c",
    case_declaration "foo_1" ++ nl ++ case_declaration "bar_2");
   ("w/v2/include/SDL3/SDL_version.h", version_h "1" "1" "0");
   ("w/v2/prefix/share/installed-tests/SDL3/beta.test",
    descriptor "/p/beta")].

Definition directories : Dict.t (list string) :=
  [("w/v1/prefix/share/installed-tests/SDL3",
    ["alpha.test"; "testautomation.test"]);
   ("w/v2/prefix/share/installed-tests/SDL3", ["beta.test"])].

Definition fs : FileSystem :=
  {| read_text := fun path => Dict.get path files;
     iterdir := fun path => Dict.get path directories;
     glob := fun pattern =>
               if String.eqb pattern "w/v1/test/testautomation*.c"
               then ["w/v1/test/testautomation_main.c"] else [] |}.

Definition args (others : list string) (dut : string)
  (tests_filter cases_filter : option string) (automation : bool) : Args :=
  {| repo := "https://github.com/libsdl-org/SDL";
     other_tags := others; dut_tag := dut; cwd := "w";
     filter_tests := tests_filter;
     filter_testautomation := cases_filter;
     clone := false; build := false; github := false;
     testautomation := automation |}.

(** A world at time 0 in which the [n]-th process started behaves as
    [programs n]. *)
Definition world (programs : nat -> Program) : World :=
  {| now := 0;
     environ := [("HOME", "/home/sdl"); ("PATH", "/usr/bin")];
     os := fun n _ _ => programs n;
     events := [];
     stdout := [] |}.

(** Every program exits with status 0 after 15 ms. *)
Definition all_pass : nat -> Program := fun _ => Exits 15 0.

(** The first program needs 61 seconds, then exits with status 0. *)
Definition slow_start : nat -> Program :=
  fun n => if Nat.eqb n 0 then Exits 61000 0 else Exits 15 0.

(** The first program exits with status 3; the others pass. *)
Definition first_fails : nat -> Program :=
  fun n => if Nat.eqb n 0 then Exits 15 3 else Exits 15 0.

(** Tables that hold, for [v1], the test [testautomation] and the two
    automation cases. *)
Definition automation_tables : Tables :=
  {| TAG_SRC := []; TAG_BLD := []; TAG_PREF := []; TAG_VERSION := [];
     TAG_TESTS := [("v1", [("testautomation", ["/p/testautomation"])])];
     TAG_AUTOMATION_CASES := [("v1", ["foo_1"; "bar_2"])];
     all_test_names := ["testautomation"];
     all_automation_cases := ["foo_1"; "bar_2"] |}.

End Scenario.

(* ================================================================== *)
(** * Further vocabulary *)

(** [m], started in a world that satisfies [W], stops in a world that
    satisfies [W]: it returns a value that satisfies [P] or raises an
    exception that satisfies [Q]. *)
Definition triple {A} (W : World -> Prop) (m : M A) (P : A -> Prop)
  (Q : Exn -> Prop) : Prop :=
  forall w, W w ->
    match m w with
    | Returned a w' => W w' /\ P a
    | Raised e w' => W w' /\ Q e
    | OutOfFuel => False
    end.

(** A property of worlds that only depends on how programs behave. *)
Definition about_programs (W : World -> Prop) : Prop :=
  forall w w', os w' = os w -> W w -> W w'.

(** Every command can be started, whenever it is started. *)
Definition programs_start (w : World) : Prop :=
  forall n cmd env, os w n cmd env <> CannotStart.

(** The only exception of the comparison loop: a process that cannot be
    started. *)
Definition is_start_failure (e : Exn) : Prop :=
  e = IndexError "list index out of range"
  \/ e = ValueError "embedded null byte"
  \/ e = OSError "Popen".


(** The tables hold, for [tag], the install prefix computed from the
    working directory, a version, the unit tests and the automation
    cases. *)
Definition has_entries (args : Args) (t : Tables) (tag : string) : Prop :=
  Dict.get tag (TAG_PREF t) = Some (cwd args // tag // "prefix")
  /\ (exists v, Dict.get tag (TAG_VERSION t) = Some v)
  /\ (exists tests, Dict.get tag (TAG_TESTS t) = Some tests)
  /\ (exists cases, Dict.get tag (TAG_AUTOMATION_CASES t) = Some cases).

(** The two sets of names are duplicate-free and hold every test and every
    automation case that the tables record for some tag. *)
Definition names_cover (t : Tables) : Prop :=
  NoDup (all_test_names t)
  /\ NoDup (all_automation_cases t)
  /\ (forall tag tests name,
         Dict.get tag (TAG_TESTS t) = Some tests ->
         In name (Dict.keys tests) -> In name (all_test_names t))
  /\ (forall tag cases name,
         Dict.get tag (TAG_AUTOMATION_CASES t) = Some cases ->
         In name cases -> In name (all_automation_cases t)).

(** Every cell of a matrix of results satisfies [P]. *)
Definition cells (P : string -> string -> TestResult -> Prop)
  (results : Results) : Prop :=
  forall tag d name r,
    Dict.get tag results = Some d -> Dict.get name d = Some r -> P tag name r.

(** The unit test [name] was discovered for [tag]. *)
Definition discovered (t : Tables) (tag name : string) : Prop :=
  exists tests,
    Dict.get tag (TAG_TESTS t) = Some tests /\ In name (Dict.keys tests).

(** The state in which the comparison of [tag] runs the tag's unit tests,
    and the state in which it goes on to the automation cases. *)
Definition unit_start (tag : string) (st : Engine) : Engine :=
  {| TEST_RESULTS := Dict.set tag [] (TEST_RESULTS st);
     TESTAUTOMATION_RESULTS := TESTAUTOMATION_RESULTS st;
     success := success st;
     test_result := test_result st |}.

Definition automation_start (tag : string) (st : Engine) : Engine :=
  {| TEST_RESULTS := TEST_RESULTS st;
     TESTAUTOMATION_RESULTS := Dict.set tag [] (TESTAUTOMATION_RESULTS st);
     success := success st;
     test_result := test_result st |}.

(** The row of [tag] exists in the matrix and has a cell for every unit
    test discovered for the tag. *)
Definition covered (t : Tables) (tag : string) (results : Results) : Prop :=
  exists d, Dict.get tag results = Some d
            /\ forall name, discovered t tag name -> Dict.get name d <> None.

(** Both matrices have a row for [tag]. *)
Definition has_rows (tag : string) (st : Engine) : Prop :=
  Dict.get tag (TEST_RESULTS st) <> None
  /\ Dict.get tag (TESTAUTOMATION_RESULTS st) <> None.

(** Triples of integers in lexicographic order. *)
Definition lex_le (a b : Version) : Prop :=
  let '(a1, a2, a3) := a in
  let '(b1, b2, b3) := b in
  a1 < b1 \/ (a1 = b1 /\ (a2 < b2 \/ (a2 = b2 /\ a3 <= b3))).

(** What it means for a pattern to match: [matches r s rest gs gs'] when
    [r] matches a prefix of [s] that leaves [rest], and the groups captured
    so far, [gs], become [gs']. *)
Fixpoint matches (r : regex) (s rest : list ascii) (gs gs' : list string)
  : Prop :=
  match r with
  | Lit l => s = (chars l ++ rest)%list /\ gs' = gs
  | Star cls =>
      exists run, s = (run ++ rest)%list
                  /\ Forall (fun c => cls c = true) run /\ gs' = gs
  | Plus cls =>
      exists run, s = (run ++ rest)%list /\ run <> []
                  /\ Forall (fun c => cls c = true) run /\ gs' = gs
  | Opt r' => matches r' s rest gs gs' \/ (rest = s /\ gs' = gs)
  | Group r' =>
      exists g, matches r' s rest gs g
                /\ gs' = (g ++ [text (consumed s rest)])%list
  | Seq r1 r2 =>
      exists mid g, matches r1 s mid gs g /\ matches r2 mid rest g gs'
  end.

(** A well-formed name of an automation case: not empty, and made of
    letters, digits, underscores, dots and hyphens. *)
Definition case_name_ok (name : string) : Prop :=
  name <> EmptyString
  /\ Forall (fun c => is_case_name c = true) (chars name).

(** [name] stands between double quotes somewhere in [text]. *)
Definition quoted_in (name text : string) : Prop :=
  exists before after,
    chars text = (before ++ chars dq ++ chars name ++ chars dq ++ after)%list.

(** What the tables say about automation cases once the tags [done] have
    gone through a pipeline whose automation filter is [f]: the cases of a
    tag are the cases found in its sources that contain [f], no other tag
    has cases, and the set of all cases holds, once each, the cases of the
    tags. *)
Definition filtered (args : Args) (fs : FileSystem) (f : string)
  (done : list string) (t : Tables) : Prop :=
  (forall tag, In tag done ->
     exists found,
       get_automation_cases fs (cwd args // tag) = Ok found
       /\ Dict.get tag (TAG_AUTOMATION_CASES t)
          = Some (List.filter (contains f) found))
  /\ (forall tag, Dict.get tag (TAG_AUTOMATION_CASES t) <> None -> In tag done)
  /\ NoDup (all_automation_cases t)
  /\ (forall name,
         In name (all_automation_cases t)
         <-> exists tag cases,
               Dict.get tag (TAG_AUTOMATION_CASES t) = Some cases
               /\ In name cases).

(** The name of the C type that a declaration of an automation test case
    begins with. *)
Definition reference_type : string := "SDLTest_TestCaseReference".

(** A declaration of an automation test case, up to the comma behind the
    name of the case:
    [static const SDLTest_TestCaseReference IDENT = { FUNCTION, "NAME",].
    The white space between its tokens is free (nine runs, each of which
    may be empty), [const] may be left out. *)
Record Declaration : Type := {
  with_const : bool;
  sp_static : list ascii;
  sp_const : list ascii;
  sp_type : list ascii;
  reference_ident : list ascii;
  sp_ident : list ascii;
  sp_equals : list ascii;
  sp_brace : list ascii;
  function_ident : list ascii;
  sp_function : list ascii;
  sp_comma : list ascii;
  case_name : string;
  sp_name : list ascii
}.

Definition declaration_text (d : Declaration) : list ascii :=
  (chars "static" ++ sp_static d
   ++ (if with_const d then chars "const" else []) ++ sp_const d
   ++ chars reference_type ++ sp_type d
   ++ reference_ident d ++ sp_ident d
   ++ chars "=" ++ sp_equals d
   ++ chars "{" ++ sp_brace d
   ++ function_ident d ++ sp_function d
   ++ chars "," ++ sp_comma d
   ++ chars dq ++ chars (case_name d) ++ chars dq ++ sp_name d
   ++ chars ",")%list.

(** A run of white space, and a C identifier. *)
Definition blank (l : list ascii) : Prop :=
  Forall (fun c => is_space c = true) l.

Definition identifier (l : list ascii) : Prop :=
  l <> [] /\ Forall (fun c => is_ident c = true) l.

Definition declaration_ok (d : Declaration) : Prop :=
  blank (sp_static d) /\ blank (sp_const d) /\ blank (sp_type d)
  /\ identifier (reference_ident d)
  /\ blank (sp_ident d) /\ blank (sp_equals d) /\ blank (sp_brace d)
  /\ identifier (function_ident d)
  /\ blank (sp_function d) /\ blank (sp_comma d)
  /\ case_name_ok (case_name d)
  /\ blank (sp_name d).

(** A source file of the automation tests: its path and its text, which is
    a sequence of declarations, each behind a stretch of other text, and
    the text behind the last declaration. *)
Record SourceFile : Type := {
  source_path_of : Path;
  declarations : list (list ascii * Declaration);
  remainder : list ascii
}.

Fixpoint declarations_text (ds : list (list ascii * Declaration))
  (after : list ascii) : list ascii :=
  match ds with
  | [] => after
  | (before, d) :: ds' =>
      (before ++ declaration_text d ++ declarations_text ds' after)%list
  end.

Definition source_text (f : SourceFile) : list ascii :=
  declarations_text (declarations f) (remainder f).

(** The text does not look like the beginning of a declaration anywhere:
    wherever it mentions the type of a test case reference, what follows
    the type, after white space, is a character that no identifier holds
    (as the [*] in the declaration of an array of pointers to test
    cases). *)
Definition stopper (l : list ascii) : bool :=
  match l with
  | c :: _ => negb (is_ident c)
  | [] => false
  end.

Fixpoint free_of_declarations (s : list ascii) : bool :=
  match s with
  | [] => true
  | _ :: s' =>
      match strip_prefix (chars reference_type) s with
      | Some behind => stopper (lstrip_chars behind)
      | None => true
      end
      && free_of_declarations s'
  end.

(** The declarations of the file are well formed, and the text between
    them, before the first and behind the last is free of declarations. *)
Definition source_ok (f : SourceFile) : Prop :=
  Forall (fun item => free_of_declarations (fst item) = true
                      /\ declaration_ok (snd item))
         (declarations f)
  /\ free_of_declarations (remainder f) = true.

(** The names of the cases that the file declares, in order. *)
Definition declared_cases (f : SourceFile) : list string :=
  map (fun item => case_name (snd item)) (declarations f).

(** A word of a command line is made of pieces: a character that stands
    for itself, a character behind a backslash, a text between single
    quotes and a text between double quotes. *)
Inductive Piece : Type :=
| PlainChar (c : ascii)
| EscapedChar (c : ascii)
| SingleQuoted (l : list ascii)
| DoubleQuoted (l : list ascii).

(** How a piece is written, and what it stands for. *)
Definition piece_text (p : Piece) : list ascii :=
  match p with
  | PlainChar c => [c]
  | EscapedChar c => ["\"%char; c]
  | SingleQuoted l => ("'"%char :: l ++ ["'"%char])%list
  | DoubleQuoted l => (dquote :: l ++ [dquote])%list
  end.

Definition piece_value (p : Piece) : list ascii :=
  match p with
  | PlainChar c => [c]
  | EscapedChar c => [c]
  | SingleQuoted l => l
  | DoubleQuoted l => l
  end.

(** A character that a value of a descriptor can hold as it is: no line
    feed, no carriage return and no percent sign. *)
Definition in_value (c : ascii) : Prop :=
  c <> "010"%char /\ c <> "013"%char /\ c <> "%"%char.

Definition piece_ok (p : Piece) : Prop :=
  match p with
  | PlainChar c =>
      is_space c = false /\ shlex_quotes c = false /\ shlex_escape c = false
      /\ c <> "%"%char
  | EscapedChar c => in_value c
  | SingleQuoted l => Forall (fun c => in_value c /\ c <> "'"%char) l
  | DoubleQuoted l =>
      Forall (fun c => in_value c /\ c <> dquote /\ c <> "\"%char) l
  end.

(** The piece is written between quotes. *)
Definition piece_quoted (p : Piece) : bool :=
  match p with
  | PlainChar _ | EscapedChar _ => false
  | SingleQuoted _ | DoubleQuoted _ => true
  end.

Definition word_text (w : list Piece) : list ascii := flat_map piece_text w.

Definition word_value (w : list Piece) : string :=
  text (flat_map piece_value w).

Definition word_ok (w : list Piece) : Prop := w <> [] /\ Forall piece_ok w.

(** White space between two words: blanks and tabs, at least one. *)
Definition gap_ok (g : list ascii) : Prop :=
  g <> [] /\ Forall (fun c => c = " "%char \/ c = "009"%char) g.

(** A command line: a word, and more words, each behind white space. *)
Record Command : Type := {
  first_word : list Piece;
  more_words : list (list ascii * list Piece)
}.

Definition command_text (c : Command) : list ascii :=
  (word_text (first_word c)
   ++ flat_map (fun gw => fst gw ++ word_text (snd gw)) (more_words c))%list.

(** The words that the command line stands for in a POSIX shell. *)
Definition invocation (c : Command) : list string :=
  word_value (first_word c)
  :: map (fun gw => word_value (snd gw)) (more_words c).

(** The words are well formed, and the line does not end with white space
    (which only a blank behind a backslash can make it do). *)
Definition command_ok (c : Command) : Prop :=
  word_ok (first_word c)
  /\ Forall (fun gw => gap_ok (fst gw) /\ word_ok (snd gw)) (more_words c)
  /\ stops_class is_space (rev (command_text c)).

(** A line of the section [Test] of a descriptor: a line that the parser
    passes over (a blank line or a comment), or [Key=Value]. *)
Inductive Line : Type :=
| CommentLine (s : string)
| OptionLine (key value : string).

Definition line_text (l : Line) : string :=
  match l with
  | CommentLine s => s
  | OptionLine key value => key ++ "=" ++ value
  end.

Definition no_newline (s : string) : Prop :=
  Forall (fun c => c <> "010"%char /\ c <> "013"%char) (chars s).

Definition line_ok (l : Line) : Prop :=
  match l with
  | CommentLine s =>
      no_newline s
      /\ (strip s = EmptyString
          \/ String.prefix "#" (strip s) = true
          \/ String.prefix ";" (strip s) = true)
  | OptionLine key value =>
      key <> EmptyString
      /\ Forall (fun c => is_ident c = true) (chars key)
      /\ no_newline value
  end.

Definition line_keys (l : Line) : list string :=
  match l with
  | CommentLine _ => []
  | OptionLine key _ => [lower key]
  end.

(** A descriptor file: the header of the section [Test], lines, the line
    [Exec=] with the command, and more lines; the last line may or may not
    be closed by a line feed. *)
Record Descriptor : Type := {
  lines_before : list Line;
  exec_command : Command;
  lines_after : list Line;
  final_newline : bool
}.

Definition descriptor_lines (d : Descriptor) : list string :=
  ("[Test]"
   :: map line_text (lines_before d)
   ++ ("Exec=" ++ text (command_text (exec_command d)))%string
   :: map line_text (lines_after d))%list.

Definition descriptor_text (d : Descriptor) : string :=
  join nl (descriptor_lines d) ++ (if final_newline d then nl else EmptyString).

(** The lines are well formed, no key is given twice (keys are compared
    without regard to the case of letters), and when the last line is not
    closed by a line feed, it is not empty. *)
Definition descriptor_ok (d : Descriptor) : Prop :=
  Forall line_ok (lines_before d)
  /\ command_ok (exec_command d)
  /\ Forall line_ok (lines_after d)
  /\ NoDup ("exec" :: flat_map line_keys (lines_before d ++ lines_after d))
  /\ (final_newline d = false ->
      last (descriptor_lines d) EmptyString <> EmptyString).

(** The state of the parser inside the section [Test], at the left margin
    and without a parsing error: the options read so far, and the name of
    the last one. *)
Definition test_state (sect : Dict.t string) (last_option : option string)
  : ConfigState :=
  {| cfg_sections := [("Test", sect)];
     cursect := Some "Test";
     optname := last_option;
     indent_level := O;
     parsing_error := false |}.

(** The lines of the section [Test] of a descriptor, the line with the
    command among them. *)
Definition descriptor_body (d : Descriptor) : list Line :=
  (lines_before d
   ++ OptionLine "Exec" (text (command_text (exec_command d)))
   :: lines_after d)%list.

(** Every command of the tables is one that [subprocess.Popen] takes: it
    names a program and holds no null character. *)
Definition commands_well_formed (t : Tables) : Prop :=
  forall tag tests name cmd,
    Dict.get tag (TAG_TESTS t) = Some tests ->
    In (name, cmd) (Dict.items tests) -> malformed cmd = false.

(** The invocation that the descriptor [entry] of the directory [dir]
    gives: its [Exec] line of the section [Test], split into words. *)
Definition descriptor_command (fs : FileSystem) (dir : Path) (entry : string)
  : exc (list string) :=
  exc_bind (config_read (read_text fs (dir // entry))) (fun config =>
  exc_bind (config_get config "Test" "Exec") shlex_split).

(* ================================================================== *)
(** * Section printers

    [SectionPrinter.group] and [GitHubSectionPrinter.group] are generators
    turned into context managers: [with printer.group(title): body] runs
    the generator up to its [yield], then the body, and resumes the
    generator after the [yield] only when the body has completed; an
    exception of the body is raised again at the [yield], which nothing
    in the generator catches, so what follows the [yield] is not run.
    The [assert] is taken as executed (the script is not run with [-O]). *)
Module Sections.

Inductive Class : Type := SectionPrinter | GitHubSectionPrinter.

(** The printer object, with the lines printed so far. *)
Record Printer : Type := {
  in_group : bool;
  lines : list string
}.

(** [GitHubSectionPrinter.__init__]. *)
Definition init : Printer := {| in_group := false; lines := [] |}.

Definition say (line : string) (p : Printer) : Printer :=
  {| in_group := in_group p; lines := lines p ++ [line] |}.

Definition set_in_group (b : bool) (p : Printer) : Printer :=
  {| in_group := b; lines := lines p |}.

(** Statements that use a printer: a [print], a statement that raises, and
    a [with printer.group(title):] block. *)
#[warnings="-register-all"] Inductive Stmt : Type :=
| Say (line : string)
| Raises (e : Exn)
| With (title : string) (body : list Stmt).

(** How a run of statements ends. *)
Inductive Stop : Type :=
| Done
| AssertionError (msg : string)
| Escaped (e : Exn).

Fixpoint exec (cls : Class) (s : Stmt) (p : Printer) : Printer * Stop :=
  match s with
  | Say line => (say line p, Done)
  | Raises e => (p, Escaped e)
  | With title body =>
      let run_body :=
        fix run_body (body : list Stmt) (p : Printer) : Printer * Stop :=
          match body with
          | [] => (p, Done)
          | s :: rest =>
              match exec cls s p with
              | (p', Done) => run_body rest p'
              | stopped => stopped
              end
          end in
      match cls with
      | SectionPrinter => run_body body (say (title ++ ":") p)
      | GitHubSectionPrinter =>
          let p1 := say ("::group::" ++ title) p in
          if in_group p1
          then (p1, AssertionError "Can enter a group only once")
          else
            match run_body body (set_in_group true p1) with
            | (p2, Done) => (say "::endgroup::" (set_in_group false p2), Done)
            | stopped => stopped
            end
      end
  end.

(** A sequence of statements. *)
Fixpoint exec_all (cls : Class) (body : list Stmt) (p : Printer)
  : Printer * Stop :=
  match body with
  | [] => (p, Done)
  | s :: rest =>
      match exec cls s p with
      | (p', Done) => exec_all cls rest p'
      | stopped => stopped
      end
  end.

(** A statement that opens no group and raises nothing. *)
Definition is_print (s : Stmt) : Prop := exists line, s = Say line.

(** A print, or a group whose body only prints: the blocks of the loops of
    [main], when the test processes can be started. *)
Definition is_flat (s : Stmt) : Prop :=
  is_print s \/ exists title body, s = With title body /\ Forall is_print body.

(** The lines that a statement made of prints and groups gives. *)
Fixpoint rendering (cls : Class) (s : Stmt) : list string :=
  match s with
  | Say line => [line]
  | Raises _ => []
  | With title body =>
      match cls with
      | SectionPrinter =>
          (title ++ ":") :: flat_map (rendering cls) body
      | GitHubSectionPrinter =>
          (("::group::" ++ title) :: flat_map (rendering cls) body)
          ++ ["::endgroup::"]
      end
  end.

(** The statement cannot complete: it raises, or it opens a group. *)
Definition breaks_a_group (s : Stmt) : Prop :=
  (exists e, s = Raises e) \/ (exists title body, s = With title body).

End Sections.

(* ================================================================== *)
(** * The small installation, compared: [v1] against the DUT [v2] *)

Module Example.

Definition arguments : Args := Scenario.args ["v1"] "v2" None None false.

(** The tables that the pipeline builds for [arguments]. *)
Definition tables : Tables :=
  {| TAG_SRC := [("v1", "w/v1"); ("v2", "w/v2")];
     TAG_BLD := [("v1", "w/v1"); ("v2", "w/v2")];
     TAG_PREF := [("v1", "w/v1/prefix"); ("v2", "w/v2/prefix")];
     TAG_VERSION := [("v1", (1, 0, 0)); ("v2", (1, 1, 0))];
     TAG_TESTS :=
       [("v1", [("alpha", ["/p/alpha"; "--x"]);
                ("testautomation", ["/p/testautomation"])]);
        ("v2", [("beta", ["/p/beta"])])];
     TAG_AUTOMATION_CASES := [("v1", ["foo_1"; "bar_2"]); ("v2", [])];
     all_test_names := ["alpha"; "testautomation"; "beta"];
     all_automation_cases := ["foo_1"; "bar_2"] |}.

(** A world like [Scenario.world], without PATH. *)
Definition world_without_PATH : World :=
  {| now := 0;
     environ := [("HOME", "/home/sdl")];
     os := fun _ _ _ => Exits 15 0;
     events := [];
     stdout := [] |}.

(** The installation of [Scenario], where the descriptor of [alpha] gives
    an empty command: [Exec=] with nothing behind it. *)
Definition empty_command : FileSystem :=
  {| read_text := fun path =>
       if String.eqb path "w/v1/prefix/share/installed-tests/SDL3/alpha.test"
       then Some (Scenario.descriptor EmptyString)
       else read_text Scenario.fs path;
     iterdir := iterdir Scenario.fs;
     glob := glob Scenario.fs |}.

(** A tree whose version header defines nothing. *)
Definition no_version : FileSystem :=
  {| read_text := fun _ => Some "/* no version here */";
     iterdir := fun _ => None;
     glob := fun _ => [] |}.

End Example.

(* ================================================================== *)
(** * Process Runner: proofs *)

Section RunnerFacts.
Variables (child : Child) (start timeout : Z).

(** With enough fuel the loop ends; it only lets time pass, in steps of
    10 ms; it stops with the child ended or the deadline behind, and never
    later than one polling interval after the deadline. *)
Lemma wait_loop_spec fuel : forall w,
  (1 <= fuel)%nat ->
  start + secs timeout - now w < 10 * (Z.of_nat fuel - 1) ->
  exists w',
    wait_loop fuel child start timeout w = Some w'
    /\ events w' = events w /\ environ w' = environ w /\ os w' = os w
    /\ stdout w' = stdout w
    /\ (exists k, 0 <= k /\ now w' = now w + 10 * k)
    /\ now w' <= Z.max (now w) (start + secs timeout + 10)
    /\ (poll child w' = None -> start + secs timeout < now w').
Proof.
  induction fuel as [|f IH]; intros w Hf Hd; [lia|].
  cbn [wait_loop].
  destruct (poll child w) as [rc|] eqn:Hp.
  - exists w; repeat split; try lia; try congruence. exists 0; lia.
  - destruct (Z.gtb_spec (now w) (start + secs timeout)) as [Hgt|Hle].
    + exists w; repeat split; try lia. exists 0; lia.
    + destruct (IH (sleep 10 w))
        as (w' & Hw & He & Hen & Hos & Hso & (k & Hk & Hn) & Hmax & Hpoll).
      * lia.
      * cbn [sleep now]; lia.
      * exists w'; cbn [sleep now events environ os stdout] in *.
        repeat split; try assumption; try lia. exists (k + 1); lia.
Qed.
End RunnerFacts.

Lemma loop_fuel_enough timeout start :
  (1 <= loop_fuel timeout)%nat
  /\ start + secs timeout - start < 10 * (Z.of_nat (loop_fuel timeout) - 1).
Proof. unfold loop_fuel, secs; split; lia. Qed.

Lemma wait_loop_frame child start timeout fuel : forall w w',
  wait_loop fuel child start timeout w = Some w' ->
  events w' = events w /\ environ w' = environ w /\ os w' = os w
  /\ stdout w' = stdout w.
Proof.
  induction fuel as [|f IH]; intros w w'; cbn [wait_loop]; [discriminate|].
  destruct (poll child w).
  - intros [= <-]; auto.
  - destruct (now w >? start + secs timeout).
    + intros [= <-]; auto.
    + intros H; apply IH in H; cbn [sleep events environ os stdout] in H.
      exact H.
Qed.

Lemma was_killed_emit p w e :
  was_killed p (emit e w)
  = was_killed p w || match e with Killed q => Nat.eqb p q | _ => false end.
Proof.
  unfold was_killed, emit; cbn [events].
  rewrite existsb_app; cbn [existsb]; now rewrite orb_false_r.
Qed.

Lemma started_count_emit e w :
  started_count (emit e w)
  = (started_count w + if is_started e then 1 else 0)%nat.
Proof.
  unfold started_count, emit; cbn [events].
  rewrite filter_app, length_app; cbn [filter].
  destruct (is_started e); reflexivity.
Qed.

(** What a call of the runner amounts to: the two events it leaves, the
    world [w2] in which the polling loop stops, and the classification of
    the child's state in [w2]. *)
Lemma run_process_with_timeout_spec cmd timeout env w :
  can_be_started cmd env w ->
  let c := launched cmd env w in
  exists w2,
    events w2 = (events w ++ [Running cmd timeout env; Started c])%list
    /\ environ w2 = environ w /\ os w2 = os w /\ stdout w2 = stdout w
    /\ (exists k, 0 <= k /\ now w2 = now w + 10 * k)
    /\ now w2 <= Z.max (now w) (now w + secs timeout + 10)
    /\ (poll c w2 = None -> now w + secs timeout < now w2)
    /\ run_process_with_timeout cmd timeout env w
       = match poll c w2 with
         | None => Returned TIMEOUT (kill c w2)
         | Some returncode =>
             if returncode =? 0 then Returned SUCCESS w2
             else Returned FAILED w2
         end.
Proof.
  intros [Hform Hstart] c.
  unfold run_process_with_timeout, Popen.
  rewrite started_count_emit; cbn [is_started]; rewrite Nat.add_0_r.
  cbn [emit os now].
  fold (launched cmd env w); fold c.
  set (w0 := emit (Running cmd timeout env) w).
  rewrite Hform. cbn [negb andb].
  replace (can_start (child_program c)) with true
    by (subst c; cbn [launched child_program];
        destruct (os w (started_count w) cmd env);
        [contradiction | reflexivity..]).
  set (w1 := emit (Started c) w0).
  destruct (loop_fuel_enough timeout (now w1)) as [F1 F2].
  destruct (wait_loop_spec c (now w1) timeout (loop_fuel timeout) w1 F1 F2)
    as (w2 & Hw & He & Hen & Hos & Hso & Hk & Hn & Hp).
  exists w2. rewrite Hw.
  subst w1 w0; cbn [emit events environ os stdout now] in *.
  repeat split; try assumption; try lia.
  rewrite He, <- app_assoc; reflexivity.
Qed.

Lemma run_process_with_timeout_cannot_start cmd timeout env w :
  malformed cmd = true \/ os w (started_count w) cmd env = CannotStart ->
  run_process_with_timeout cmd timeout env w
  = Raised (start_error cmd) (emit (Running cmd timeout env) w).
Proof.
  intros H. unfold run_process_with_timeout, Popen.
  rewrite started_count_emit; cbn [is_started]; rewrite Nat.add_0_r.
  cbn [emit os child_program].
  destruct H as [H|H]; rewrite H; [reflexivity|].
  now rewrite andb_false_r.
Qed.

(** The runner either can start its command or raises at once. *)
Lemma can_be_started_dec cmd env w :
  can_be_started cmd env w
  \/ (malformed cmd = true \/ os w (started_count w) cmd env = CannotStart).
Proof.
  unfold can_be_started.
  destruct (malformed cmd); [now right; left|].
  destruct (os w (started_count w) cmd env); [right; now right|left..];
    split; [reflexivity | discriminate | reflexivity | discriminate].
Qed.

Lemma start_error_is_start_failure cmd : is_start_failure (start_error cmd).
Proof.
  unfold is_start_failure, start_error.
  destruct cmd; [now left|]. destruct (existsb has_nul _); auto.
Qed.




(* ================================================================== *)
(** * Dictionaries: proofs *)

Lemma get_set_same {V} k (v : V) d : Dict.get k (Dict.set k v d) = Some v.
Proof.
  induction d as [|[k' v'] d IH]; cbn.
  - now rewrite String.eqb_refl.
  - destruct (String.eqb_spec k k') as [->|Hne]; cbn.
    + now rewrite String.eqb_refl.
    + destruct (String.eqb_spec k k'); [contradiction | exact IH].
Qed.

Lemma get_set_other {V} k k' (v : V) d :
  k <> k' -> Dict.get k (Dict.set k' v d) = Dict.get k d.
Proof.
  intros Hne. induction d as [|[k0 v0] d IH]; cbn.
  - destruct (String.eqb_spec k k'); [contradiction | reflexivity].
  - destruct (String.eqb_spec k' k0) as [->|Hne']; cbn.
    + destruct (String.eqb_spec k k0); [contradiction | reflexivity].
    + destruct (String.eqb_spec k k0); [reflexivity | exact IH].
Qed.

Lemma get_set {V} k k' (v : V) d :
  Dict.get k (Dict.set k' v d)
  = if String.eqb k k' then Some v else Dict.get k d.
Proof.
  destruct (String.eqb_spec k k') as [->|Hne].
  - apply get_set_same.
  - now apply get_set_other.
Qed.

(* ================================================================== *)
(** * Loops and frames: proofs *)

Lemma for_each_app {X S} (body : X -> S -> M S) xs ys s w :
  for_each body (xs ++ ys) s w
  = bind (for_each body xs s) (for_each body ys) w.
Proof.
  revert s w; induction xs as [|x xs IH]; intros s w; cbn [for_each app].
  - reflexivity.
  - unfold bind. destruct (body x s w) as [s1 w1| |]; try reflexivity.
    rewrite IH. reflexivity.
Qed.

Section Frames.
Variable P : World -> World -> Prop.
Hypothesis P_refl : forall w, P w w.
Hypothesis P_trans : forall a b c, P a b -> P b c -> P a c.

Lemma respects_ret {A} (a : A) : respects P (ret a).
Proof. intros w w' [= <-]; apply P_refl. Qed.

Lemma respects_raise {A} e : respects P (@raise A e).
Proof. intros w w' [= <-]; apply P_refl. Qed.

Lemma respects_lift {A} (m : exc A) : respects P (lift m).
Proof. intros w w'; destruct m; intros [= <-]; apply P_refl. Qed.

Lemma respects_bind {A B} (m : M A) (k : A -> M B) :
  respects P m -> (forall a, respects P (k a)) -> respects P (bind m k).
Proof.
  intros Hm Hk w w'. unfold bind.
  specialize (Hm w). destruct (m w) as [a w1|e w1|]; cbn in *.
  - intros H. eapply P_trans; [apply Hm; reflexivity | eapply Hk; exact H].
  - exact (Hm w').
  - discriminate.
Qed.

Lemma respects_for_each {X S} (body : X -> S -> M S) xs :
  (forall x s, respects P (body x s)) ->
  forall s, respects P (for_each body xs s).
Proof.
  intros Hb. induction xs as [|x xs IH]; intros s; cbn [for_each].
  - apply respects_ret.
  - apply respects_bind; auto.
Qed.
End Frames.

Lemma stops_ret {A} (a : A) : stops (ret a).
Proof. intros w; discriminate. Qed.

Lemma stops_raise {A} e : stops (@raise A e).
Proof. intros w; discriminate. Qed.

Lemma stops_lift {A} (m : exc A) : stops (lift m).
Proof. intros w; destruct m; discriminate. Qed.

Lemma stops_print line : stops (print line).
Proof. intros w; discriminate. Qed.

Lemma stops_bind {A B} (m : M A) (k : A -> M B) :
  stops m -> (forall a, stops (k a)) -> stops (bind m k).
Proof.
  intros Hm Hk w. unfold bind. specialize (Hm w).
  destruct (m w); [apply Hk | discriminate | contradiction].
Qed.

Lemma stops_for_each {X S} (body : X -> S -> M S) xs :
  (forall x s, stops (body x s)) -> forall s, stops (for_each body xs s).
Proof.
  intros Hb. induction xs as [|x xs IH]; intros s; cbn [for_each].
  - apply stops_ret.
  - apply stops_bind; auto.
Qed.

Lemma stops_run cmd timeout env :
  stops (run_process_with_timeout cmd timeout env).
Proof.
  intros w.
  destruct (can_be_started_dec cmd env w) as [E|E];
    [|rewrite run_process_with_timeout_cannot_start by exact E; discriminate].
  destruct (run_process_with_timeout_spec cmd timeout env w E)
    as (w2 & _ & _ & _ & _ & _ & _ & _ & ->).
  destruct (poll _ w2) as [rc|]; [destruct (rc =? 0)|]; discriminate.
Qed.

(** ** The frame of a test run *)

Lemma ran_tests_refl timeout env w : ran_tests timeout env w w.
Proof. exists []; rewrite app_nil_r; auto. Qed.

Lemma ran_tests_trans timeout env a b c :
  ran_tests timeout env a b -> ran_tests timeout env b c ->
  ran_tests timeout env a c.
Proof.
  intros (e1 & H1 & F1 & E1 & O1) (e2 & H2 & F2 & E2 & O2).
  exists (e1 ++ e2)%list. rewrite H2, H1, app_assoc.
  repeat split; try congruence. apply Forall_app; auto.
Qed.

Lemma respects_print timeout env line :
  respects (ran_tests timeout env) (print line).
Proof. intros w w' [= <-]. exists []; cbn; rewrite app_nil_r; auto. Qed.

Lemma respects_run cmd timeout env :
  respects (ran_tests timeout env) (run_process_with_timeout cmd timeout env).
Proof.
  intros w w'.
  destruct (can_be_started_dec cmd env w) as [E|E].
  2:{ rewrite run_process_with_timeout_cannot_start by exact E.
      intros [= <-]. exists [Running cmd timeout env]; cbn.
      repeat split; auto. constructor; cbn; auto. }
  destruct (run_process_with_timeout_spec cmd timeout env w E)
    as (w2 & He & Hen & Hos & _ & _ & _ & _ & ->).
  intros H.
  assert (Hw : w' = w2 \/ w' = kill (launched cmd env w) w2)
    by (destruct (poll _ w2) as [rc|]; [destruct (rc =? 0)|];
        injection H as <-; auto).
  destruct Hw as [->| ->].
  - eexists; split; [exact He|]; repeat split; auto;
      repeat constructor; reflexivity.
  - eexists; cbn [kill emit events environ os]; rewrite He, <- app_assoc;
      (split; [reflexivity|]); repeat split; auto;
      repeat constructor; reflexivity.
Qed.

(* ================================================================== *)
(** * Comparison Engine and Report Printer: frames *)

Ltac frame_with known :=
  repeat first
    [ known
    | exact (respects_ret _ (ran_tests_refl _ _) _)
    | exact (respects_raise _ (ran_tests_refl _ _) _)
    | exact (respects_lift _ (ran_tests_refl _ _) _)
    | apply respects_print
    | apply respects_run
    | apply (respects_bind _ (ran_tests_trans _ _)); [ | intros ?]
    | apply (respects_for_each _ (ran_tests_refl _ _) (ran_tests_trans _ _));
        intros ? ?
    | match goal with
      | |- respects _ (if ?b then _ else _) => destruct b
      | |- respects _ (match ?x with _ => _ end) => destruct x
      | |- respects _ (let (_, _) := ?x in _) => destruct x
      end ].

Section EngineFrame.
Variables (args : Args) (t : Tables) (env : Env).

Lemma respects_run_unit_test tag item st :
  respects (test_run env) (run_unit_test args env tag item st).
Proof. unfold run_unit_test, test_run; frame_with fail. Qed.

Lemma respects_run_automation_case tag cmd c st :
  respects (test_run env) (run_automation_case args env tag cmd c st).
Proof. unfold run_automation_case, test_run; frame_with fail. Qed.

Lemma respects_update_after_automation st :
  respects (test_run env) (update_after_automation st).
Proof. unfold update_after_automation, test_run; frame_with fail. Qed.

Lemma respects_run_automation tag st :
  respects (test_run env) (run_automation args t env tag st).
Proof.
  unfold run_automation, test_run.
  frame_with ltac:(first [ apply respects_run_automation_case
                         | apply respects_update_after_automation ]).
Qed.

Lemma respects_run_unit_tests tag st :
  respects (test_run env) (run_unit_tests args t env tag st).
Proof.
  unfold run_unit_tests, test_run.
  frame_with ltac:(apply respects_run_unit_test).
Qed.

Lemma respects_compare_tag tag st :
  respects (test_run env) (compare_tag args t env tag st).
Proof.
  unfold compare_tag, test_run.
  frame_with ltac:(first [ apply respects_run_unit_tests
                         | apply respects_run_automation ]).
Qed.

Lemma respects_engine : respects (test_run env) (engine args t env).
Proof.
  unfold engine, test_run; frame_with ltac:(apply respects_compare_tag).
Qed.

Lemma respects_print_table heading names results :
  respects (test_run env) (print_table args t heading names results).
Proof. unfold print_table, print_row, test_run; frame_with fail. Qed.

Lemma respects_report st : respects (test_run env) (report args t st).
Proof.
  unfold report, test_run; frame_with ltac:(apply respects_print_table).
Qed.
End EngineFrame.

Ltac halt :=
  repeat first
    [ apply stops_ret | apply stops_raise | apply stops_lift
    | apply stops_print | apply stops_run
    | apply stops_bind; [ | intros ?]
    | apply stops_for_each; intros ? ?
    | match goal with
      | |- stops (if ?b then _ else _) => destruct b
      | |- stops (match ?x with _ => _ end) => destruct x
      | |- stops (let (_, _) := ?x in _) => destruct x
      end ].

Lemma stops_engine args t env : stops (engine args t env).
Proof.
  unfold engine, compare_tag, run_unit_tests, run_automation,
    run_unit_test, run_automation_case, update_after_automation.
  halt.
Qed.

Lemma stops_report args t st : stops (report args t st).
Proof. unfold report, print_table, print_row; halt. Qed.

(** The program always stops, by returning an exit code or by raising. *)
Lemma main_stops args fs : stops (main args fs).
Proof.
  unfold main. apply stops_bind; [apply stops_lift|intros t].
  apply stops_bind.
  - intros w. unfold child_environment. apply stops_lift.
  - intros env. apply stops_bind; [apply stops_engine|intros st].
    apply stops_bind; [apply stops_report|intros _; apply stops_ret].
Qed.

(* ================================================================== *)
(** * The program as a whole *)

Lemma pipeline_loop_app args fs xs ys t :
  pipeline_loop args fs (xs ++ ys) t
  = exc_bind (pipeline_loop args fs xs t) (pipeline_loop args fs ys).
Proof.
  revert t; induction xs as [|x xs IH]; intros t; cbn [pipeline_loop app exc_bind].
  - reflexivity.
  - destruct (pipeline_step args fs x t); cbn [exc_bind]; auto.
Qed.

Lemma pipeline_step_prefix args fs tag t t' :
  pipeline_step args fs tag t = Ok t' ->
  Dict.get tag (TAG_PREF t') = Some (cwd args // tag // "prefix").
Proof.
  unfold pipeline_step.
  destruct (read_text fs _); cbn [exc_bind]; [|discriminate].
  repeat (match goal with
          | |- exc_bind ?m _ = _ -> _ => destruct m; cbn [exc_bind];
                                         [|discriminate]
          end).
  intros [= <-]; cbn [TAG_PREF]. apply get_set_same.
Qed.

Lemma pipeline_dut_prefix args fs t :
  pipeline args fs = Ok t ->
  Dict.get (dut_tag args) (TAG_PREF t)
  = Some (cwd args // dut_tag args // "prefix").
Proof.
  unfold pipeline. rewrite pipeline_loop_app.
  destruct (pipeline_loop args fs (other_tags args) no_tables) as [t1|];
    cbn [exc_bind pipeline_loop]; [|discriminate].
  destruct (pipeline_step args fs (dut_tag args) t1) as [t2|] eqn:E;
    cbn [exc_bind]; [|discriminate].
  intros [= <-]. eapply pipeline_step_prefix; eassumption.
Qed.

(** The environment built for the test processes, described by look-ups. *)
Lemma child_environment_spec args t w env w1 pref :
  Dict.get (dut_tag args) (TAG_PREF t) = Some pref ->
  child_environment args t w = Returned env w1 ->
  w1 = w
  /\ Dict.get "LD_LIBRARY_PATH" env = Some (pref // "lib")
  /\ Dict.get "DYLD_LIBRARY_PATH" env = Some (pref // "lib")
  /\ (exists path, Dict.get "PATH" (environ w) = Some path
                   /\ Dict.get "PATH" env
                      = Some ((pref // "bin") ++ pathsep ++ path))
  /\ (forall k, k <> "LD_LIBRARY_PATH" -> k <> "DYLD_LIBRARY_PATH" ->
                k <> "PATH" -> Dict.get k env = Dict.get k (environ w)).
Proof.
  intros Hpref. unfold child_environment, Dict.lookup, Env, Path in *.
  rewrite Hpref; cbn [exc_bind].
  rewrite !get_set_other by discriminate.
  destruct (Dict.get "PATH" (environ w)) as [path|] eqn:Hpath;
    cbn [exc_bind lift]; [|intros [=]].
  intros [= <- <-]. split; [reflexivity|].
  split; [rewrite get_set_other by discriminate; apply get_set_same|].
  split; [rewrite !get_set_other by discriminate; apply get_set_same|].
  split; [exists path; split; [reflexivity | apply get_set_same]|].
  intros k H1 H2 H3. now rewrite !get_set_other by assumption.
Qed.

(** Whatever [main] does to the world is a test run with the environment it
    built and the timeout [MAX_TEST_TIME]; when it stops before building the
    environment the world is untouched. *)
Lemma main_frame args fs w w' :
  final_world (main args fs w) = Some w' ->
  w' = w
  \/ exists t env,
       pipeline args fs = Ok t
       /\ child_environment args t w = Returned env w
       /\ ran_tests MAX_TEST_TIME env w w'.
Proof.
  unfold main, bind at 1.
  destruct (pipeline args fs) as [t|e]; cbn [lift]; [|intros [= <-]; auto].
  unfold bind at 1.
  destruct (child_environment args t w) as [env w1|e w1|] eqn:Henv.
  2:{ cbn. intros [= <-]. left. revert Henv. unfold child_environment.
      match goal with |- lift ?m w = _ -> _ => destruct m end; cbn;
        congruence. }
  2:{ discriminate. }
  assert (w1 = w) as ->.
  { revert Henv. unfold child_environment.
    match goal with |- lift ?m w = _ -> _ => destruct m end; cbn; congruence. }
  intros H. right; exists t, env. repeat split; auto.
  revert H.
  apply (respects_bind _ (ran_tests_trans MAX_TEST_TIME env));
    [apply respects_engine|intros st].
  apply (respects_bind _ (ran_tests_trans MAX_TEST_TIME env));
    [apply respects_report|intros _].
  exact (respects_ret _ (ran_tests_refl MAX_TEST_TIME env) _).
Qed.

(** C7. Environment of the test processes.  In whatever world [main] stops,
    the environment of the script itself is the one it started with, and
    every process started meanwhile was given an environment in which
    LD_LIBRARY_PATH and DYLD_LIBRARY_PATH are the [lib] directory of the
    DUT tag's install prefix, PATH is the prefix's [bin] directory, the path
    separator and the inherited PATH, and every other variable is looked up
    as in the script's own environment. *)
Theorem tests_run_in_dut_environment args fs w w' :
  final_world (main args fs w) = Some w' ->
  let pref := cwd args // dut_tag args // "prefix" in
  environ w' = environ w
  /\ exists evs,
       events w' = (events w ++ evs)%list
       /\ forall c, In (Started c) evs ->
            Dict.get "LD_LIBRARY_PATH" (child_env c) = Some (pref // "lib")
            /\ Dict.get "DYLD_LIBRARY_PATH" (child_env c) = Some (pref // "lib")
            /\ (exists path,
                  Dict.get "PATH" (environ w) = Some path
                  /\ Dict.get "PATH" (child_env c)
                     = Some ((pref // "bin") ++ pathsep ++ path))
            /\ (forall k, k <> "LD_LIBRARY_PATH" ->
                          k <> "DYLD_LIBRARY_PATH" -> k <> "PATH" ->
                          Dict.get k (child_env c) = Dict.get k (environ w)).
Proof.
  intros H pref. apply main_frame in H.
  destruct H as [->|(t & env & Ht & Henv & evs & Hev & Hok & He & _)].
  - split; [reflexivity|]. exists []; rewrite app_nil_r; split; [reflexivity|].
    intros c [].
  - split; [exact He|]. exists evs; split; [exact Hev|].
    intros c Hc.
    rewrite Forall_forall in Hok. specialize (Hok _ Hc); cbn in Hok.
    rewrite Hok.
    destruct (child_environment_spec args t w env w pref
                (pipeline_dut_prefix args fs t Ht) Henv) as (_ & H).
    exact H.
Qed.

(** Every call of the runner that [main] makes passes [MAX_TEST_TIME] as the
    timeout. *)
Lemma tests_run_with_MAX_TEST_TIME args fs w w' :
  final_world (main args fs w) = Some w' ->
  exists evs,
    events w' = (events w ++ evs)%list
    /\ forall cmd timeout env,
         In (Running cmd timeout env) evs -> timeout = MAX_TEST_TIME.
Proof.
  intros H. apply main_frame in H.
  destruct H as [->|(t & env & _ & _ & evs & Hev & Hok & _)].
  - exists []; rewrite app_nil_r; split; [reflexivity|]. intros ? ? ? [].
  - exists evs; split; [exact Hev|]. intros cmd timeout env' Hin.
    rewrite Forall_forall in Hok. now destruct (Hok _ Hin).
Qed.

(* ================================================================== *)
(** * Inversion of computations that returned *)

Lemma bind_returned {A B} (m : M A) (k : A -> M B) w b w' :
  bind m k w = Returned b w' ->
  exists a w1, m w = Returned a w1 /\ k a w1 = Returned b w'.
Proof.
  unfold bind. destruct (m w) as [a w1| |]; try discriminate.
  intros H; exists a, w1; auto.
Qed.

Lemma lift_returned {A} (m : exc A) w a w' :
  lift m w = Returned a w' -> m = Ok a /\ w' = w.
Proof. destruct m; cbn; intros [=]; subst; auto. Qed.

Lemma lookup_ok {V} k (d : Dict.t V) v :
  Dict.lookup k d = Ok v <-> Dict.get k d = Some v.
Proof.
  unfold Dict.lookup; destruct (Dict.get k d); split; intros [=]; subst; auto.
Qed.

(** An invariant of the loop-carried variables holds after a loop that
    returned if every turn that returns keeps it. *)
Lemma for_each_invariant {X S} (I : S -> Prop) (body : X -> S -> M S) xs :
  (forall x s w s' w', In x xs -> I s -> body x s w = Returned s' w' -> I s') ->
  forall s w s' w',
    I s -> for_each body xs s w = Returned s' w' -> I s'.
Proof.
  induction xs as [|x xs IH]; intros Hb s w s' w' Hs; cbn [for_each].
  - intros [= <- <-]; exact Hs.
  - intros H. apply bind_returned in H as (s1 & w1 & H1 & H2).
    eapply IH; [ | | exact H2].
    + intros; eapply Hb; eauto using in_cons.
    + eapply Hb; eauto using in_eq.
Qed.

(** The runner only ever reports SUCCESS, FAILED or TIMEOUT, and a call that
    returns has started exactly one process. *)
Lemma run_process_with_timeout_returned cmd timeout env w r w' :
  run_process_with_timeout cmd timeout env w = Returned r w' ->
  (r = SUCCESS \/ r = FAILED \/ r = TIMEOUT)
  /\ started_count w' = S (started_count w).
Proof.
  destruct (can_be_started_dec cmd env w) as [E|E].
  - destruct (run_process_with_timeout_spec cmd timeout env w E)
      as (w2 & He & _ & _ & _ & _ & _ & _ & ->).
    assert (Hc : started_count w2 = S (started_count w)).
    { unfold started_count. rewrite He, filter_app, length_app; cbn. lia. }
    destruct (poll _ w2) as [rc|]; [destruct (rc =? 0)|];
      intros [= <- <-]; (split; [auto|]); try exact Hc.
    unfold kill; rewrite started_count_emit; cbn. lia.
  - rewrite run_process_with_timeout_cannot_start by exact E. discriminate.
Qed.

(* ================================================================== *)
(** * Success accumulation *)

Lemma update_success_eq s r :
  update_success s r = s && result_eqb r SUCCESS.
Proof. destruct s, r; reflexivity. Qed.

Lemma fold_update_success rs : forall s,
  fold_left update_success rs s
  = s && forallb (fun r => result_eqb r SUCCESS) rs.
Proof.
  induction rs as [|r rs IH]; intros s; cbn [fold_left forallb].
  - now rewrite andb_true_r.
  - now rewrite IH, update_success_eq, andb_assoc.
Qed.

(** The flag after any sequence of results is the flag before in
    conjunction with "every result is SUCCESS": a result other than SUCCESS
    leaves it false, a flag that is false stays false, and the exit code is
    0 exactly when the flag is true and 1 exactly when it is false. *)
Lemma success_needs_every_result_SUCCESS (rs : list TestResult) (s : bool) :
  let s' := fold_left update_success rs s in
  s' = s && forallb (fun r => result_eqb r SUCCESS) rs
  /\ (forall r, In r rs -> r <> SUCCESS -> s' = false)
  /\ (s = false -> s' = false)
  /\ (exit_code s' = 0 <-> s' = true)
  /\ (exit_code s' = 1 <-> s' = false).
Proof.
  cbn zeta. rewrite fold_update_success.
  split; [reflexivity|]. split; [|split; [|split]].
  - intros r Hr Hne.
    assert (H : forallb (fun r => result_eqb r SUCCESS) rs = false).
    { apply not_true_is_false. intros H.
      rewrite forallb_forall in H. specialize (H r Hr).
      destruct r; try discriminate. now apply Hne. }
    now rewrite H, andb_false_r.
  - now intros ->.
  - destruct (s && _); cbn; split; intros; congruence.
  - destruct (s && _); cbn; split; intros; congruence.
Qed.

(** The flag that the loop over a tag's unit tests leaves is that fold over
    the results of its turns, one per test. *)
Lemma run_unit_tests_flag args env tag items : forall st w st' w',
  for_each (run_unit_test args env tag) items st w = Returned st' w' ->
  exists rs,
    List.length rs = List.length items
    /\ success st' = fold_left update_success rs (success st).
Proof.
  induction items as [|[name cmd] items IH]; intros st w st' w'; cbn [for_each].
  - intros [= <- <-]. exists []; auto.
  - intros H. apply bind_returned in H as (s1 & w1 & H1 & H2).
    unfold run_unit_test in H1.
    apply bind_returned in H1 as (r & w2 & _ & H1). injection H1 as <- <-.
    apply IH in H2 as (rs & Hl & Hs). cbn [success] in *.
    exists (r :: rs). cbn [List.length fold_left]. auto.
Qed.

Lemma run_unit_test_absorbed args env tag item st w st' w' :
  run_unit_test args env tag item st w = Returned st' w' -> absorbed st'.
Proof.
  destruct item as [name cmd]. unfold run_unit_test. intros H.
  apply bind_returned in H as (r & w2 & _ & H). injection H as <- <-.
  exists r; cbn. split; [reflexivity|].
  rewrite !update_success_eq. now destruct (success st), (result_eqb r SUCCESS).
Qed.

Lemma run_unit_tests_absorbed args env tag items : forall st w st' w',
  items <> [] ->
  for_each (run_unit_test args env tag) items st w = Returned st' w' ->
  absorbed st'.
Proof.
  induction items as [|item items IH]; intros st w st' w' Hne; [contradiction|].
  cbn [for_each]. intros H. apply bind_returned in H as (s1 & w1 & H1 & H2).
  destruct items as [|item' items].
  - injection H2 as <- <-. eapply run_unit_test_absorbed; eassumption.
  - eapply IH; [discriminate | exact H2].
Qed.

(* ================================================================== *)
(** * Recording results *)

Lemma get_default_record tag name r (results : Results) :
  Dict.get_default tag [] (record_result tag name r results)
  = Dict.set name r (Dict.get_default tag [] results).
Proof. unfold Dict.get_default, record_result. now rewrite get_set_same. Qed.

Lemma filtered_out_true f name :
  f <> EmptyString -> contains f name = false -> filtered_out (Some f) name = true.
Proof.
  intros Hf Hc. unfold filtered_out, truthy. rewrite Hc.
  destruct (String.eqb_spec f EmptyString); [contradiction | reflexivity].
Qed.

Lemma filtered_out_false_of_contains filter name :
  (forall f, filter = Some f -> contains f name = true) ->
  filtered_out filter name = false.
Proof.
  intros H. destruct filter as [f|]; [|reflexivity].
  unfold filtered_out. rewrite (H f eq_refl). apply andb_false_r.
Qed.

(** One turn of the loop over the automation cases. *)
Lemma run_automation_case_returned args env tag cmd c st w st' w' :
  run_automation_case args env tag cmd c st w = Returned st' w' ->
  exists r,
    st' = {| TEST_RESULTS := TEST_RESULTS st;
             TESTAUTOMATION_RESULTS :=
               record_result tag c r (TESTAUTOMATION_RESULTS st);
             success := success st;
             test_result := Some r |}
    /\ (if filtered_out (filter_testautomation args) c
        then r = SKIP /\ w' = w
        else r = SUCCESS \/ r = FAILED \/ r = TIMEOUT).
Proof.
  unfold run_automation_case. intros H.
  apply bind_returned in H as (r & w1 & H1 & H2). injection H2 as <- <-.
  exists r; split; [reflexivity|].
  destruct (filtered_out _ c).
  - injection H1 as <- <-; auto.
  - now apply run_process_with_timeout_returned in H1.
Qed.

Lemma automation_loop_keeps_flag args env tag cmd cases st w st' w' :
  for_each (run_automation_case args env tag cmd) cases st w = Returned st' w' ->
  success st' = success st.
Proof.
  apply (for_each_invariant (fun s => success s = success st)); [|reflexivity].
  intros c s w0 s' w0' _ Hs H.
  apply run_automation_case_returned in H as (r & -> & _). exact Hs.
Qed.

(** C5. The flag and the automation cases.  For a tag that has a test named
    "testautomation", in automation mode, the automation part of the
    comparison updates the flag once, after its loop: when the tag has
    cases, the new flag is the old one in conjunction with "the result
    recorded for the last case is SUCCESS", whatever the results of the
    cases before it: a last case that is not a SUCCESS clears the flag, a
    last case that is one leaves the flag as it was; when the tag has no
    case, the update reads the result of the tag's last unit test, which
    the flag has taken in already. *)
Theorem automation_flag_reads_last_case
  args t env tag tests cmd all_cases st w st' w' :
  testautomation_mode args = true ->
  Dict.get tag (TAG_TESTS t) = Some tests ->
  Dict.get "testautomation" tests = Some cmd ->
  Dict.get tag (TAG_AUTOMATION_CASES t) = Some all_cases ->
  run_automation args t env tag st w = Returned st' w' ->
  (forall cases last_case, all_cases = (cases ++ [last_case])%list ->
     exists r,
       Dict.get last_case
                (Dict.get_default tag [] (TESTAUTOMATION_RESULTS st')) = Some r
       /\ test_result st' = Some r
       /\ success st' = success st && result_eqb r SUCCESS)
  /\ (all_cases = [] -> absorbed st -> success st' = success st).
Proof.
  intros Hmode Htests Hcmd Hcases H.
  unfold run_automation in H. rewrite Hmode in H.
  apply bind_returned in H as (tests' & w1 & H1 & H).
  apply lift_returned in H1 as [H1 ->]. apply lookup_ok in H1.
  assert (tests' = tests) as -> by congruence.
  unfold Dict.mem in H. rewrite Hcmd in H.
  apply bind_returned in H as (cmd' & w1 & H1' & H).
  apply lift_returned in H1' as [H1' ->]. apply lookup_ok in H1'.
  assert (cmd' = cmd) as -> by congruence.
  apply bind_returned in H as (cases' & w1 & H2 & H).
  apply lift_returned in H2 as [H2 ->]. apply lookup_ok in H2.
  assert (cases' = all_cases) as -> by congruence.
  apply bind_returned in H as (st1 & w1 & Hloop & Hupd).
  split.
  - intros cases last_case ->.
    rewrite for_each_app in Hloop.
    apply bind_returned in Hloop as (st0 & w0 & Hinit & Hlast).
    cbn [for_each] in Hlast.
    apply bind_returned in Hlast as (st2 & w2 & Hlast & Hret).
    injection Hret as <- <-.
    apply automation_loop_keeps_flag in Hinit.
    apply run_automation_case_returned in Hlast as (r & -> & _).
    unfold update_after_automation in Hupd; cbn [test_result] in Hupd.
    injection Hupd as <- <-.
    cbn [TESTAUTOMATION_RESULTS success test_result].
    exists r. rewrite get_default_record, get_set_same, Hinit.
    split; [reflexivity|]. split; [reflexivity|]. apply update_success_eq.
  - intros -> (r & Hr & Habs).
    cbn [for_each] in Hloop. injection Hloop as <- <-.
    unfold update_after_automation in Hupd. rewrite Hr in Hupd.
    injection Hupd as <- <-. exact Habs.
Qed.

(* ================================================================== *)
(** * The unit-test filter *)

Section UnitFilter.
Variables (args : Args) (env : Env) (tag f : string).
Hypothesis filter_set : filter_tests args = Some f.
Hypothesis filter_not_empty : f <> EmptyString.

Lemma filtered_out_unit name :
  filtered_out (filter_tests args) name = negb (contains f name).
Proof.
  rewrite filter_set. unfold filtered_out, truthy.
  destruct (String.eqb_spec f EmptyString); [contradiction | reflexivity].
Qed.

(** A turn for a test that the filter leaves out. *)
Lemma run_unit_test_skipped name cmd st w :
  contains f name = false ->
  run_unit_test args env tag (name, cmd) st w
  = Returned {| TEST_RESULTS := record_result tag name SKIP (TEST_RESULTS st);
                TESTAUTOMATION_RESULTS := TESTAUTOMATION_RESULTS st;
                success := update_success (success st) SKIP;
                test_result := Some SKIP |} w.
Proof.
  intros Hc. unfold run_unit_test. rewrite filtered_out_unit, Hc. reflexivity.
Qed.

(** Any turn that returns: what it records and how many processes it
    starts. *)
Lemma run_unit_test_returned name cmd st w st' w' :
  run_unit_test args env tag (name, cmd) st w = Returned st' w' ->
  exists r,
    TEST_RESULTS st' = record_result tag name r (TEST_RESULTS st)
    /\ (contains f name = false -> r = SKIP)
    /\ started_count w'
       = (started_count w + if contains f name then 1 else 0)%nat.
Proof.
  unfold run_unit_test. rewrite filtered_out_unit. intros H.
  apply bind_returned in H as (r & w1 & H1 & H2). injection H2 as <- <-.
  exists r. split; [reflexivity|].
  destruct (contains f name); cbn [negb] in H1.
  - apply run_process_with_timeout_returned in H1 as [_ ->].
    split; [discriminate | lia].
  - injection H1 as <- <-. split; [reflexivity | lia].
Qed.

Lemma skip_stays name items : forall st w st' w',
  contains f name = false ->
  Dict.get name (Dict.get_default tag [] (TEST_RESULTS st)) = Some SKIP ->
  for_each (run_unit_test args env tag) items st w = Returned st' w' ->
  Dict.get name (Dict.get_default tag [] (TEST_RESULTS st')) = Some SKIP.
Proof.
  intros st w st' w' Hc Hs.
  apply (for_each_invariant
           (fun s => Dict.get name (Dict.get_default tag [] (TEST_RESULTS s))
                     = Some SKIP)); [|exact Hs].
  intros [n c] s w0 s' w0' _ Hinv H.
  apply run_unit_test_returned in H as (r & -> & Hr & _).
  rewrite get_default_record, get_set.
  destruct (String.eqb_spec name n) as [->|]; [|exact Hinv].
  now rewrite (Hr Hc).
Qed.

(** C6. The unit-test filter.  With a filter configured, a test whose name
    does not contain the filter is recorded as SKIP in a turn that leaves
    the world as it was (so no runner call, no process); and after the
    whole loop over a tag's tests every such test stands as SKIP in the
    tag's results, while the number of processes started is the number of
    tests whose name contains the filter. *)
Theorem filtered_unit_tests_are_skipped :
  (forall name cmd st w,
      contains f name = false ->
      exists st',
        run_unit_test args env tag (name, cmd) st w = Returned st' w
        /\ test_result st' = Some SKIP
        /\ Dict.get name (Dict.get_default tag [] (TEST_RESULTS st'))
           = Some SKIP)
  /\ (forall items st w st' w',
         for_each (run_unit_test args env tag) items st w = Returned st' w' ->
         (forall name cmd,
             In (name, cmd) items -> contains f name = false ->
             Dict.get name (Dict.get_default tag [] (TEST_RESULTS st'))
             = Some SKIP)
         /\ started_count w'
            = (started_count w
               + List.length (filter (fun item => contains f (fst item))
                                     items))%nat).
Proof.
  split.
  - intros name cmd st w Hc. eexists. split.
    + apply run_unit_test_skipped; exact Hc.
    + cbn. split; [reflexivity|].
      rewrite get_default_record. apply get_set_same.
  - induction items as [|[n c] items IH]; intros st w st' w'; cbn [for_each].
    + intros [= <- <-]. split; [intros ? ? []|cbn; lia].
    + intros H. apply bind_returned in H as (s1 & w1 & H1 & H2).
      destruct (IH _ _ _ _ H2) as [IHskip IHcount].
      pose proof H1 as H1'.
      apply run_unit_test_returned in H1 as (r & Hres & Hr & Hcount).
      split.
      * intros name cmd [[= -> ->]|Hin] Hc; [|eauto].
        eapply skip_stays; [exact Hc | | exact H2].
        rewrite Hres, get_default_record, (Hr Hc). apply get_set_same.
      * rewrite IHcount, Hcount. cbn [filter fst]. destruct (contains f n); cbn [List.length]; lia.
Qed.
End UnitFilter.

(* ================================================================== *)
(** * The automation filter *)

Lemma in_set_update xs : forall s x,
  In x (set_update s xs) -> In x s \/ In x xs.
Proof.
  unfold set_update.
  induction xs as [|y xs IH]; intros s x; cbn [fold_left]; [auto|].
  intros H. apply IH in H as [H|H]; [|auto using in_cons].
  unfold set_add in H. destruct (existsb _ s); [auto|].
  apply in_app_or in H as [H|[<-|[]]]; auto using in_eq.
Qed.

Lemma filter_cases_match f cases :
  f <> EmptyString ->
  Forall (fun c => contains f c = true) (filter_cases (Some f) cases).
Proof.
  intros Hne. unfold filter_cases, truthy.
  destruct (String.eqb_spec f EmptyString); [contradiction|]. cbn [negb].
  apply Forall_forall. intros c Hin. now apply filter_In in Hin.
Qed.

Lemma pipeline_step_cases_match args fs f tag t t' :
  filter_testautomation args = Some f -> f <> EmptyString ->
  cases_match f t ->
  pipeline_step args fs tag t = Ok t' ->
  cases_match f t'.
Proof.
  intros Hf Hne [Hc Ha]. unfold pipeline_step.
  destruct (read_text fs _); cbn [exc_bind]; [|discriminate].
  repeat (match goal with
          | |- exc_bind ?m _ = _ -> _ => destruct m; cbn [exc_bind];
                                         [|discriminate]
          end).
  rewrite Hf.
  match goal with
  | |- context [filter_cases (Some f) ?x] =>
      pose proof (filter_cases_match f x Hne) as Hfil;
      set (kept := filter_cases (Some f) x) in *
  end.
  intros [= <-]. unfold cases_match.
  cbn [TAG_AUTOMATION_CASES all_automation_cases].
  split.
  - intros tag' cases. rewrite get_set.
    destruct (String.eqb tag' tag); [intros [= <-]; exact Hfil | apply Hc].
  - apply Forall_forall. intros c Hin.
    apply in_set_update in Hin as [Hin|Hin];
      [rewrite Forall_forall in Ha | rewrite Forall_forall in Hfil]; auto.
Qed.

Lemma pipeline_loop_cases_match args fs f tags : forall t t',
  filter_testautomation args = Some f -> f <> EmptyString ->
  cases_match f t ->
  pipeline_loop args fs tags t = Ok t' ->
  cases_match f t'.
Proof.
  induction tags as [|tag tags IH]; intros t t' Hf Hne Hm; cbn [pipeline_loop].
  - now intros [= <-].
  - destruct (pipeline_step args fs tag t) as [t1|] eqn:E; cbn [exc_bind];
      [|discriminate].
    apply IH; auto. eapply pipeline_step_cases_match; eauto.
Qed.

Lemma no_skip_set_empty tag results :
  no_skip results -> no_skip (Dict.set tag [] results).
Proof.
  intros H tag' d c. rewrite get_set.
  destruct (String.eqb tag' tag); [intros [= <-]; discriminate | apply H].
Qed.

Lemma no_skip_record tag c r results :
  no_skip results -> r <> SKIP -> no_skip (record_result tag c r results).
Proof.
  intros H Hr tag' d c'. unfold record_result. rewrite get_set.
  destruct (String.eqb tag' tag); [|apply H].
  intros [= <-]. rewrite get_set.
  destruct (String.eqb c' c); [congruence|].
  unfold Dict.get_default.
  specialize (H tag). unfold Results, Dict.t in *.
  destruct (Dict.get tag results) as [d0|];
    [exact (H d0 c' eq_refl) | cbn; discriminate].
Qed.

Lemma run_unit_test_keeps_automation args env tag item st w st' w' :
  run_unit_test args env tag item st w = Returned st' w' ->
  TESTAUTOMATION_RESULTS st' = TESTAUTOMATION_RESULTS st.
Proof.
  destruct item as [name cmd]. unfold run_unit_test. intros H.
  apply bind_returned in H as (r & w1 & _ & H). now injection H as <- <-.
Qed.

Section AutomationFilter.
Variables (args : Args) (t : Tables) (env : Env) (f : string).
Hypothesis filter_set : filter_testautomation args = Some f.
Hypothesis tables_match : cases_match f t.

Lemma compare_tag_no_skip tag st w st' w' :
  no_skip (TESTAUTOMATION_RESULTS st) ->
  compare_tag args t env tag st w = Returned st' w' ->
  no_skip (TESTAUTOMATION_RESULTS st').
Proof.
  intros Hinv H. unfold compare_tag in H.
  apply bind_returned in H as (v1 & w1 & _ & H).
  apply bind_returned in H as (v2 & w2 & _ & H).
  destruct (negb (version_le v1 v2)); [injection H as <- <-; exact Hinv|].
  apply bind_returned in H as (st2 & w3 & Hunit & Hauto).
  assert (H2 : TESTAUTOMATION_RESULTS st2 = TESTAUTOMATION_RESULTS st).
  { unfold run_unit_tests in Hunit.
    apply bind_returned in Hunit as (tests & w4 & _ & Hunit).
    revert Hunit.
    apply (for_each_invariant
             (fun s => TESTAUTOMATION_RESULTS s = TESTAUTOMATION_RESULTS st));
      [|reflexivity].
    intros item s w5 s' w5' _ Hs Hrun.
    apply run_unit_test_keeps_automation in Hrun. congruence. }
  unfold run_automation in Hauto.
  pose proof (no_skip_set_empty tag _ Hinv) as Hinv'. rewrite <- H2 in Hinv'.
  destruct (testautomation_mode args);
    [|injection Hauto as <- <-; exact Hinv'].
  apply bind_returned in Hauto as (tests & w4 & _ & Hauto).
  destruct (Dict.mem "testautomation" tests);
    [|injection Hauto as <- <-; exact Hinv'].
  apply bind_returned in Hauto as (cmd & w5 & _ & Hauto).
  apply bind_returned in Hauto as (cases & w6 & Hcases & Hauto).
  apply lift_returned in Hcases as [Hcases _]. apply lookup_ok in Hcases.
  apply bind_returned in Hauto as (st4 & w7 & Hloop & Hupd).
  assert (H4 : no_skip (TESTAUTOMATION_RESULTS st4)).
  { revert Hloop.
    apply (for_each_invariant (fun s => no_skip (TESTAUTOMATION_RESULTS s)));
      [|exact Hinv'].
    intros c s w8 s' w8' Hin Hs Hrun.
    apply run_automation_case_returned in Hrun as (r & -> & Hr).
    rewrite filtered_out_false_of_contains in Hr.
    - apply no_skip_record; [exact Hs|].
      destruct Hr as [->|[->| ->]]; discriminate.
    - intros f' Hf'. assert (f' = f) as -> by congruence.
      destruct tables_match as [Hm _]. specialize (Hm _ _ Hcases).
      rewrite Forall_forall in Hm. auto. }
  unfold update_after_automation in Hupd.
  destruct (test_result st4); [|discriminate].
  injection Hupd as <- <-. exact H4.
Qed.

Lemma engine_no_skip w st w' :
  engine args t env w = Returned st w' ->
  no_skip (TESTAUTOMATION_RESULTS st).
Proof.
  unfold engine.
  apply (for_each_invariant (fun s => no_skip (TESTAUTOMATION_RESULTS s))).
  - intros tag s w0 s' w0' _. apply compare_tag_no_skip.
  - intros tag d c; discriminate.
Qed.
End AutomationFilter.

(** ** What a printed table consists of *)

Lemma print_rows_returned args results width names : forall w w',
  for_each (print_row args results width) names tt w = Returned tt w' ->
  exists rows,
    stdout w' = (stdout w ++ rows)%list
    /\ Forall2 (fun name line =>
                  exists cells,
                    row_results results (other_tags args) name = Ok cells
                    /\ line = row_text width name cells)
               names rows.
Proof.
  induction names as [|n names IH]; intros w w'; cbn [for_each].
  - intros [= <-]. exists []; rewrite app_nil_r; auto.
  - intros H. apply bind_returned in H as ([] & w1 & H1 & H2).
    unfold print_row in H1.
    apply bind_returned in H1 as (cells & w2 & Hc & Hp).
    apply lift_returned in Hc as [Hc ->]. injection Hp as <-.
    apply IH in H2 as (rows & Hs & Hrows).
    exists (row_text width n cells :: rows). split.
    + rewrite Hs. cbn [write_line stdout]. now rewrite <- app_assoc.
    + constructor; eauto.
Qed.

Lemma print_table_returned args t heading names results w w' :
  print_table args t heading names results w = Returned tt w' ->
  exists lines,
    stdout w' = (stdout w ++ lines)%list /\ is_table args results names lines.
Proof.
  unfold print_table. intros H.
  apply bind_returned in H as (width & w1 & Hw & H).
  apply lift_returned in Hw as [_ ->].
  apply bind_returned in H as ([] & w1 & H1 & H). injection H1 as <-.
  apply bind_returned in H as ([] & w2 & H2 & H). injection H2 as <-.
  apply bind_returned in H as (versions & w3 & Hv & H).
  apply lift_returned in Hv as [_ ->].
  apply bind_returned in H as ([] & w4 & H4 & H). injection H4 as <-.
  apply bind_returned in H as ([] & w5 & H5 & H). injection H5 as <-.
  apply bind_returned in H as ([] & w6 & H6 & H). injection H6 as <-.
  apply print_rows_returned in H as (rows & Hs & Hrows).
  cbn [write_line stdout] in Hs.
  eexists. split.
  - rewrite Hs, <- !app_assoc. cbn [app]. reflexivity.
  - exists width. eexists _, rows. split; [|split; [|exact Hrows]].
    + cbn [app]. change (?a :: ?b :: ?c :: ?d :: ?e :: rows)
        with ([a; b; c; d; e] ++ rows)%list. reflexivity.
    + reflexivity.
Qed.

Lemma testautomation_mode_of_filter args f :
  filter_testautomation args = Some f -> f <> EmptyString ->
  testautomation_mode args = true.
Proof.
  intros Hf Hne. unfold testautomation_mode, truthy. rewrite Hf.
  destruct (String.eqb_spec f EmptyString); [contradiction | reflexivity].
Qed.

(** In automation mode a report that is printed in full begins with the
    automation table, whose rows are the names of [all_automation_cases]. *)
Lemma report_returned args t st w w' :
  testautomation_mode args = true ->
  report args t st w = Returned tt w' ->
  exists lines rest,
    stdout w' = (stdout w ++ lines ++ rest)%list
    /\ is_table args (TESTAUTOMATION_RESULTS st) (all_automation_cases t)
                lines.
Proof.
  intros Hmode H. unfold report in H. rewrite Hmode in H.
  apply bind_returned in H as ([] & w1 & Hauto & Hunit).
  apply print_table_returned in Hauto as (lines & Hs & Htab).
  exists lines.
  destruct (all_test_names t).
  - injection Hunit as <-. exists ["No tests"].
    cbn [write_line stdout]. rewrite Hs, <- app_assoc. auto.
  - apply print_table_returned in Hunit as (rest & Hs' & _).
    exists rest. rewrite Hs', Hs, <- app_assoc. auto.
Qed.

(* ================================================================== *)
(** * Tags above the DUT's version *)

Lemma run_unit_test_records args env tag name cmd st w st' w' :
  run_unit_test args env tag (name, cmd) st w = Returned st' w' ->
  exists r, TEST_RESULTS st' = record_result tag name r (TEST_RESULTS st).
Proof.
  unfold run_unit_test. intros H.
  apply bind_returned in H as (r & w1 & _ & H). injection H as <- <-.
  exists r; reflexivity.
Qed.

Lemma keys_checked_record args t tag name r results :
  in_order args t tag -> keys_checked args t results ->
  keys_checked args t (record_result tag name r results).
Proof.
  intros Htag H tag' d. unfold record_result. rewrite get_set.
  destruct (String.eqb_spec tag' tag) as [->|]; [intros _; exact Htag|apply H].
Qed.

Lemma run_automation_keeps_tests args t env tag st w st' w' :
  run_automation args t env tag st w = Returned st' w' ->
  TEST_RESULTS st' = TEST_RESULTS st.
Proof.
  unfold run_automation. intros H.
  destruct (testautomation_mode args); [|now injection H as <- <-].
  apply bind_returned in H as (tests & w1 & _ & H).
  destruct (Dict.mem "testautomation" tests); [|now injection H as <- <-].
  apply bind_returned in H as (cmd & w2 & _ & H).
  apply bind_returned in H as (cases & w3 & _ & H).
  apply bind_returned in H as (st1 & w4 & Hloop & Hupd).
  assert (H1 : TEST_RESULTS st1 = TEST_RESULTS st).
  { revert Hloop.
    apply (for_each_invariant (fun s => TEST_RESULTS s = TEST_RESULTS st));
      [|reflexivity].
    intros c s w5 s' w5' _ Hs Hrun.
    apply run_automation_case_returned in Hrun as (r & -> & _). exact Hs. }
  unfold update_after_automation in Hupd.
  destruct (test_result st1); [|discriminate].
  injection Hupd as <- <-. exact H1.
Qed.

Lemma compare_tag_keys_checked args t env tag st w st' w' :
  keys_checked args t (TEST_RESULTS st) ->
  compare_tag args t env tag st w = Returned st' w' ->
  keys_checked args t (TEST_RESULTS st').
Proof.
  intros Hinv H. unfold compare_tag in H.
  apply bind_returned in H as (v1 & w1 & Hv1 & H).
  apply lift_returned in Hv1 as [Hv1 ->]. apply lookup_ok in Hv1.
  apply bind_returned in H as (v2 & w2 & Hv2 & H).
  apply lift_returned in Hv2 as [Hv2 ->]. apply lookup_ok in Hv2.
  destruct (version_le v1 v2) eqn:Hle; cbn [negb] in H;
    [|injection H as <- <-; exact Hinv].
  assert (Htag : in_order args t tag) by (exists v1, v2; auto).
  apply bind_returned in H as (st2 & w3 & Hunit & Hauto).
  apply run_automation_keeps_tests in Hauto. cbn [TEST_RESULTS] in Hauto.
  rewrite Hauto. clear Hauto.
  unfold run_unit_tests in Hunit.
  apply bind_returned in Hunit as (tests & w4 & _ & Hunit).
  revert Hunit.
  apply (for_each_invariant (fun s => keys_checked args t (TEST_RESULTS s))).
  - intros [name cmd] s w5 s' w5' _ Hs Hrun.
    apply run_unit_test_records in Hrun as (r & ->).
    now apply keys_checked_record.
  - cbn [TEST_RESULTS]. intros tag' d. rewrite get_set.
    destruct (String.eqb_spec tag' tag) as [->|]; [intros _; exact Htag|].
    apply Hinv.
Qed.

Lemma engine_keys_checked args t env w st w' :
  engine args t env w = Returned st w' ->
  keys_checked args t (TEST_RESULTS st).
Proof.
  unfold engine.
  apply (for_each_invariant (fun s => keys_checked args t (TEST_RESULTS s))).
  - intros tag s w0 s' w0' _. apply compare_tag_keys_checked.
  - intros tag d; discriminate.
Qed.

Lemma map_exc_ok {A B} (f : A -> exc B) l ys x :
  map_exc f l = Ok ys -> In x l -> exists y, f x = Ok y.
Proof.
  revert ys; induction l as [|a l IH]; intros ys; cbn [map_exc]; [intros _ []|].
  destruct (f a) as [y|] eqn:Ea; cbn [exc_bind]; [|discriminate].
  destruct (map_exc f l) as [ys'|]; cbn [exc_bind]; [|discriminate].
  intros _ [<-|Hin]; eauto.
Qed.

(** A table with at least one row has an entry for every column's tag. *)
Lemma is_table_needs_entries args results names lines tag :
  is_table args results names lines -> names <> [] ->
  In tag (other_tags args) ->
  exists d, Dict.get tag results = Some d.
Proof.
  intros (width & heading & rows & _ & _ & Hrows) Hne Hin.
  destruct Hrows as [|n line names' rows' (cells & Hcells & _) _];
    [contradiction|].
  unfold row_results in Hcells.
  destruct (map_exc_ok _ _ _ tag Hcells Hin) as (y & Hy).
  unfold Dict.lookup in Hy.
  destruct (Dict.get tag results) as [d|]; [eauto | discriminate].
Qed.

(** The defect behind C2, in general: when some other tag is above the
    DUT's version and at least one unit test was discovered, the program
    does not return; the report raises (a [KeyError] for the tag that the
    comparison loop skipped) instead of showing that tag's column as n/a. *)
Lemma out_of_order_tag_stops_the_report args fs w t tag v_tag v_dut :
  pipeline args fs = Ok t ->
  In tag (other_tags args) ->
  Dict.get tag (TAG_VERSION t) = Some v_tag ->
  Dict.get (dut_tag args) (TAG_VERSION t) = Some v_dut ->
  version_le v_tag v_dut = false ->
  all_test_names t <> [] ->
  exists e w', main args fs w = Raised e w'.
Proof.
  intros Hp Hin Hv Hd Hle Hnames.
  destruct (main args fs w) as [code w'|e w'|] eqn:Hmain.
  - exfalso. unfold main in Hmain.
    apply bind_returned in Hmain as (t' & w1 & Ht & Hmain).
    apply lift_returned in Ht as [Ht ->].
    assert (t' = t) as -> by congruence.
    apply bind_returned in Hmain as (env & w1 & _ & Hmain).
    apply bind_returned in Hmain as (st & w2 & Heng & Hmain).
    apply bind_returned in Hmain as ([] & w3 & Hrep & _).
    apply engine_keys_checked in Heng.
    unfold report in Hrep.
    apply bind_returned in Hrep as ([] & w4 & _ & Hrep).
    destruct (all_test_names t) as [|n names] eqn:En; [contradiction|].
    apply print_table_returned in Hrep as (lines & _ & Htab).
    destruct (is_table_needs_entries _ _ _ _ tag Htab) as (d & Hd');
      [discriminate | exact Hin|].
    destruct (Heng tag d Hd') as (v1 & v2 & H1 & H2 & H3).
    congruence.
  - eauto.
  - exfalso. exact (main_stops args fs w Hmain).
Qed.

(* ================================================================== *)
(** * Regular expressions: proofs *)

Lemma chars_app a b : chars (a ++ b) = (chars a ++ chars b)%list.
Proof.
  unfold chars. induction a as [|c a IH]; cbn; [reflexivity | now rewrite IH].
Qed.

Lemma text_chars s : text (chars s) = s.
Proof. apply string_of_list_ascii_of_string. Qed.

Lemma strip_prefix_app p s : strip_prefix p (p ++ s) = Some s.
Proof.
  induction p as [|c p IH]; cbn; [reflexivity|]. now rewrite Ascii.eqb_refl.
Qed.

Lemma consumed_app l s : consumed (l ++ s) s = l.
Proof.
  unfold consumed. rewrite length_app.
  replace (List.length l + List.length s - List.length s)%nat
    with (List.length l) by lia.
  rewrite firstn_app, Nat.sub_diag, firstn_all. cbn. apply app_nil_r.
Qed.

(** Rules to follow a match through a pattern, one element at a time: each
    reduces a match of [element $ r] on a text that begins with what the
    element takes to a match of [r] on the rest. *)
Section MatchRules.
Context {R : Type}.
Variables (k : list ascii -> list string -> option R) (x : R).

Lemma star_run cls l s (k' : list ascii -> option R) :
  Forall (fun c => cls c = true) l -> stops_class cls s ->
  k' s = Some x -> star cls (l ++ s) k' = Some x.
Proof.
  intros Hl Hs Hk. induction Hl as [|c l Hc _ IH]; cbn [app].
  - destruct s as [|c s]; cbn in *; [exact Hk | now rewrite Hs].
  - cbn [star]. now rewrite Hc, IH.
Qed.

Lemma match_lit l r s g :
  match_re r s g k = Some x ->
  match_re (Lit l $ r)%re (chars l ++ s) g k = Some x.
Proof. cbn [match_re]. now rewrite strip_prefix_app. Qed.

Lemma match_lit_end l s g :
  k s g = Some x -> match_re (Lit l) (chars l ++ s) g k = Some x.
Proof. cbn [match_re]. now rewrite strip_prefix_app. Qed.

Lemma match_star cls r l s g :
  Forall (fun c => cls c = true) l -> stops_class cls s ->
  match_re r s g k = Some x ->
  match_re (Star cls $ r)%re (l ++ s) g k = Some x.
Proof. intros Hl Hs Hr. cbn [match_re]. now apply star_run. Qed.

Lemma match_plus cls r c l s g :
  Forall (fun c => cls c = true) (c :: l) -> stops_class cls s ->
  match_re r s g k = Some x ->
  match_re (Plus cls $ r)%re (c :: l ++ s) g k = Some x.
Proof.
  intros Hl Hs Hr. inversion Hl as [|? ? Hc Hl']; subst.
  cbn [match_re]. rewrite Hc. now apply star_run.
Qed.

Lemma match_opt_lit l r s g :
  match_re r s g k = Some x ->
  match_re (Opt (Lit l) $ r)%re (chars l ++ s) g k = Some x.
Proof. intros Hr. cbn [match_re]. now rewrite strip_prefix_app, Hr. Qed.

Lemma match_group_plus cls r c l s g :
  Forall (fun c => cls c = true) (c :: l) -> stops_class cls s ->
  match_re r s (g ++ [text (c :: l)])%list k = Some x ->
  match_re (Group (Plus cls) $ r)%re (c :: l ++ s) g k = Some x.
Proof.
  intros Hl Hs Hr. inversion Hl as [|? ? Hc Hl']; subst.
  cbn [match_re]. rewrite Hc. apply star_run; auto.
  change (c :: l ++ s)%list with ((c :: l) ++ s)%list.
  now rewrite consumed_app.
Qed.
End MatchRules.

Lemma finditer_skip r l : forall s,
  finditer_from r (List.length l) (l ++ s) = finditer_from r 0 s.
Proof. induction l as [|c l IH]; intros s; cbn; auto. Qed.

(** A match that uses up the non-empty [m] and leaves [s] makes [finditer]
    yield its groups and go on in [s]. *)
Lemma finditer_match r m s gs :
  m <> [] ->
  match_here r (m ++ s) = Some (s, gs) ->
  finditer_from r 0 (m ++ s) = gs :: finditer_from r 0 s.
Proof.
  destruct m as [|c l]; [contradiction|]. intros _ H.
  cbn [app finditer_from] in *. rewrite H. f_equal.
  rewrite <- (finditer_skip r l s). f_equal.
  cbn [List.length]. rewrite length_app. lia.
Qed.

(* ================================================================== *)
(** * Unit-test discovery *)

Lemma length_chars s : List.length (chars s) = String.length s.
Proof. unfold chars. induction s; cbn; auto. Qed.

Lemma string_length_app a b :
  String.length (a ++ b) = (String.length a + String.length b)%nat.
Proof. induction a; cbn; auto. Qed.

Lemma rfind_app c l l' i :
  rfind c l' = Some i -> rfind c (l ++ l') = Some (List.length l + i)%nat.
Proof.
  intros H. induction l as [|x l IH]; cbn [app rfind List.length]; [exact H|].
  now rewrite IH.
Qed.

(** The stem of [name.test] is [name]. *)
Lemma stem_test name : name <> EmptyString -> stem (name ++ ".test") = name.
Proof.
  intros Hne. unfold stem.
  rewrite chars_app, (rfind_app _ _ _ 0%nat) by reflexivity.
  rewrite Nat.add_0_r, length_chars, string_length_app.
  destruct name as [|c n]; [contradiction|].
  cbn [String.length]. rewrite <- (length_chars n).
  change (S (List.length (chars n))) with (List.length (chars (String c n))).
  rewrite firstn_app, Nat.sub_diag, firstn_all, firstn_O, app_nil_r, text_chars.
  rewrite length_chars. cbn [String.length].
  destruct (Nat.ltb_spec (S (S (String.length n)))
                         (S (String.length n) + 5)); [reflexivity|lia].
Qed.

(* ================================================================== *)
(** * [shlex]: the token loop never runs out of fuel *)

Lemma emit_token_rest token quoted rest state res rest' state' :
  emit_token token quoted rest state = Ok (res, rest', state') ->
  rest' = rest /\ state' = state.
Proof. unfold emit_token. intros [= _ <- <-]. auto. Qed.

(** [read_token] never gives back more input than it was given, and the
    state it leaves is "between tokens" or "end of input". *)
Lemma read_token_rest inp : forall state es token quoted res rest state',
  read_token inp state es token quoted = Ok (res, rest, state') ->
  (List.length rest <= List.length inp)%nat
  /\ (state' = None \/ state' = Some " "%char).
Proof.
  induction inp as [|c inp IH]; intros state es token quoted res rest state';
    cbn [read_token]; destruct state as [st|];
    try (intros H; apply emit_token_rest in H as [-> ->]; now auto).
  - repeat match goal with
           | |- context [if ?b then _ else _] => destruct b
           end;
      try discriminate;
      intros H; apply emit_token_rest in H as [-> ->]; auto.
  - destruct (Ascii.eqb_spec st " ") as [->|Hne];
      repeat match goal with
             | |- context [if ?b then _ else _] => destruct b
             end;
      intros H;
      first [ apply emit_token_rest in H as [-> ->]; cbn; now auto
            | apply IH in H as [Hl Hs]; cbn [List.length]; split; [lia|];
              exact Hs ].
Qed.

(** A call between tokens that yields a token has read a character. *)
Lemma read_token_progress inp tok rest state' :
  read_token inp (Some " "%char) " " EmptyString false
  = Ok (Some tok, rest, state') ->
  (List.length rest < List.length inp)%nat.
Proof.
  destruct inp as [|c inp]; cbn [read_token].
  - cbn. discriminate.
  - change (Ascii.eqb " " " ") with true. cbn match.
    repeat match goal with
           | |- context [if ?b then _ else _] => destruct b
           end;
      intros H;
      first [ discriminate H
            | apply emit_token_rest in H as [-> _]; cbn; lia
            | apply read_token_rest in H as [Hl _]; cbn [List.length]; lia ].
Qed.

(** [read_token] itself never reports a lack of fuel. *)
Lemma read_token_no_fuel_error inp : forall state es token quoted,
  read_token inp state es token quoted <> Raise (Unmodelled "shlex_tokens").
Proof.
  induction inp as [|c inp IH]; intros state es token quoted;
    cbn [read_token]; destruct state as [st|];
    unfold emit_token;
    repeat match goal with
           | |- context [if ?b then _ else _] => destruct b
           end;
    first [ discriminate | apply IH ].
Qed.

Lemma shlex_tokens_fuel fuel : forall inp state,
  (List.length inp < fuel)%nat ->
  state = None \/ state = Some " "%char ->
  shlex_tokens fuel inp state <> Raise (Unmodelled "shlex_tokens").
Proof.
  induction fuel as [|fuel IH]; intros inp state Hlen Hstate; [lia|].
  cbn [shlex_tokens].
  destruct (read_token inp state " " EmptyString false)
    as [[[[tok|] rest] state']|e] eqn:E; try discriminate.
  - assert (Hrest : (List.length rest < fuel)%nat
                    /\ (state' = None \/ state' = Some " "%char)).
    { destruct Hstate as [->| ->].
      - cbn in E. destruct inp; discriminate E.
      - pose proof (read_token_progress _ _ _ _ E).
        apply read_token_rest in E as [_ Hs]. split; [lia | exact Hs]. }
    destruct Hrest as [Hr Hs]. specialize (IH rest state' Hr Hs).
    destruct (shlex_tokens fuel rest state'); [discriminate|congruence].
  - intros [= ->]. exact (read_token_no_fuel_error _ _ _ _ _ E).
Qed.

(** [shlex_split] is total: it returns the words or raises [ValueError]. *)
Lemma shlex_split_total s :
  shlex_split s <> Raise (Unmodelled "shlex_tokens").
Proof.
  unfold shlex_split. apply shlex_tokens_fuel; [|auto].
  rewrite length_chars. lia.
Qed.

(* ================================================================== *)
(** * Concrete runs on the small installation *)


(** C1, at the failing input.  With [--filter-tests alpha] the test
    [alpha] of [v1] runs and succeeds and the test [testautomation] is
    skipped: one process is started, the report shows SUCCESS for the one
    and SKIP for the other, no line of the output mentions FAILED or
    TIMEOUT, yet the SKIP result has cleared the flag and the exit code is
    1.  The automation filter, the sibling of this filter, leaves the flag
    alone: with [--filter-testautomation foo] in automation mode, every
    process succeeds as well and the exit code is 0. *)
Theorem skip_result_clears_the_flag :
  update_success true SKIP = false
  /\ fold_left update_success [SUCCESS; SKIP] true = false
  /\ match main (Scenario.args ["v1"] "v2" (Some "alpha") None false)
                Scenario.fs (Scenario.world Scenario.all_pass) with
     | Returned code w' =>
         code = 1
         /\ started_count w' = 1%nat
         /\ In "alpha         |  SUCCESS   " (stdout w')
         /\ In "testautomation|    SKIP    " (stdout w')
         /\ existsb (fun line => contains "FAILED" line
                                 || contains "TIMEOUT" line) (stdout w')
            = false
     | _ => False
     end
  /\ exit_status (main (Scenario.args ["v1"] "v2" None (Some "foo") true)
                       Scenario.fs (Scenario.world Scenario.all_pass))
     = Some 0.
Proof. lazy. intuition. Qed.

(** C2, at the failing input.  Other tags [v2] (1.1.0) and [v1] (1.0.0)
    against the DUT [v1]: [v2] is above the DUT and is passed over, the
    two tests of [v1] are run, and then the report raises [KeyError] for
    [v2] at its first row, after the title lines; no row is printed and no
    exit code is returned. *)
Theorem version_violation_breaks_report :
  match main (Scenario.args ["v2"; "v1"] "v1" None None false)
             Scenario.fs (Scenario.world Scenario.all_pass) with
  | Raised (KeyError "v2") w' =>
      started_count w' = 2%nat
      /\ stdout w'
         = [EmptyString; "Test results:";
            "              |     v2     |     v1     ";
            "              |   1.1.0    |   1.0.0    ";
            "----------------------------------------"]
  | _ => False
  end.
Proof. lazy. split; reflexivity. Qed.

(** C3, at the failing input.  [MAX_TEST_TIME] is 60000 and the runner
    adds it to a clock reading in seconds: the deadline is 60000 seconds
    after the start, a thousand times 60 seconds.  A test that needs 61
    seconds and exits with status 0 is reported as SUCCESS and the program
    exits with 0, where a timeout of 60 seconds makes the runner report
    TIMEOUT. *)
Theorem slow_test_is_not_timed_out :
  secs MAX_TEST_TIME = 1000 * secs 60
  /\ exit_status (main (Scenario.args ["v1"] "v2" None None false)
                       Scenario.fs (Scenario.world Scenario.slow_start))
     = Some 0
  /\ printed (main (Scenario.args ["v1"] "v2" None None false)
                   Scenario.fs (Scenario.world Scenario.slow_start))
     = Some [EmptyString; "Test results:";
             "              |     v1     ";
             "              |   1.0.0    ";
             "---------------------------";
             "alpha         |  SUCCESS   ";
             "testautomation|  SUCCESS   ";
             "beta          |    n/a     "]
  /\ match run_process_with_timeout ["/p/alpha"; "--x"] 60 []
                                    (Scenario.world Scenario.slow_start) with
     | Returned r _ => r = TIMEOUT
     | _ => False
     end.
Proof. lazy. repeat split. Qed.

(** C10, the claim as worded, refuted.  With
    [--filter-testautomation foo] the sources of [v1] declare the cases
    [foo_1] and [bar_2]; the report has a row for [foo_1] and no line that
    mentions [bar_2], neither as n/a nor otherwise. *)
Lemma filtered_case_has_no_row :
  get_automation_cases Scenario.fs "w/v1" = Ok ["foo_1"; "bar_2"]
  /\ printed (main (Scenario.args ["v1"] "v2" None (Some "foo") false)
                   Scenario.fs (Scenario.world Scenario.all_pass))
     = Some [EmptyString; "Testautomation results:";
             "     |     v1     ";
             "     |   1.0.0    ";
             "------------------";
             "foo_1|  SUCCESS   ";
             EmptyString; "Test results:";
             "              |     v1     ";
             "              |   1.0.0    ";
             "---------------------------";
             "alpha         |  SUCCESS   ";
             "testautomation|  SUCCESS   ";
             "beta          |    n/a     "]
  /\ option_map (existsb (contains "bar_2"))
       (printed (main (Scenario.args ["v1"] "v2" None (Some "foo") false)
                      Scenario.fs (Scenario.world Scenario.all_pass)))
     = Some false.
Proof. lazy. repeat split. Qed.

(* ================================================================== *)
(** * Instances of the general statements *)


(** When the first case, [foo_1], fails and the last, [bar_2], succeeds,
    the flag stays true; when [foo_1] succeeds and [bar_2] fails, the flag
    becomes false. *)
Lemma automation_flag_reads_last_case_witness :
  (exists st' w',
      run_automation (Scenario.args ["v1"] "v2" None None true)
        Scenario.automation_tables [] "v1" engine_start
        (Scenario.world Scenario.first_fails)
      = Returned st' w'
      /\ Dict.get "foo_1"
                  (Dict.get_default "v1" [] (TESTAUTOMATION_RESULTS st'))
         = Some FAILED
      /\ success st' = true)
  /\ (exists st' w',
        run_automation (Scenario.args ["v1"] "v2" None None true)
          Scenario.automation_tables [] "v1" engine_start
          (Scenario.world (fun n => if Nat.eqb n 1 then Exits 15 3
                                    else Exits 15 0))
        = Returned st' w'
        /\ Dict.get "foo_1"
                    (Dict.get_default "v1" [] (TESTAUTOMATION_RESULTS st'))
           = Some SUCCESS
        /\ Dict.get "bar_2"
                    (Dict.get_default "v1" [] (TESTAUTOMATION_RESULTS st'))
           = Some FAILED
        /\ success st' = false).
Proof.
  split.
  - destruct (run_automation (Scenario.args ["v1"] "v2" None None true)
                Scenario.automation_tables [] "v1" engine_start
                (Scenario.world Scenario.first_fails))
      as [st' w'|e w'|] eqn:H;
      [|lazy in H; discriminate H|lazy in H; discriminate H].
    exists st', w'. split; [reflexivity|].
    destruct (automation_flag_reads_last_case
                (Scenario.args ["v1"] "v2" None None true)
                Scenario.automation_tables [] "v1"
                [("testautomation", ["/p/testautomation"])]
                ["/p/testautomation"] ["foo_1"; "bar_2"]
                engine_start (Scenario.world Scenario.first_fails) st' w'
                eq_refl eq_refl eq_refl eq_refl H) as [Hlast _].
    destruct (Hlast ["foo_1"] "bar_2" eq_refl) as (r & Hr & _ & Hflag).
    rewrite Hflag. lazy in H. injection H as <- <-.
    split; [reflexivity|]. injection Hr as <-. reflexivity.
  - destruct (run_automation (Scenario.args ["v1"] "v2" None None true)
                Scenario.automation_tables [] "v1" engine_start
                (Scenario.world (fun n => if Nat.eqb n 1 then Exits 15 3
                                          else Exits 15 0)))
      as [st' w'|e w'|] eqn:H;
      [|lazy in H; discriminate H|lazy in H; discriminate H].
    exists st', w'. split; [reflexivity|].
    destruct (automation_flag_reads_last_case
                (Scenario.args ["v1"] "v2" None None true)
                Scenario.automation_tables [] "v1"
                [("testautomation", ["/p/testautomation"])]
                ["/p/testautomation"] ["foo_1"; "bar_2"]
                engine_start
                (Scenario.world (fun n => if Nat.eqb n 1 then Exits 15 3
                                          else Exits 15 0)) st' w'
                eq_refl eq_refl eq_refl eq_refl H) as [Hlast _].
    destruct (Hlast ["foo_1"] "bar_2" eq_refl) as (r & Hr & _ & Hflag).
    rewrite Hflag. lazy in H. injection H as <- <-.
    split; [reflexivity|]. split; [reflexivity|].
    injection Hr as <-. reflexivity.
Defined.

Lemma filtered_unit_tests_are_skipped_witness :
  exists st',
    run_unit_test (Scenario.args ["v1"] "v2" (Some "alpha") None false) []
      "v1" ("testautomation", ["/p/testautomation"]) engine_start
      (Scenario.world Scenario.all_pass)
    = Returned st' (Scenario.world Scenario.all_pass)
    /\ test_result st' = Some SKIP.
Proof.
  destruct (proj1 (filtered_unit_tests_are_skipped
                     (Scenario.args ["v1"] "v2" (Some "alpha") None false)
                     [] "v1" "alpha" eq_refl ltac:(discriminate))
              "testautomation" ["/p/testautomation"] engine_start
              (Scenario.world Scenario.all_pass) eq_refl)
    as (st' & Hrun & Hres & _).
  exists st'. split; assumption.
Defined.

(** In automation mode, [v1] against the DUT [v2]: four processes are
    started, the tests [alpha] and [testautomation] and the cases [foo_1]
    and [bar_2], each of them with the [lib] and [bin] directories of
    [w/v2/prefix] and with the HOME of the script, whose own environment is
    as before. *)
Lemma tests_run_in_dut_environment_witness :
  exists w',
    final_world (main (Scenario.args ["v1"] "v2" None None true) Scenario.fs
                      (Scenario.world Scenario.all_pass)) = Some w'
    /\ environ w' = [("HOME", "/home/sdl"); ("PATH", "/usr/bin")]
    /\ flat_map (fun e => match e with
                          | Started c => [child_cmd c]
                          | _ => []
                          end) (events w')
       = [["/p/alpha"; "--x"]; ["/p/testautomation"];
          ["/p/testautomation"; "--filter"; "foo_1"];
          ["/p/testautomation"; "--filter"; "bar_2"]]
    /\ forall c, In (Started c) (events w') ->
         Dict.get "LD_LIBRARY_PATH" (child_env c) = Some "w/v2/prefix/lib"
         /\ Dict.get "DYLD_LIBRARY_PATH" (child_env c) = Some "w/v2/prefix/lib"
         /\ Dict.get "PATH" (child_env c) = Some "w/v2/prefix/bin:/usr/bin"
         /\ Dict.get "HOME" (child_env c) = Some "/home/sdl".
Proof.
  destruct (final_world (main (Scenario.args ["v1"] "v2" None None true)
                              Scenario.fs (Scenario.world Scenario.all_pass)))
    as [w'|] eqn:H; [|lazy in H; discriminate H].
  exists w'. split; [reflexivity|].
  destruct (tests_run_in_dut_environment _ _ _ _ H) as (Henv & evs & Hev & Hall).
  split; [exact Henv|].
  split; [revert H; lazy; intros [= <-]; reflexivity|].
  intros c Hc. rewrite Hev in Hc.
  destruct (Hall c Hc) as (Hld & Hdyld & (path & Hpath & Hbin) & Hrest).
  split; [exact Hld|]. split; [exact Hdyld|]. split.
  - rewrite Hbin. injection Hpath as <-. reflexivity.
  - rewrite Hrest by discriminate. reflexivity.
Defined.

(* ================================================================== *)
(** * Triples: rules *)

Section Triples.
Variable W : World -> Prop.
Hypothesis W_programs : about_programs W.

Lemma triple_ret {A} (a : A) (P : A -> Prop) Q : P a -> triple W (ret a) P Q.
Proof. intros H w Hw; cbn; auto. Qed.

Lemma triple_raise {A} e (P : A -> Prop) (Q : Exn -> Prop) :
  Q e -> triple W (raise e) P Q.
Proof. intros H w Hw; cbn; auto. Qed.

Lemma triple_lift {A} (m : exc A) (P : A -> Prop) (Q : Exn -> Prop) :
  match m with Ok a => P a | Raise e => Q e end -> triple W (lift m) P Q.
Proof. intros H w Hw; destruct m; cbn; auto. Qed.

Lemma triple_print line (P : unit -> Prop) Q :
  P tt -> triple W (print line) P Q.
Proof.
  intros H w Hw; cbn. split; [|exact H].
  apply (W_programs w); [reflexivity | exact Hw].
Qed.

Lemma triple_bind {A B} (m : M A) (k : A -> M B) P P' Q :
  triple W m P Q -> (forall a, P a -> triple W (k a) P' Q) ->
  triple W (bind m k) P' Q.
Proof.
  intros Hm Hk w Hw. unfold bind. specialize (Hm w Hw).
  destruct (m w) as [a w1|e w1|]; [|exact Hm|exact Hm].
  destruct Hm as [Hw1 Ha]. exact (Hk a Ha w1 Hw1).
Qed.

Lemma triple_weaken {A} (m : M A) (P P' : A -> Prop) (Q Q' : Exn -> Prop) :
  triple W m P Q -> (forall a, P a -> P' a) -> (forall e, Q e -> Q' e) ->
  triple W m P' Q'.
Proof.
  intros Hm HP HQ w Hw. specialize (Hm w Hw).
  destruct (m w); intuition.
Qed.

Lemma triple_for_each {X S} (I : S -> Prop) (body : X -> S -> M S) Q xs :
  (forall x s, In x xs -> I s -> triple W (body x s) I Q) ->
  forall s, I s -> triple W (for_each body xs s) I Q.
Proof.
  induction xs as [|x xs IH]; intros Hb s Hs; cbn [for_each].
  - now apply triple_ret.
  - eapply triple_bind.
    + apply Hb; [left; reflexivity | exact Hs].
    + intros s1 Hs1. apply IH; [|exact Hs1].
      intros; apply Hb; auto using in_cons.
Qed.

(** The runner, as a triple: it reports SUCCESS, FAILED or TIMEOUT, or
    raises because the process cannot be started. *)
Lemma triple_run cmd timeout env :
  triple W (run_process_with_timeout cmd timeout env)
         (fun r => r = SUCCESS \/ r = FAILED \/ r = TIMEOUT)
         is_start_failure.
Proof.
  intros w Hw.
  destruct (can_be_started_dec cmd env w) as [E|E].
  2:{ rewrite run_process_with_timeout_cannot_start by exact E.
      split; [|apply start_error_is_start_failure].
      apply (W_programs w); [reflexivity|exact Hw]. }
  destruct (run_process_with_timeout_spec cmd timeout env w E)
    as (w2 & _ & _ & Hos & _ & _ & _ & _ & ->).
  assert (Hw2 : W w2) by (apply (W_programs w); assumption).
  assert (Hk : W (kill (launched cmd env w) w2))
    by (apply (W_programs w2); [reflexivity | exact Hw2]).
  destruct (poll _ w2) as [rc|]; [destruct (rc =? 0)|]; auto.
Qed.

(** Where the system starts every command, the runner does not raise on a
    command that [Popen] accepts. *)
Lemma triple_run_starts cmd timeout env :
  malformed cmd = false ->
  (forall w, W w -> programs_start w) ->
  triple W (run_process_with_timeout cmd timeout env)
         (fun r => r = SUCCESS \/ r = FAILED \/ r = TIMEOUT)
         (fun _ => False).
Proof.
  intros Hform Hstart w Hw.
  pose proof (triple_run cmd timeout env w Hw) as H.
  assert (E : can_be_started cmd env w)
    by (split; [exact Hform | apply (Hstart w Hw)]).
  destruct (run_process_with_timeout_spec cmd timeout env w E)
    as (w2 & _ & _ & _ & _ & _ & _ & _ & Hrun).
  rewrite Hrun in *.
  destruct (poll _ w2) as [rc|]; [destruct (rc =? 0)|]; exact H.
Qed.
End Triples.

(* ================================================================== *)
(** * Tag Pipeline: what a successful run leaves in the tables *)

(** A turn of the pipeline that succeeds, spelled out. *)
Lemma pipeline_step_ok args fs tag t t' :
  pipeline_step args fs tag t = Ok t' ->
  exists version_h major minor micro tag_tests found,
    read_text fs (cwd args // tag // "include/SDL3/SDL_version.h")
    = Some version_h
    /\ parse_constant "SDL_MAJOR_VERSION" version_h = Ok major
    /\ parse_constant "SDL_MINOR_VERSION" version_h = Ok minor
    /\ parse_constant "SDL_MICRO_VERSION" version_h = Ok micro
    /\ get_unit_tests fs (cwd args // tag // "prefix") = Ok tag_tests
    /\ get_automation_cases fs (cwd args // tag) = Ok found
    /\ t' = {| TAG_SRC := Dict.set tag (cwd args // tag) (TAG_SRC t);
               TAG_BLD := Dict.set tag (cwd args // tag) (TAG_BLD t);
               TAG_PREF :=
                 Dict.set tag (cwd args // tag // "prefix") (TAG_PREF t);
               TAG_VERSION :=
                 Dict.set tag (major, minor, micro) (TAG_VERSION t);
               TAG_TESTS := Dict.set tag tag_tests (TAG_TESTS t);
               TAG_AUTOMATION_CASES :=
                 Dict.set tag (filter_cases (filter_testautomation args) found)
                          (TAG_AUTOMATION_CASES t);
               all_test_names :=
                 set_update (all_test_names t) (Dict.keys tag_tests);
               all_automation_cases :=
                 set_update (all_automation_cases t)
                   (filter_cases (filter_testautomation args) found) |}.
Proof.
  unfold pipeline_step.
  destruct (read_text fs _) as [version_h|] eqn:E0; cbn [exc_bind];
    [|discriminate].
  destruct (parse_constant "SDL_MAJOR_VERSION" version_h) as [major|] eqn:E1;
    cbn [exc_bind]; [|discriminate].
  destruct (parse_constant "SDL_MINOR_VERSION" version_h) as [minor|] eqn:E2;
    cbn [exc_bind]; [|discriminate].
  destruct (parse_constant "SDL_MICRO_VERSION" version_h) as [micro|] eqn:E3;
    cbn [exc_bind]; [|discriminate].
  destruct (get_unit_tests fs _) as [tag_tests|] eqn:E4; cbn [exc_bind];
    [|discriminate].
  destruct (get_automation_cases fs _) as [found|] eqn:E5; cbn [exc_bind];
    [|discriminate].
  intros [= <-]. exists version_h, major, minor, micro, tag_tests, found.
  repeat split; assumption.
Qed.

Lemma pipeline_loop_cons args fs tag tags t t' :
  pipeline_loop args fs (tag :: tags) t = Ok t' ->
  exists t1, pipeline_step args fs tag t = Ok t1
             /\ pipeline_loop args fs tags t1 = Ok t'.
Proof.
  cbn [pipeline_loop]. destruct (pipeline_step args fs tag t) as [t1|];
    cbn [exc_bind]; [eauto | discriminate].
Qed.

Lemma has_entries_step args fs tag t t' :
  pipeline_step args fs tag t = Ok t' ->
  has_entries args t' tag
  /\ forall other, has_entries args t other -> has_entries args t' other.
Proof.
  intros H. apply pipeline_step_ok in H
    as (h & major & minor & micro & tests & found & _ & _ & _ & _ & _ & _ & ->).
  split.
  - unfold has_entries; cbn. rewrite !get_set_same. eauto 10.
  - intros other (Hp & (v & Hv) & (ts & Ht) & (cs & Hc)).
    unfold has_entries; cbn. rewrite !get_set.
    destruct (String.eqb_spec other tag) as [->|]; eauto 10.
Qed.

Lemma has_entries_loop args fs tags : forall t t',
  pipeline_loop args fs tags t = Ok t' ->
  (forall tag, In tag tags -> has_entries args t' tag)
  /\ (forall tag, has_entries args t tag -> has_entries args t' tag).
Proof.
  induction tags as [|tag tags IH]; intros t t' H.
  - injection H as <-. split; [intros ? []|auto].
  - apply pipeline_loop_cons in H as (t1 & Hstep & Hloop).
    apply has_entries_step in Hstep as [Hnew Hold].
    apply IH in Hloop as [Hin Hkeep]. split.
    + intros x [<-|Hx]; auto.
    + auto.
Qed.

(** X1. After a pipeline that succeeds, every tag on the command line, the
    DUT included, has its install prefix (working directory, tag,
    [prefix]), a version, its unit tests and its automation cases in the
    tables: no later look-up of a tag in these tables can miss. *)
Theorem pipeline_fills_tables args fs t :
  pipeline args fs = Ok t ->
  forall tag, In tag (other_tags args ++ [dut_tag args]) ->
              has_entries args t tag.
Proof.
  unfold pipeline. intros H. now apply has_entries_loop in H as [Hin _].
Qed.

(* ================================================================== *)
(** * Sets of names *)

Lemma existsb_eqb_in x (s : list string) :
  existsb (String.eqb x) s = true <-> In x s.
Proof.
  rewrite existsb_exists. split.
  - intros (y & Hy & E). apply String.eqb_eq in E. now subst.
  - intros H. exists x. split; [exact H | apply String.eqb_refl].
Qed.

Lemma set_add_spec x s y : In y (set_add x s) <-> In y s \/ y = x.
Proof.
  unfold set_add. destruct (existsb (String.eqb x) s) eqn:E.
  - apply existsb_eqb_in in E. split; [auto | intros [H| ->]; auto].
  - rewrite in_app_iff. cbn. intuition.
Qed.

Lemma set_add_nodup x s : NoDup s -> NoDup (set_add x s).
Proof.
  intros H. unfold set_add. destruct (existsb (String.eqb x) s) eqn:E; [exact H|].
  assert (Hx : ~ In x s).
  { intros Hin. apply existsb_eqb_in in Hin. congruence. }
  clear E. induction H as [|a s Ha Hs IH]; cbn.
  - constructor; [intros []|constructor].
  - constructor.
    + rewrite in_app_iff. cbn. intros [H|[H|[]]]; [auto|].
      subst. apply Hx. now left.
    + apply IH. intros Hin. apply Hx. now right.
Qed.

Lemma set_update_spec xs : forall s y,
  In y (set_update s xs) <-> In y s \/ In y xs.
Proof.
  unfold set_update.
  induction xs as [|x xs IH]; intros s y; cbn [fold_left In].
  - intuition.
  - rewrite IH, set_add_spec. intuition.
Qed.

Lemma set_update_nodup xs : forall s, NoDup s -> NoDup (set_update s xs).
Proof.
  unfold set_update.
  induction xs as [|x xs IH]; intros s H; cbn [fold_left]; [exact H|].
  apply IH. now apply set_add_nodup.
Qed.

Lemma names_cover_step args fs tag t t' :
  names_cover t -> pipeline_step args fs tag t = Ok t' -> names_cover t'.
Proof.
  intros (N1 & N2 & C1 & C2) H. apply pipeline_step_ok in H
    as (h & major & minor & micro & tests & found & _ & _ & _ & _ & _ & _ & ->).
  unfold names_cover; cbn. repeat split.
  - now apply set_update_nodup.
  - now apply set_update_nodup.
  - intros tag' tests' name. rewrite get_set, set_update_spec.
    destruct (String.eqb tag' tag); [intros [= <-]; auto|].
    intros Hg Hn. left. eapply C1; eauto.
  - intros tag' cases' name. rewrite get_set, set_update_spec.
    destruct (String.eqb tag' tag); [intros [= <-]; auto|].
    intros Hg Hn. left. eapply C2; eauto.
Qed.

(** X2. After a pipeline that succeeds, the set of all test names and the
    set of all automation cases hold no name twice, and hold every test
    and every (kept) automation case recorded for any tag: each name that
    was discovered gets a row in its table, and only one. *)
Theorem pipeline_names_cover args fs t :
  pipeline args fs = Ok t -> names_cover t.
Proof.
  unfold pipeline.
  assert (H0 : names_cover no_tables).
  { repeat split; try constructor; intros ? ? ?; discriminate. }
  revert H0. generalize no_tables.
  induction (other_tags args ++ [dut_tag args])%list as [|tag tags IH];
    intros t0 H0 H.
  - now injection H as <-.
  - apply pipeline_loop_cons in H as (t1 & Hstep & Hloop).
    eapply IH; [|exact Hloop]. eapply names_cover_step; eauto.
Qed.

(* ================================================================== *)
(** * The automation filter, from discovery to the report *)

Lemma filter_cases_filter f found :
  f <> EmptyString ->
  filter_cases (Some f) found = List.filter (contains f) found.
Proof.
  intros Hne. unfold filter_cases, truthy.
  destruct (String.eqb_spec f EmptyString); [contradiction | reflexivity].
Qed.

Section FilteredDiscovery.
Variables (args : Args) (fs : FileSystem) (f : string).
Hypothesis filter_set : filter_testautomation args = Some f.
Hypothesis filter_not_empty : f <> EmptyString.

Lemma filtered_step done tag t t' :
  filtered args fs f done t -> pipeline_step args fs tag t = Ok t' ->
  filtered args fs f (done ++ [tag]) t'.
Proof.
  intros (Hdone & Hkeys & Hnodup & Hall) H.
  apply pipeline_step_ok in H
    as (h & major & minor & micro & tests & found
        & _ & _ & _ & _ & _ & Hfound & ->).
  rewrite filter_set, filter_cases_filter by exact filter_not_empty.
  set (kept := List.filter (contains f) found).
  assert (Hold : forall cases,
             Dict.get tag (TAG_AUTOMATION_CASES t) = Some cases ->
             cases = kept).
  { intros cases Hget.
    destruct (Hdone tag) as (found' & Hfound' & Hget').
    - apply Hkeys. rewrite Hget. discriminate.
    - rewrite Hfound in Hfound'. injection Hfound' as <-.
      rewrite Hget in Hget'. now injection Hget' as ->. }
  unfold filtered. cbn [TAG_AUTOMATION_CASES all_automation_cases].
  split; [|split; [|split]].
  - intros tag' Hin. rewrite get_set.
    destruct (String.eqb_spec tag' tag) as [->|Hne]; [now exists found|].
    apply Hdone. apply in_app_or in Hin as [Hin|[<-|[]]];
      [exact Hin | contradiction].
  - intros tag'. rewrite get_set, in_app_iff.
    destruct (String.eqb_spec tag' tag) as [->|Hne]; [cbn; auto|].
    intros Hget. left. now apply Hkeys.
  - now apply set_update_nodup.
  - intros name. rewrite set_update_spec, Hall. split.
    + intros [(tag' & cases & Hget & Hin)|Hin].
      * destruct (String.eqb_spec tag' tag) as [->|Hne].
        -- exists tag, kept. rewrite get_set_same.
           rewrite (Hold cases Hget) in Hin. auto.
        -- exists tag', cases. rewrite get_set_other by exact Hne. auto.
      * exists tag, kept. rewrite get_set_same. auto.
    + intros (tag' & cases & Hget & Hin). rewrite get_set in Hget.
      destruct (String.eqb_spec tag' tag) as [->|Hne].
      * injection Hget as <-. now right.
      * left. now exists tag', cases.
Qed.

Lemma filtered_loop tags : forall done t t',
  filtered args fs f done t -> pipeline_loop args fs tags t = Ok t' ->
  filtered args fs f (done ++ tags) t'.
Proof.
  induction tags as [|tag tags IH]; intros done t t' Hinv H.
  - injection H as <-. now rewrite app_nil_r.
  - apply pipeline_loop_cons in H as (t1 & Hstep & Hloop).
    change (tag :: tags) with ([tag] ++ tags)%list. rewrite app_assoc.
    apply (IH _ t1); [|exact Hloop].
    eapply filtered_step; eassumption.
Qed.

Lemma filtered_pipeline t :
  pipeline args fs = Ok t ->
  (forall tag, In tag (other_tags args ++ [dut_tag args]) ->
     exists found,
       get_automation_cases fs (cwd args // tag) = Ok found
       /\ Dict.get tag (TAG_AUTOMATION_CASES t)
          = Some (List.filter (contains f) found))
  /\ NoDup (all_automation_cases t)
  /\ (forall name,
         In name (all_automation_cases t)
         <-> contains f name = true
             /\ exists tag found,
                  In tag (other_tags args ++ [dut_tag args])
                  /\ get_automation_cases fs (cwd args // tag) = Ok found
                  /\ In name found).
Proof.
  unfold pipeline. intros H.
  apply (filtered_loop _ [] no_tables) in H.
  - cbn [app] in H. destruct H as (Hdone & Hkeys & Hnodup & Hall).
    split; [exact Hdone|]. split; [exact Hnodup|].
    intros name. rewrite Hall. split.
    + intros (tag & cases & Hget & Hin).
      assert (Htag : In tag (other_tags args ++ [dut_tag args]))
        by (apply Hkeys; rewrite Hget; discriminate).
      destruct (Hdone tag Htag) as (found & Hfound & Hget').
      rewrite Hget in Hget'. injection Hget' as ->.
      apply filter_In in Hin as [Hin Hc]. split; [exact Hc|].
      now exists tag, found.
    + intros (Hc & tag & found & Hin & Hfound & Hname).
      destruct (Hdone tag Hin) as (found' & Hfound' & Hget).
      rewrite Hfound in Hfound'. injection Hfound' as <-.
      exists tag, (List.filter (contains f) found).
      split; [exact Hget|]. now apply filter_In.
  - split; [intros tag []|]. split; [intros tag Hget; now contradiction Hget|].
    split; [constructor|].
    intros name. split; [intros [] | intros (tag & cases & Hget & _)].
    discriminate Hget.
Qed.
End FilteredDiscovery.

(** C10 (as the code has it). The automation filter works at discovery.
    With an automation filter configured, after the pipeline the cases kept
    for a tag are the cases found in the tag's sources that contain the
    filter, and the set of all automation cases holds, once each, the names
    that contain the filter and were found for some tag; the engine never
    records SKIP for an automation case; and a report printed in full
    begins with the automation table, which has one row per name of that
    set and no other row, so a case that the filter removed has no row at
    all (it is not shown as n/a). *)
Theorem automation_filter_applies_at_discovery args fs f t :
  filter_testautomation args = Some f -> f <> EmptyString ->
  pipeline args fs = Ok t ->
  (forall tag, In tag (other_tags args ++ [dut_tag args]) ->
     exists found,
       get_automation_cases fs (cwd args // tag) = Ok found
       /\ Dict.get tag (TAG_AUTOMATION_CASES t)
          = Some (List.filter (contains f) found))
  /\ NoDup (all_automation_cases t)
  /\ (forall name,
         In name (all_automation_cases t)
         <-> contains f name = true
             /\ exists tag found,
                  In tag (other_tags args ++ [dut_tag args])
                  /\ get_automation_cases fs (cwd args // tag) = Ok found
                  /\ In name found)
  /\ (forall env w st w',
        engine args t env w = Returned st w' ->
        no_skip (TESTAUTOMATION_RESULTS st)
        /\ forall w1 w2,
             report args t st w1 = Returned tt w2 ->
             exists lines rest,
               stdout w2 = (stdout w1 ++ lines ++ rest)%list
               /\ is_table args (TESTAUTOMATION_RESULTS st)
                           (all_automation_cases t) lines).
Proof.
  intros Hf Hne Hp.
  destruct (filtered_pipeline args fs f Hf Hne t Hp) as (Htags & Hnodup & Hall).
  split; [exact Htags|]. split; [exact Hnodup|]. split; [exact Hall|].
  assert (Hm : cases_match f t).
  { unfold pipeline in Hp. eapply pipeline_loop_cases_match; eauto.
    split; [intros tag cases; discriminate | constructor]. }
  intros env w st w' He. split.
  - eapply engine_no_skip; eauto.
  - intros w1 w2. apply report_returned.
    now apply testautomation_mode_of_filter with (f := f).
Qed.

(* ================================================================== *)
(** * Comparison Engine: which exceptions it can raise *)

Lemma triple_and_returned {A} W (m : M A) (P P' : A -> Prop) Q :
  triple W m P Q ->
  (forall w a w', m w = Returned a w' -> P' a) ->
  triple W m (fun a => P a /\ P' a) Q.
Proof.
  intros Hm Hr w Hw. specialize (Hm w Hw). specialize (Hr w).
  destruct (m w) as [a w'| |]; [|exact Hm|exact Hm].
  destruct Hm; repeat split; eauto.
Qed.

Lemma mem_items_nonempty {V} k (d : Dict.t V) :
  Dict.mem k d = true -> Dict.items d <> [].
Proof. destruct d; [discriminate | discriminate]. Qed.

Section EngineTriple.
Variables (W : World -> Prop) (Q : Exn -> Prop).
Hypothesis W_programs : about_programs W.

(** [C] holds of the commands that the loop hands to the runner. *)
Variable C : list string -> Prop.
Hypothesis runner :
  forall cmd env,
    C cmd ->
    triple W (run_process_with_timeout cmd MAX_TEST_TIME env)
           (fun r => r = SUCCESS \/ r = FAILED \/ r = TIMEOUT) Q.

Variables (args : Args) (t : Tables) (env : Env).
Hypothesis entries :
  forall tag, In tag (other_tags args ++ [dut_tag args]) ->
              has_entries args t tag.
Hypothesis test_commands :
  forall tag tests name cmd,
    In tag (other_tags args) ->
    Dict.get tag (TAG_TESTS t) = Some tests ->
    In (name, cmd) (Dict.items tests) -> C cmd.
Hypothesis automation_commands :
  forall tag tests cmd cases c,
    In tag (other_tags args) ->
    Dict.get tag (TAG_TESTS t) = Some tests ->
    Dict.get "testautomation" tests = Some cmd ->
    Dict.get tag (TAG_AUTOMATION_CASES t) = Some cases ->
    In c cases ->
    C (cmd ++ ["--filter"; c])%list.

Lemma triple_run_unit_test tag item st :
  C (snd item) ->
  triple W (run_unit_test args env tag item st) (fun _ => True) Q.
Proof.
  destruct item as [name cmd]. intros HC. unfold run_unit_test.
  eapply (triple_bind W _ _ (fun _ => True)).
  - destruct (filtered_out _ name).
    + now apply triple_ret.
    + eapply triple_weaken; [now apply runner | auto | auto].
  - intros r _. now apply triple_ret.
Qed.

Lemma triple_run_automation_case tag cmd c st :
  C (cmd ++ ["--filter"; c])%list ->
  triple W (run_automation_case args env tag cmd c st)
         (fun s => test_result s <> None) Q.
Proof.
  intros HC. unfold run_automation_case.
  eapply (triple_bind W _ _ (fun _ => True)).
  - destruct (filtered_out _ c).
    + now apply triple_ret.
    + eapply triple_weaken; [now apply runner | auto | auto].
  - intros r _. apply triple_ret. discriminate.
Qed.

Lemma triple_run_unit_tests tag st :
  In tag (other_tags args) ->
  triple W (run_unit_tests args t env tag st)
         (fun s => forall tests,
              Dict.get tag (TAG_TESTS t) = Some tests ->
              Dict.mem "testautomation" tests = true ->
              test_result s <> None) Q.
Proof.
  intros Hin. unfold run_unit_tests.
  destruct (entries tag) as (_ & _ & (tests & Ht) & _);
    [apply in_or_app; now left|].
  unfold Dict.lookup. rewrite Ht.
  eapply (triple_bind W _ _ (fun x => x = tests)).
  - now apply triple_lift.
  - intros ? ->.
    assert (triple W (for_each (run_unit_test args env tag) (Dict.items tests) st)
              (fun s => True /\ (Dict.items tests <> [] -> absorbed s)) Q) as Hloop.
    { apply (triple_and_returned W _ (fun _ => True)
               (fun s => Dict.items tests <> [] -> absorbed s)).
      - apply (triple_for_each W (fun _ => True)); [|exact I].
        intros [name cmd] s Hitem _. apply triple_run_unit_test.
        eapply test_commands; eauto.
      - intros w s w' Hrun Hne.
        eapply run_unit_tests_absorbed; eassumption. }
    eapply triple_weaken; [exact Hloop | | auto].
    cbn beta. intros s [_ Habs] tests' Ht' Hmem.
    assert (tests' = tests) as -> by congruence.
    destruct (Habs (mem_items_nonempty _ _ Hmem)) as (r & Hr & _).
    rewrite Hr. discriminate.
Qed.

Lemma triple_run_automation tag st :
  In tag (other_tags args) ->
  (forall tests, Dict.get tag (TAG_TESTS t) = Some tests ->
                 Dict.mem "testautomation" tests = true ->
                 test_result st <> None) ->
  triple W (run_automation args t env tag st) (fun _ => True) Q.
Proof.
  intros Hin Hbound. unfold run_automation.
  destruct (testautomation_mode args); [|now apply triple_ret].
  destruct (entries tag) as (_ & _ & (tests & Ht) & (cases & Hc));
    [apply in_or_app; now left|].
  unfold Dict.lookup at 1. rewrite Ht.
  eapply (triple_bind W _ _ (fun x => x = tests));
    [now apply triple_lift|intros ? ->].
  destruct (Dict.mem "testautomation" tests) eqn:Hmem;
    [|now apply triple_ret].
  eapply (triple_bind W _ _
            (fun cmd => Dict.get "testautomation" tests = Some cmd)).
  { apply triple_lift. unfold Dict.lookup, Dict.mem in *.
    destruct (Dict.get "testautomation" tests);
      [reflexivity|discriminate]. }
  intros cmd Hcmd. unfold Dict.lookup. rewrite Hc.
  eapply (triple_bind W _ _ (fun x => x = cases));
    [now apply triple_lift|intros ? ->].
  eapply (triple_bind W _ _ (fun s => test_result s <> None)).
  - apply (triple_for_each W (fun s => test_result s <> None)).
    + intros c s Hcase _. apply triple_run_automation_case.
      eapply automation_commands; eauto.
    + eapply Hbound; eauto.
  - intros s Hs. unfold update_after_automation.
    destruct (test_result s); [now apply triple_ret | contradiction].
Qed.

Lemma triple_compare_tag tag st :
  In tag (other_tags args) ->
  triple W (compare_tag args t env tag st) (fun _ => True) Q.
Proof.
  intros Hin. unfold compare_tag.
  destruct (entries tag) as (_ & (v & Hv) & _); [apply in_or_app; now left|].
  destruct (entries (dut_tag args)) as (_ & (vd & Hd) & _);
    [apply in_or_app; right; now left|].
  unfold Dict.lookup. rewrite Hv, Hd.
  eapply (triple_bind W _ _ (fun x => x = v));
    [now apply triple_lift|intros ? ->].
  eapply (triple_bind W _ _ (fun x => x = vd));
    [now apply triple_lift|intros ? ->].
  destruct (negb (version_le v vd)); [now apply triple_ret|].
  eapply triple_bind; [now apply triple_run_unit_tests|].
  intros st2 Hbound. now apply triple_run_automation.
Qed.

Lemma triple_engine :
  triple W (engine args t env) (fun _ => True) Q.
Proof.
  unfold engine. apply (triple_for_each W (fun _ => True)); [|exact I].
  intros tag s Hin _. now apply triple_compare_tag.
Qed.
End EngineTriple.

(** X3. With tables that a successful pipeline has filled, the comparison
    loop always stops, and the only exceptions it can raise are those of
    [Popen] for a process that does not start: [IndexError] for an empty
    command, [ValueError] for a null character in an argument, and
    [OSError].  No look-up of a tag, of the [testautomation] command or of
    [test_result] can fail in it. *)
Theorem engine_raises_only_start_failure args fs t env w :
  pipeline args fs = Ok t ->
  match engine args t env w with
  | Returned _ _ => True
  | Raised e _ =>
      e = IndexError "list index out of range"
      \/ e = ValueError "embedded null byte"
      \/ e = OSError "Popen"
  | OutOfFuel => False
  end.
Proof.
  intros Hp.
  assert (triple (fun _ => True) (engine args t env) (fun _ => True)
                 is_start_failure) as H.
  { apply triple_engine with (C := fun _ => True).
    - intros cmd env' _. apply triple_run. now intros ? ?.
    - unfold pipeline in Hp. now apply has_entries_loop in Hp as [Hin _].
    - auto.
    - auto. }
  specialize (H w I).
  destruct (engine args t env w); [exact I | exact (proj2 H) | exact H].
Qed.

(* ================================================================== *)
(** * Comparison Engine: what the matrix and the flag say *)

Lemma cells_set_empty P tag results :
  cells P results -> cells P (Dict.set tag [] results).
Proof.
  intros H tag' d name r. rewrite get_set.
  destruct (String.eqb tag' tag); [intros [= <-]; discriminate | apply H].
Qed.

Lemma get_record tag name r (results : Results) tag' name' :
  Dict.get name' (Dict.get_default tag' [] (record_result tag name r results))
  = if String.eqb tag' tag
    then if String.eqb name' name then Some r
         else Dict.get name' (Dict.get_default tag [] results)
    else Dict.get name' (Dict.get_default tag' [] results).
Proof.
  unfold record_result, Dict.get_default at 1. rewrite get_set.
  destruct (String.eqb tag' tag); [now rewrite get_set | reflexivity].
Qed.

Lemma cells_default P results :
  cells P results <->
  forall tag name r,
    Dict.get name (Dict.get_default tag [] results) = Some r -> P tag name r.
Proof.
  unfold cells, Dict.get_default. split.
  - intros H tag name r. specialize (H tag).
    unfold Results, Dict.t in *.
    destruct (Dict.get tag results) as [d|]; [eauto | cbn; discriminate].
  - intros H tag d name r Hd. specialize (H tag name r).
    unfold Results, Dict.t in *. now rewrite Hd in H.
Qed.

Lemma cells_record P tag name r results :
  cells P results -> P tag name r ->
  cells P (record_result tag name r results).
Proof.
  rewrite !cells_default. intros H Hr tag' name' r'. rewrite get_record.
  destruct (String.eqb_spec tag' tag) as [->|]; [|apply H].
  destruct (String.eqb_spec name' name) as [->|]; [|apply H].
  now intros [= <-].
Qed.

Lemma run_unit_test_step args env tag name cmd st w st' w' :
  run_unit_test args env tag (name, cmd) st w = Returned st' w' ->
  exists r,
    r <> NA
    /\ st' = {| TEST_RESULTS := record_result tag name r (TEST_RESULTS st);
                TESTAUTOMATION_RESULTS := TESTAUTOMATION_RESULTS st;
                success := update_success (success st) r;
                test_result := Some r |}.
Proof.
  unfold run_unit_test. intros H.
  apply bind_returned in H as (r & w1 & Hr & H).
  injection H as <- <-. exists r. split; [|reflexivity].
  destruct (filtered_out _ name).
  - injection Hr as <- _. discriminate.
  - apply run_process_with_timeout_returned in Hr as [[->|[->| ->]] _];
      discriminate.
Qed.

Lemma update_success_true s r :
  update_success s r = true -> s = true /\ r = SUCCESS.
Proof. destruct s, r; cbn; intros [=]; auto. Qed.

Lemma compare_tag_cases args t env tag st w st' w' :
  compare_tag args t env tag st w = Returned st' w' ->
  exists v v_dut,
    Dict.get tag (TAG_VERSION t) = Some v
    /\ Dict.get (dut_tag args) (TAG_VERSION t) = Some v_dut
    /\ ((version_le v v_dut = false
         /\ TEST_RESULTS st' = TEST_RESULTS st
         /\ TESTAUTOMATION_RESULTS st' = TESTAUTOMATION_RESULTS st
         /\ success st' = false)
        \/ (version_le v v_dut = true
            /\ exists tests st2 w2,
                 Dict.get tag (TAG_TESTS t) = Some tests
                 /\ for_each (run_unit_test args env tag) (Dict.items tests)
                             (unit_start tag st) w = Returned st2 w2
                 /\ run_automation args t env tag (automation_start tag st2) w2
                    = Returned st' w')).
Proof.
  unfold compare_tag. intros H.
  apply bind_returned in H as (v & w1 & Hv & H).
  apply lift_returned in Hv as [Hv ->]. apply lookup_ok in Hv.
  apply bind_returned in H as (vd & w1 & Hd & H).
  apply lift_returned in Hd as [Hd ->]. apply lookup_ok in Hd.
  exists v, vd. split; [exact Hv|]. split; [exact Hd|].
  destruct (version_le v vd).
  - right. split; [reflexivity|]. cbn [negb] in H.
    apply bind_returned in H as (st2 & w2 & Hu & H).
    unfold run_unit_tests in Hu.
    apply bind_returned in Hu as (tests & w1 & Ht & Hu).
    apply lift_returned in Ht as [Ht ->]. apply lookup_ok in Ht.
    exists tests, st2, w2. auto.
  - left. injection H as <- <-. auto.
Qed.

Lemma run_automation_flag args t env tag st w st' w' :
  run_automation args t env tag st w = Returned st' w' ->
  success st' = true -> success st = true.
Proof.
  unfold run_automation. intros H.
  destruct (testautomation_mode args); [|injection H as <- _; auto].
  apply bind_returned in H as (tests & w1 & _ & H).
  destruct (Dict.mem "testautomation" tests); [|injection H as <- _; auto].
  apply bind_returned in H as (cmd & w2 & _ & H).
  apply bind_returned in H as (cases & w3 & _ & H).
  apply bind_returned in H as (st1 & w4 & Hloop & H).
  apply automation_loop_keeps_flag in Hloop.
  unfold update_after_automation in H.
  destruct (test_result st1) as [r|]; [|discriminate].
  injection H as <- _. cbn [success]. rewrite Hloop.
  intros Hs. now apply update_success_true in Hs.
Qed.

Section Matrix.
Variables (args : Args) (t : Tables) (env : Env).

(** While the flag is true, every unit test recorded has passed. *)
Lemma run_unit_test_passed tag item st w st' w' :
  (success st = true -> cells (fun _ _ r => r = SUCCESS) (TEST_RESULTS st)) ->
  run_unit_test args env tag item st w = Returned st' w' ->
  success st' = true -> cells (fun _ _ r => r = SUCCESS) (TEST_RESULTS st').
Proof.
  destruct item as [name cmd]. intros Hinv H.
  apply run_unit_test_step in H as (r & _ & ->). cbn [success TEST_RESULTS].
  intros Hs. apply update_success_true in Hs as [Hs ->].
  apply cells_record; auto.
Qed.

Lemma compare_tag_passed tag st w st' w' :
  (success st = true -> cells (fun _ _ r => r = SUCCESS) (TEST_RESULTS st)) ->
  compare_tag args t env tag st w = Returned st' w' ->
  success st' = true -> cells (fun _ _ r => r = SUCCESS) (TEST_RESULTS st').
Proof.
  intros Hinv H.
  apply compare_tag_cases in H
    as (v & vd & _ & _ & [(_ & _ & _ & ->)|(_ & tests & st2 & w2 & _ & Hu & Ha)]);
    [discriminate|].
  intros Hs. pose proof (run_automation_flag _ _ _ _ _ _ _ _ Ha Hs) as Hs2.
  apply run_automation_keeps_tests in Ha. rewrite Ha.
  change (TEST_RESULTS (automation_start tag st2)) with (TEST_RESULTS st2).
  cbn [success automation_start] in Hs2. revert Hs2.
  apply (for_each_invariant
           (fun s => success s = true ->
                     cells (fun _ _ r => r = SUCCESS) (TEST_RESULTS s))
           (run_unit_test args env tag) (Dict.items tests))
    with (s := unit_start tag st) (w := w) (w' := w2); [| |exact Hu].
  - intros item s w0 s' w0' _. apply run_unit_test_passed.
  - cbn [unit_start success TEST_RESULTS]. intros Hs0.
    apply cells_set_empty. auto.
Qed.

Lemma engine_passed w st w' :
  engine args t env w = Returned st w' ->
  success st = true -> cells (fun _ _ r => r = SUCCESS) (TEST_RESULTS st).
Proof.
  unfold engine.
  apply (for_each_invariant
           (fun s => success s = true ->
                     cells (fun _ _ r => r = SUCCESS) (TEST_RESULTS s))).
  - intros tag s w0 s' w0' _. apply compare_tag_passed.
  - intros _ tag d name r [=].
Qed.

(** Where the cells of the matrix come from. *)
Lemma compare_tag_origin tag st w st' w' :
  cells (fun tag name r => r <> NA /\ discovered t tag name) (TEST_RESULTS st) ->
  compare_tag args t env tag st w = Returned st' w' ->
  cells (fun tag name r => r <> NA /\ discovered t tag name) (TEST_RESULTS st').
Proof.
  intros Hinv H.
  apply compare_tag_cases in H
    as (v & vd & _ & _ & [(_ & -> & _)|(_ & tests & st2 & w2 & Ht & Hu & Ha)]);
    [exact Hinv|].
  apply run_automation_keeps_tests in Ha. rewrite Ha.
  change (TEST_RESULTS (automation_start tag st2)) with (TEST_RESULTS st2).
  apply (for_each_invariant
           (fun s => cells (fun tag name r => r <> NA /\ discovered t tag name)
                           (TEST_RESULTS s))
           (run_unit_test args env tag) (Dict.items tests))
    with (s := unit_start tag st) (w := w) (w' := w2); [| |exact Hu].
  - intros [name cmd] s w0 s' w0' Hin Hs H.
    apply run_unit_test_step in H as (r & Hr & ->). cbn [TEST_RESULTS].
    apply cells_record; [exact Hs|]. split; [exact Hr|].
    exists tests. split; [exact Ht|].
    unfold Dict.keys, Dict.items in *. now apply (in_map fst) in Hin.
  - cbn [unit_start TEST_RESULTS]. now apply cells_set_empty.
Qed.

Lemma engine_origin w st w' :
  engine args t env w = Returned st w' ->
  cells (fun tag name r => r <> NA /\ discovered t tag name) (TEST_RESULTS st).
Proof.
  unfold engine.
  apply (for_each_invariant
           (fun s => cells (fun tag name r => r <> NA /\ discovered t tag name)
                           (TEST_RESULTS s))).
  - intros tag s w0 s' w0' _. apply compare_tag_origin.
  - intros tag d name r [=].
Qed.

(** The loop over a tag's tests leaves a cell for each of them. *)
Lemma unit_loop_covers tag items : forall st w st' w',
  for_each (run_unit_test args env tag) items st w = Returned st' w' ->
  (forall name,
      Dict.get name (Dict.get_default tag [] (TEST_RESULTS st)) <> None ->
      Dict.get name (Dict.get_default tag [] (TEST_RESULTS st')) <> None)
  /\ (forall name cmd, In (name, cmd) items ->
         Dict.get name (Dict.get_default tag [] (TEST_RESULTS st')) <> None).
Proof.
  induction items as [|[name cmd] items IH]; intros st w st' w' H.
  - injection H as <- _. split; [auto | intros ? ? []].
  - cbn [for_each] in H. apply bind_returned in H as (s1 & w1 & H1 & H).
    apply run_unit_test_step in H1 as (r & _ & ->).
    apply IH in H as [Hkeep Hin]. cbn [TEST_RESULTS] in Hkeep.
    assert (Hstep : forall n,
               Dict.get n (Dict.get_default tag [] (TEST_RESULTS st)) <> None
               \/ n = name ->
               Dict.get n (Dict.get_default tag [] (TEST_RESULTS st')) <> None).
    { intros n Hn. apply Hkeep. rewrite get_record, String.eqb_refl.
      destruct (String.eqb_spec n name) as [->|Hne]; [discriminate|].
      destruct Hn; [assumption | contradiction]. }
    split; [intros n Hn; apply Hstep; now left|].
    intros n c [[= <- <-]|Hn]; [apply Hstep; now right | eauto].
Qed.

(** A tag other than the one compared keeps its cells. *)
Lemma unit_loop_other tag tag' items : forall st w st' w',
  tag' <> tag ->
  for_each (run_unit_test args env tag) items st w = Returned st' w' ->
  Dict.get tag' (TEST_RESULTS st') = Dict.get tag' (TEST_RESULTS st).
Proof.
  intros st w st' w' Hne.
  apply (for_each_invariant
           (fun s => Dict.get tag' (TEST_RESULTS s)
                     = Dict.get tag' (TEST_RESULTS st))); [|reflexivity].
  intros [name cmd] s w0 s' w0' _ Hs H.
  apply run_unit_test_step in H as (r & _ & ->). cbn [TEST_RESULTS].
  unfold record_result. now rewrite get_set_other.
Qed.

Lemma unit_loop_keeps_key tag items : forall st w st' w',
  Dict.get tag (TEST_RESULTS st) <> None ->
  for_each (run_unit_test args env tag) items st w = Returned st' w' ->
  Dict.get tag (TEST_RESULTS st') <> None.
Proof.
  intros st w st' w'.
  apply (for_each_invariant (fun s => Dict.get tag (TEST_RESULTS s) <> None)).
  intros [name cmd] s w0 s' w0' _ Hs H.
  apply run_unit_test_step in H as (r & _ & ->). cbn [TEST_RESULTS].
  unfold record_result. now rewrite get_set_same.
Qed.

Lemma unit_loop_flag tag items : forall st w st' w',
  for_each (run_unit_test args env tag) items st w = Returned st' w' ->
  success st' = true -> success st = true.
Proof.
  intros st w st' w'.
  apply (for_each_invariant (fun s => success s = true -> success st = true));
    [|auto].
  intros [name cmd] s w0 s' w0' _ Hs H.
  apply run_unit_test_step in H as (r & _ & ->). cbn [success].
  intros Hu. apply update_success_true in Hu as [Hu _]. auto.
Qed.

Lemma compare_tag_flag tag st w st' w' :
  compare_tag args t env tag st w = Returned st' w' ->
  success st' = true -> success st = true /\ in_order args t tag.
Proof.
  intros H Hs.
  apply compare_tag_cases in H
    as (v & vd & Hv & Hd
        & [(_ & _ & _ & Hf)|(Hle & tests & st2 & w2 & _ & Hu & Ha)]);
    [congruence|].
  split; [|now exists v, vd].
  apply (run_automation_flag _ _ _ _ _ _ _ _ Ha) in Hs.
  now apply (unit_loop_flag _ _ _ _ _ _ Hu) in Hs.
Qed.

Lemma compare_loop_flag tags : forall st w st' w',
  for_each (compare_tag args t env) tags st w = Returned st' w' ->
  success st' = true ->
  success st = true /\ forall tag, In tag tags -> in_order args t tag.
Proof.
  induction tags as [|tag tags IH]; intros st w st' w' H Hs.
  - injection H as <- _. split; [exact Hs | intros ? []].
  - cbn [for_each] in H. apply bind_returned in H as (s1 & w1 & H1 & H).
    apply IH in H as [Hs1 Hin]; [|exact Hs].
    apply compare_tag_flag in H1 as [Hs0 Ho]; [|exact Hs1].
    split; [exact Hs0|]. intros x [<-|Hx]; auto.
Qed.

Lemma compare_tag_covered tag x st w st' w' :
  compare_tag args t env tag st w = Returned st' w' ->
  in_order args t x ->
  covered t x (TEST_RESULTS st) \/ tag = x ->
  covered t x (TEST_RESULTS st').
Proof.
  intros H (vx & vdx & Hvx & Hdx & Hle) Hc.
  apply compare_tag_cases in H
    as (v & vd & Hv & Hd
        & [(Hgt & -> & _)|(_ & tests & st2 & w2 & Ht & Hu & Ha)]).
  - destruct Hc as [Hc| ->]; [exact Hc | congruence].
  - apply run_automation_keeps_tests in Ha. rewrite Ha.
    change (TEST_RESULTS (automation_start tag st2)) with (TEST_RESULTS st2).
    destruct (String.eqb_spec x tag) as [->|Hne].
    + assert (Hkey : Dict.get tag (TEST_RESULTS st2) <> None).
      { eapply unit_loop_keeps_key; [|exact Hu].
        cbn [unit_start TEST_RESULTS]. rewrite get_set_same. discriminate. }
      apply unit_loop_covers in Hu as [_ Hin].
      unfold covered, Dict.get_default in *.
      match type of Hin with
      | context [match ?x with Some _ => _ | None => _ end] =>
          destruct x as [d|] eqn:Hg; [|exfalso; apply Hkey; exact Hg]
      end.
      exists d. split; [exact Hg|].
      intros name (tests' & Ht' & Hn).
      assert (tests' = tests) as -> by congruence.
      unfold Dict.keys in Hn. apply in_map_iff in Hn as ([n c] & <- & Hn).
      eapply Hin. exact Hn.
    + destruct Hc as [Hc|Heq]; [|congruence].
      apply (unit_loop_other tag x) in Hu; [|exact Hne].
      unfold covered. rewrite Hu. cbn [unit_start TEST_RESULTS].
      now rewrite get_set_other.
Qed.

Lemma compare_loop_covered x tags : forall st w st' w',
  for_each (compare_tag args t env) tags st w = Returned st' w' ->
  in_order args t x ->
  covered t x (TEST_RESULTS st) \/ In x tags ->
  covered t x (TEST_RESULTS st').
Proof.
  induction tags as [|tag tags IH]; intros st w st' w' H Ho Hc.
  - injection H as <- _. destruct Hc as [Hc|[]]. exact Hc.
  - cbn [for_each] in H. apply bind_returned in H as (s1 & w1 & H1 & H).
    destruct (String.eqb_spec tag x) as [->|Hne].
    + eapply IH; [exact H | exact Ho|]. left.
      eapply compare_tag_covered; [exact H1 | exact Ho | now right].
    + eapply IH; [exact H | exact Ho|].
      destruct Hc as [Hc|[Heq|Hin]]; [|contradiction|now right].
      left. eapply compare_tag_covered; [exact H1 | exact Ho | now left].
Qed.
End Matrix.

(** X4. When the comparison loop ends with the flag that gives exit code 0,
    no other tag was passed over by the version check (each is at or below
    the version of the DUT), and every unit test discovered for every other
    tag stands in the matrix as SUCCESS: none failed, timed out, was
    filtered out or was left out. *)
Theorem exit_code_0_means_all_passed args t env w st w' :
  engine args t env w = Returned st w' ->
  exit_code (success st) = 0 ->
  forall tag, In tag (other_tags args) ->
    in_order args t tag
    /\ exists d,
         Dict.get tag (TEST_RESULTS st) = Some d
         /\ forall name, discovered t tag name ->
                         Dict.get name d = Some SUCCESS.
Proof.
  intros H Hcode tag Hin.
  assert (Hs : success st = true) by (destruct (success st); [auto|discriminate]).
  pose proof (engine_passed _ _ _ _ _ _ H Hs) as Hpass.
  pose proof H as Hloop. unfold engine in Hloop.
  destruct (compare_loop_flag _ _ _ _ _ _ _ _ Hloop Hs) as [_ Ho].
  split; [auto|].
  destruct (compare_loop_covered args t env tag _ _ _ _ _ Hloop (Ho tag Hin))
    as (d & Hd & Hcov); [now right|].
  exists d. split; [exact Hd|]. intros name Hn.
  specialize (Hcov name Hn).
  destruct (Dict.get name d) as [r|] eqn:Hr; [|contradiction].
  f_equal. eapply Hpass; eauto.
Qed.

(** X5. What a cell of the unit-test matrix says.  After the comparison
    loop, the row of a tag that passed the version check has a result for
    exactly the tests discovered for that tag: the cell that the report
    prints for a name is n/a if and only if the tag has no test of that
    name. *)
Theorem cell_is_NA_iff_not_discovered args t env w st w' tag :
  engine args t env w = Returned st w' ->
  In tag (other_tags args) -> in_order args t tag ->
  exists d,
    Dict.get tag (TEST_RESULTS st) = Some d
    /\ forall name,
         Dict.get_default name NA d = NA <-> ~ discovered t tag name.
Proof.
  intros H Hin Ho.
  pose proof (engine_origin _ _ _ _ _ _ H) as Horigin.
  unfold engine in H.
  destruct (compare_loop_covered args t env tag _ _ _ _ _ H Ho)
    as (d & Hd & Hcov); [now right|].
  exists d. split; [exact Hd|]. intros name.
  unfold Dict.get_default. specialize (Hcov name).
  destruct (Dict.get name d) as [r|] eqn:Hr.
  - destruct (Horigin tag d name r Hd Hr) as [Hna Hdisc].
    split; [contradiction | intros Hn; contradiction].
  - split; [intros _ Hn; now apply Hcov | reflexivity].
Qed.

(* ================================================================== *)
(** * The program: when it returns an exit code, and when it cannot *)

Lemma get_record_row tag name r (results : Results) x :
  Dict.get x results <> None ->
  Dict.get x (record_result tag name r results) <> None.
Proof.
  unfold record_result. rewrite get_set.
  destruct (String.eqb x tag); [discriminate | auto].
Qed.

Section Rows.
Variables (args : Args) (t : Tables) (env : Env).

Lemma unit_loop_rows tag x items : forall st w st' w',
  has_rows x st ->
  for_each (run_unit_test args env tag) items st w = Returned st' w' ->
  has_rows x st'.
Proof.
  intros st w st' w'. apply (for_each_invariant (has_rows x)).
  intros [name cmd] s w0 s' w0' _ [H1 H2] H.
  apply run_unit_test_step in H as (r & _ & ->).
  split; cbn [TEST_RESULTS TESTAUTOMATION_RESULTS];
    [now apply get_record_row | exact H2].
Qed.

Lemma run_automation_rows tag x st w st' w' :
  has_rows x st ->
  run_automation args t env tag st w = Returned st' w' ->
  has_rows x st'.
Proof.
  intros Hrows H. unfold run_automation in H.
  destruct (testautomation_mode args); [|now injection H as <- _].
  apply bind_returned in H as (tests & w1 & _ & H).
  destruct (Dict.mem "testautomation" tests); [|now injection H as <- _].
  apply bind_returned in H as (cmd & w2 & _ & H).
  apply bind_returned in H as (cases & w3 & _ & H).
  apply bind_returned in H as (st1 & w4 & Hloop & H).
  assert (Hrows1 : has_rows x st1).
  { revert Hloop. apply (for_each_invariant (has_rows x)); [|exact Hrows].
    intros c s w0 s' w0' _ [H1 H2] Hc.
    apply run_automation_case_returned in Hc as (r & -> & _).
    split; cbn [TEST_RESULTS TESTAUTOMATION_RESULTS];
      [exact H1 | now apply get_record_row]. }
  unfold update_after_automation in H.
  destruct (test_result st1); [|discriminate].
  injection H as <- _. exact Hrows1.
Qed.

Lemma compare_tag_rows tag x st w st' w' :
  compare_tag args t env tag st w = Returned st' w' ->
  in_order args t x ->
  has_rows x st \/ tag = x ->
  has_rows x st'.
Proof.
  intros H (vx & vdx & Hvx & Hdx & Hle) Hc.
  apply compare_tag_cases in H
    as (v & vd & Hv & Hd
        & [(Hgt & H1 & H2 & _)|(_ & tests & st2 & w2 & Ht & Hu & Ha)]).
  - destruct Hc as [Hc| ->]; [|congruence].
    unfold has_rows. now rewrite H1, H2.
  - eapply run_automation_rows; [|exact Ha].
    assert (Hrows2 : has_rows x (unit_start tag st) -> has_rows x st2)
      by (intros Hr; eapply unit_loop_rows; eauto).
    assert (Hset : forall results : Results,
               Dict.get x results <> None \/ tag = x ->
               Dict.get x (Dict.set tag [] results) <> None).
    { intros results Hr. rewrite get_set.
      destruct (String.eqb_spec x tag) as [->|Hne]; [discriminate|].
      destruct Hr as [Hr|Heq]; [exact Hr | congruence]. }
    destruct Hc as [[H1 H2]|Heq].
    + destruct Hrows2 as [R1 R2];
        [split; cbn [unit_start TEST_RESULTS TESTAUTOMATION_RESULTS]; auto|].
      split; cbn [automation_start TEST_RESULTS TESTAUTOMATION_RESULTS]; auto.
    + assert (Hkey : Dict.get x (TEST_RESULTS st2) <> None).
      { subst x. eapply unit_loop_keeps_key; [|exact Hu].
        cbn [unit_start TEST_RESULTS]. auto. }
      split; cbn [automation_start TEST_RESULTS TESTAUTOMATION_RESULTS]; auto.
Qed.

Lemma compare_loop_rows x tags : forall st w st' w',
  for_each (compare_tag args t env) tags st w = Returned st' w' ->
  in_order args t x ->
  has_rows x st \/ In x tags ->
  has_rows x st'.
Proof.
  induction tags as [|tag tags IH]; intros st w st' w' H Ho Hc.
  - injection H as <- _. destruct Hc as [Hc|[]]. exact Hc.
  - cbn [for_each] in H. apply bind_returned in H as (s1 & w1 & H1 & H).
    destruct (String.eqb_spec tag x) as [->|Hne].
    + eapply IH; [exact H | exact Ho|]. left.
      eapply compare_tag_rows; [exact H1 | exact Ho | now right].
    + eapply IH; [exact H | exact Ho|].
      destruct Hc as [Hc|[Heq|Hin]]; [|contradiction|now right].
      left. eapply compare_tag_rows; [exact H1 | exact Ho | now left].
Qed.
End Rows.

Lemma map_exc_total {A B} (f : A -> exc B) l :
  (forall x, In x l -> exists y, f x = Ok y) ->
  exists ys, map_exc f l = Ok ys.
Proof.
  induction l as [|x l IH]; intros H; cbn [map_exc].
  - now exists [].
  - destruct (H x) as [y Hy]; [now left|]. rewrite Hy.
    destruct IH as [ys Hys]; [intros; apply H; now right|].
    rewrite Hys. now eexists.
Qed.

Lemma triple_returns {A} (m : M A) w :
  triple (fun _ => True) m (fun _ => True) (fun _ => False) ->
  exists a w', m w = Returned a w'.
Proof.
  intros H. specialize (H w I).
  destruct (m w) as [a w'|e w'|]; [now eauto | destruct H as [_ []] | easy].
Qed.

Lemma triple_print_table args t heading names results :
  names <> [] ->
  (forall tag, In tag (other_tags args) ->
               exists v, Dict.get tag (TAG_VERSION t) = Some v) ->
  (forall tag, In tag (other_tags args) -> Dict.get tag results <> None) ->
  triple (fun _ => True) (print_table args t heading names results)
         (fun _ => True) (fun _ => False).
Proof.
  intros Hne Hv Hrows. unfold print_table.
  eapply (triple_bind _ _ _ (fun _ => True)).
  { apply triple_lift. destruct names; [contradiction | exact I]. }
  intros width _.
  eapply (triple_bind _ _ _ (fun _ => True)); [now apply triple_print|intros _ _].
  eapply (triple_bind _ _ _ (fun _ => True)); [now apply triple_print|intros _ _].
  eapply (triple_bind _ _ _ (fun _ => True)).
  { apply triple_lift.
    destruct (map_exc_total
                (fun other_tag =>
                   exc_bind (Dict.lookup other_tag (TAG_VERSION t))
                            (fun v => Ok (center (version_text v) 12)))
                (other_tags args)) as [versions ->]; [|exact I].
    intros tag Hin. destruct (Hv tag Hin) as [v Hg].
    unfold Dict.lookup. rewrite Hg. now eexists. }
  intros versions _.
  eapply (triple_bind _ _ _ (fun _ => True)); [now apply triple_print|intros _ _].
  eapply (triple_bind _ _ _ (fun _ => True)); [now apply triple_print|intros _ _].
  eapply (triple_bind _ _ _ (fun _ => True)); [now apply triple_print|intros _ _].
  apply (triple_for_each _ (fun _ => True)); [|exact I].
  intros name [] _ _. unfold print_row.
  eapply (triple_bind _ _ _ (fun _ => True)); [|intros; now apply triple_print].
  apply triple_lift. unfold row_results.
  destruct (map_exc_total
              (fun other_tag =>
                 exc_bind (Dict.lookup other_tag results) (fun d =>
                 Ok (Dict.get_default name NA d)))
              (other_tags args)) as [cells_ ->]; [|exact I].
  intros tag Hin. specialize (Hrows tag Hin). unfold Dict.lookup.
  destruct (Dict.get tag results); [now eexists | contradiction].
Qed.

Lemma report_returns args t st w :
  (testautomation_mode args = true -> all_automation_cases t <> []) ->
  (forall tag, In tag (other_tags args) ->
               exists v, Dict.get tag (TAG_VERSION t) = Some v) ->
  (forall tag, In tag (other_tags args) -> has_rows tag st) ->
  exists w', report args t st w = Returned tt w'.
Proof.
  intros Hcases Hv Hrows.
  destruct (triple_returns (report args t st) w) as ([] & w' & H); [|eauto].
  unfold report.
  eapply (triple_bind _ _ _ (fun _ => True)).
  - destruct (testautomation_mode args); [|now apply triple_ret].
    apply triple_print_table; auto. intros tag Hin. now apply Hrows.
  - intros _ _. destruct (all_test_names t) as [|n names] eqn:Hn;
      [now apply triple_print|].
    apply triple_print_table; [discriminate | auto|].
    intros tag Hin. now apply Hrows.
Qed.

(** X7. Without PATH.  When the pipeline succeeds and the environment of
    the script has no PATH, [main] raises [KeyError] for PATH while it
    builds the environment of the tests: no test process is started and no
    report is printed. *)
Theorem main_without_PATH args fs t w :
  pipeline args fs = Ok t ->
  Dict.get "PATH" (environ w) = None ->
  main args fs w = Raised (KeyError "PATH") w.
Proof.
  intros Hp Hpath.
  pose proof Hp as Hentries. unfold pipeline in Hentries.
  apply has_entries_loop in Hentries as [Hentries _].
  unfold main. unfold bind at 1. rewrite Hp. cbn [lift].
  unfold bind at 1. unfold child_environment.
  destruct (Hentries (dut_tag args)) as (Hpref & _);
    [apply in_or_app; right; now left|].
  unfold Dict.lookup at 1. rewrite Hpref. cbn [exc_bind].
  unfold Dict.lookup. rewrite !get_set_other by discriminate.
  match goal with
  | |- context [match ?x with Some _ => _ | None => _ end] =>
      replace x with (@None string) by (symmetry; exact Hpath)
  end.
  reflexivity.
Qed.

(** X8. Automation mode without a single automation case.  When the set of
    all automation cases is empty in automation mode, [main] never returns
    an exit code: if the comparison loop gets through, the report raises
    [ValueError] on the maximum of an empty sequence, before it prints
    anything. *)
Theorem automation_mode_needs_a_case args fs t w :
  pipeline args fs = Ok t ->
  testautomation_mode args = true ->
  all_automation_cases t = [] ->
  (forall st w1, report args t st w1
                 = Raised (ValueError "max() arg is an empty sequence") w1)
  /\ exists e w', main args fs w = Raised e w'.
Proof.
  intros Hp Hmode Hcases.
  assert (Hreport : forall st w1,
             report args t st w1
             = Raised (ValueError "max() arg is an empty sequence") w1).
  { intros st w1. unfold report, bind. rewrite Hmode.
    unfold print_table, bind. now rewrite Hcases. }
  split; [exact Hreport|].
  pose proof (main_stops args fs w) as Hstops.
  destruct (main args fs w) as [code w'|e w'|] eqn:Hm;
    [|now eauto|contradiction].
  exfalso. unfold main in Hm. rewrite Hp in Hm.
  apply bind_returned in Hm as (t' & w1 & Ht & Hm).
  apply bind_returned in Hm as (env & w2 & _ & Hm).
  apply bind_returned in Hm as (st & w3 & _ & Hm).
  apply bind_returned in Hm as (u & w4 & Hr & _).
  injection Ht as <- _. now rewrite Hreport in Hr.
Qed.

(* ================================================================== *)
(** * Process Runner: what a result tells *)


(* ================================================================== *)
(** * The version check *)

Lemma version_le_spec a b : version_le a b = true <-> lex_le a b.
Proof.
  destruct a as [[a1 a2] a3], b as [[b1 b2] b3]. unfold version_le, lex_le.
  destruct (Z.eqb_spec a1 b1); [destruct (Z.eqb_spec a2 b2)|].
  - rewrite Z.leb_le. lia.
  - rewrite Z.ltb_lt. lia.
  - rewrite Z.ltb_lt. lia.
Qed.

(** X10. The comparison of versions that decides whether a tag is compared
    at all is the lexicographic order on triples of integers, major version
    first, and a total order: a tag at the version of the DUT passes the
    check, any two versions are comparable, and two versions that pass the
    check both ways are the same. *)
Theorem version_le_is_a_total_order (a b c : Version) :
  (version_le a b = true <-> lex_le a b)
  /\ version_le a a = true
  /\ (version_le a b = true -> version_le b a = true -> a = b)
  /\ (version_le a b = true -> version_le b c = true -> version_le a c = true)
  /\ (version_le a b = true \/ version_le b a = true).
Proof.
  rewrite !version_le_spec.
  destruct a as [[a1 a2] a3], b as [[b1 b2] b3], c as [[c1 c2] c3].
  unfold lex_le. repeat split; try lia.
  intros H1 H2. assert (a1 = b1 /\ a2 = b2 /\ a3 = b3) as (-> & -> & ->) by lia.
  reflexivity.
Qed.

(* ================================================================== *)
(** * Regular expressions: the engine only reports matches *)

Lemma strip_prefix_sound p : forall s rest,
  strip_prefix p s = Some rest -> s = (p ++ rest)%list.
Proof.
  induction p as [|a p IH]; intros s rest; cbn.
  - now intros [= ->].
  - destruct s as [|b s]; [discriminate|].
    destruct (Ascii.eqb_spec a b) as [->|]; [|discriminate].
    intros H. apply IH in H. now subst.
Qed.

Lemma star_sound {R} cls (k : list ascii -> option R) x : forall s,
  star cls s k = Some x ->
  exists run rest,
    s = (run ++ rest)%list /\ Forall (fun c => cls c = true) run
    /\ k rest = Some x.
Proof.
  induction s as [|c s IH]; cbn [star]; intros H.
  - exists [], []. auto.
  - destruct (cls c) eqn:Hc; [|exists [], (c :: s); auto].
    destruct (star cls s k) as [y|] eqn:Hs; [|exists [], (c :: s); auto].
    injection H as ->.
    destruct (IH eq_refl) as (run & rest & -> & Hrun & Hk).
    exists (c :: run), rest. auto.
Qed.

Lemma match_re_sound r : forall R s gs (k : list ascii -> list string -> option R) x,
  match_re r s gs k = Some x ->
  exists rest gs', matches r s rest gs gs' /\ k rest gs' = Some x.
Proof.
  induction r as [l|cls|cls|r IH|r IH|r1 IH1 r2 IH2];
    intros R s gs k x H; cbn [match_re matches] in *.
  - destruct (strip_prefix (chars l) s) as [rest|] eqn:Hp; [|discriminate].
    apply strip_prefix_sound in Hp. eauto.
  - apply star_sound in H as (run & rest & -> & Hrun & Hk).
    exists rest, gs. eauto.
  - destruct s as [|c s]; [discriminate|].
    destruct (cls c) eqn:Hc; [|discriminate].
    apply star_sound in H as (run & rest & -> & Hrun & Hk).
    exists rest, gs. split; [|exact Hk].
    exists (c :: run). repeat split; auto. discriminate.
  - destruct (match_re r s gs k) as [y|] eqn:Hm.
    + injection H as ->. apply IH in Hm as (rest & gs' & Hm & Hk).
      exists rest, gs'. auto.
    + exists s, gs. auto.
  - apply IH in H as (rest & g & Hm & Hk).
    exists rest, (g ++ [text (consumed s rest)])%list. eauto.
  - apply IH1 in H as (mid & g & Hm1 & H).
    apply IH2 in H as (rest & gs' & Hm2 & Hk).
    exists rest, gs'. eauto.
Qed.

Lemma match_here_sound r s rest gs :
  match_here r s = Some (rest, gs) -> matches r s rest [] gs.
Proof.
  unfold match_here. intros H.
  apply match_re_sound in H as (rest' & gs' & Hm & [= -> ->]). exact Hm.
Qed.

(** Every match that [finditer] reports is a match of the pattern at some
    position of the text. *)
Lemma finditer_sound r gs : forall s skip,
  In gs (finditer_from r skip s) ->
  exists before rest after,
    s = (before ++ rest)%list /\ matches r rest after [] gs.
Proof.
  induction s as [|c s IH]; intros skip; cbn [finditer_from]; [intros []|].
  assert (Hlater : forall n, In gs (finditer_from r n s) ->
            exists before rest after,
              (c :: s) = (before ++ rest)%list /\ matches r rest after [] gs).
  { intros n Hin. apply IH in Hin as (before & rest & after & -> & Hm).
    exists (c :: before), rest, after. auto. }
  destruct skip as [|n]; [|apply Hlater].
  destruct (match_here r (c :: s)) as [[rest gs0]|] eqn:Hm; [|apply Hlater].
  intros [<-|Hin]; [|eapply Hlater; exact Hin].
  apply match_here_sound in Hm. exists [], (c :: s), rest. auto.
Qed.

Lemma chars_text l : chars (text l) = l.
Proof. apply list_ascii_of_string_of_list_ascii. Qed.

Lemma app_shift {A} (a t b u : list A) :
  t = (b ++ u)%list -> (a ++ t)%list = ((a ++ b) ++ u)%list.
Proof. intros ->. apply app_assoc. Qed.

Lemma matches_case_reference s rest gs :
  matches test_case_reference s rest [] gs ->
  exists before name after,
    gs = [text name] /\ name <> []
    /\ Forall (fun c => is_case_name c = true) name
    /\ s = (before ++ chars dq ++ name ++ chars dq ++ after)%list.
Proof.
  unfold test_case_reference. cbn [matches]. intros H.
  repeat match goal with
         | H : exists _, _ |- _ => destruct H
         | H : _ /\ _ |- _ => destruct H
         | H : _ \/ _ |- _ => destruct H
         end;
    subst;
    match goal with
    | Hc : Forall (fun c => is_case_name c = true) ?run |- _ =>
        eexists; exists run; eexists
    end;
    (split; [cbn [app]; now rewrite consumed_app|]);
    (split; [assumption|]); (split; [assumption|]);
    repeat first [ refine (eq_refl : _ = ([] ++ _)%list) | apply app_shift ].
Qed.

(** X11. Every automation case that discovery returns is a well-formed
    name (not empty; letters, digits, underscores, dots and hyphens only)
    that stands between double quotes in the text of one of the files that
    the pattern [test/testautomation*.c] found under the source tree. *)
Theorem automation_cases_are_quoted_names fs source_path cases :
  get_automation_cases fs source_path = Ok cases ->
  Forall (fun name =>
            case_name_ok name
            /\ exists path text,
                 In path (glob fs (source_path // "test/testautomation*.c"))
                 /\ read_text fs path = Some text
                 /\ quoted_in name text)
         cases.
Proof.
  unfold get_automation_cases.
  set (all := glob fs (source_path // "test/testautomation*.c")).
  set (P := fun name =>
              case_name_ok name
              /\ exists path text,
                   In path all /\ read_text fs path = Some text
                   /\ quoted_in name text).
  assert (Hloop : forall paths acc,
             incl paths all -> Forall P acc ->
             get_automation_cases_loop fs paths acc = Ok cases ->
             Forall P cases).
  { induction paths as [|path paths IH]; intros acc Hincl Hacc;
      cbn [get_automation_cases_loop].
    - now intros [= <-].
    - destruct (read_text fs path) as [text_|] eqn:Hread; [|discriminate].
      apply IH; [intros p Hp; apply Hincl; now right|].
      apply Forall_app. split; [exact Hacc|].
      apply Forall_forall. intros name Hname.
      apply in_map_iff in Hname as (gs & <- & Hgs).
      unfold finditer in Hgs.
      apply finditer_sound in Hgs as (before & s & after & Htext & Hm).
      apply matches_case_reference in Hm
        as (before' & run & after' & -> & Hne & Hrun & ->).
      unfold group1. cbn [nth]. split.
      + split; [|now rewrite chars_text].
        destruct run; [contradiction | discriminate].
      + exists path, text_. split; [apply Hincl; now left|].
        split; [exact Hread|].
        exists (before ++ before')%list, after'.
        now rewrite Htext, chars_text, <- app_assoc. }
  apply Hloop; [apply incl_refl | constructor].
Qed.

(* ================================================================== *)
(** * The program: when it returns an exit code *)

Lemma get_automation_cases_named fs source_path cases :
  get_automation_cases fs source_path = Ok cases ->
  Forall case_name_ok cases.
Proof.
  unfold get_automation_cases.
  assert (Hloop : forall paths acc,
             Forall case_name_ok acc ->
             get_automation_cases_loop fs paths acc = Ok cases ->
             Forall case_name_ok cases).
  { induction paths as [|path paths IH]; intros acc Hacc;
      cbn [get_automation_cases_loop].
    - now intros [= <-].
    - destruct (read_text fs path) as [text_|] eqn:Hread; [|discriminate].
      apply IH. apply Forall_app. split; [exact Hacc|].
      apply Forall_forall. intros name Hname.
      apply in_map_iff in Hname as (gs & <- & Hgs).
      unfold finditer in Hgs.
      apply finditer_sound in Hgs as (before & s & after & Htext & Hm).
      apply matches_case_reference in Hm
        as (before' & run & after' & -> & Hne & Hrun & ->).
      unfold group1. cbn [nth]. split; [|now rewrite chars_text].
      destruct run; [contradiction | discriminate]. }
  apply Hloop. constructor.
Qed.

Lemma filter_cases_incl f cases : incl (filter_cases f cases) cases.
Proof.
  unfold filter_cases. destruct f as [f|]; [|apply incl_refl].
  destruct (truthy (Some f)); [|apply incl_refl].
  intros c Hc. now apply filter_In in Hc as [Hc _].
Qed.

(** The automation cases that a pipeline leaves in the tables are
    well-formed names. *)
Lemma pipeline_cases_named args fs t :
  pipeline args fs = Ok t ->
  forall tag cases,
    Dict.get tag (TAG_AUTOMATION_CASES t) = Some cases ->
    Forall case_name_ok cases.
Proof.
  unfold pipeline.
  assert (Hloop : forall tags t0,
             (forall tag cases,
                 Dict.get tag (TAG_AUTOMATION_CASES t0) = Some cases ->
                 Forall case_name_ok cases) ->
             pipeline_loop args fs tags t0 = Ok t ->
             forall tag cases,
               Dict.get tag (TAG_AUTOMATION_CASES t) = Some cases ->
               Forall case_name_ok cases).
  { induction tags as [|tag0 tags IH]; intros t0 H0 H.
    - now injection H as <-.
    - apply pipeline_loop_cons in H as (t1 & Hstep & Hrest).
      apply (IH t1); [|exact Hrest].
      apply pipeline_step_ok in Hstep
        as (h & major & minor & micro & tests & found
            & _ & _ & _ & _ & _ & Hfound & ->).
      cbn [TAG_AUTOMATION_CASES]. intros tag cases. rewrite get_set.
      destruct (String.eqb tag tag0); [|apply H0].
      intros [= <-]. apply get_automation_cases_named in Hfound.
      rewrite Forall_forall in *. intros c Hc.
      apply Hfound. now apply filter_cases_incl in Hc. }
  intros H. eapply Hloop; [|exact H].
  intros tag cases. discriminate.
Qed.

Lemma case_name_has_no_nul name : case_name_ok name -> has_nul name = false.
Proof.
  intros [_ H]. induction name as [|c name IH]; [reflexivity|].
  cbn [chars list_ascii_of_string] in H. inversion H as [|? ? Hc Hrest]; subst.
  cbn [has_nul]. rewrite (IH Hrest), orb_false_r.
  destruct (Ascii.eqb_spec c "000") as [->|]; [discriminate Hc | reflexivity].
Qed.

Lemma malformed_filter cmd c :
  malformed cmd = false -> has_nul c = false ->
  malformed (cmd ++ ["--filter"; c])%list = false.
Proof.
  intros Hcmd Hc. destruct cmd as [|a cmd]; [discriminate|].
  change (existsb has_nul ((a :: cmd) ++ ["--filter"; c])%list = false).
  change (existsb has_nul (a :: cmd) = false) in Hcmd.
  rewrite existsb_app, Hcmd. cbn. now rewrite Hc.
Qed.

Lemma get_in_items {V} k (v : V) d :
  Dict.get k d = Some v -> In (k, v) (Dict.items d).
Proof.
  unfold Dict.items. induction d as [|[k' v'] d IH]; cbn; [discriminate|].
  destruct (String.eqb_spec k k') as [->|]; [intros [= ->]; now left|].
  intros H. right. now apply IH.
Qed.

(** X6. The program returns an exit code.  When the pipeline succeeds, the
    environment of the script has a PATH, every command can be started (the
    commands of the descriptors name a program and hold no null character,
    and the system starts every program), no other tag is above the DUT's
    version and, in automation mode, at least one automation case is known,
    [main] returns, with exit code 0 or 1: under these conditions no
    exception escapes and no loop runs for ever, whatever the test programs
    do once started. *)
Theorem main_returns_an_exit_code args fs t w :
  pipeline args fs = Ok t ->
  Dict.get "PATH" (environ w) <> None ->
  commands_well_formed t ->
  programs_start w ->
  (forall tag, In tag (other_tags args) -> in_order args t tag) ->
  (testautomation_mode args = true -> all_automation_cases t <> []) ->
  exists code w',
    main args fs w = Returned code w' /\ (code = 0 \/ code = 1).
Proof.
  intros Hp Hpath Hform Hstart Horder Hcases.
  pose proof Hp as Hentries. unfold pipeline in Hentries.
  apply has_entries_loop in Hentries as [Hentries _].
  unfold main. unfold bind at 1. rewrite Hp. cbn [lift].
  assert (Henv : exists env, child_environment args t w = Returned env w).
  { unfold child_environment.
    destruct (Hentries (dut_tag args)) as (Hpref & _);
      [apply in_or_app; right; now left|].
    unfold Dict.lookup at 1. rewrite Hpref. cbn [exc_bind].
    unfold Dict.lookup. rewrite !get_set_other by discriminate.
    match goal with
    | |- context [match ?x with Some _ => _ | None => _ end] =>
        destruct x eqn:E; [|exfalso; apply Hpath; exact E]
    end.
    cbn [exc_bind lift]. now eexists. }
  destruct Henv as [env Henv]. unfold bind at 1. rewrite Henv.
  assert (Hengine : triple programs_start (engine args t env)
                           (fun _ => True) (fun _ => False)).
  { apply triple_engine with (C := fun cmd => malformed cmd = false).
    - intros cmd env' Hcmd. apply triple_run_starts; [|exact Hcmd|auto].
      intros w0 w1 Hos H n c e. rewrite Hos. apply H.
    - exact Hentries.
    - intros tag tests name cmd _ Ht Hin. exact (Hform tag tests name cmd Ht Hin).
    - intros tag tests cmd cases c _ Ht Hcmd Hc Hin.
      apply malformed_filter.
      + apply (Hform tag tests "testautomation" cmd Ht).
        now apply get_in_items.
      + apply case_name_has_no_nul.
        pose proof (pipeline_cases_named args fs t Hp tag cases Hc) as Hn.
        rewrite Forall_forall in Hn. now apply Hn. }
  specialize (Hengine w Hstart). unfold bind at 1.
  destruct (engine args t env w) as [st w1|e w1|] eqn:He;
    [|destruct Hengine as [_ []]|contradiction].
  destruct (report_returns args t st w1) as [w2 Hr].
  - exact Hcases.
  - intros tag Hin. destruct (Horder tag Hin) as (v & _ & Hv & _). eauto.
  - intros tag Hin. unfold engine in He.
    eapply compare_loop_rows; [exact He | auto | now right].
  - unfold bind. rewrite Hr. unfold ret, exit_code. do 2 eexists.
    split; [reflexivity|]. destruct (success st); auto.
Qed.

(* ================================================================== *)
(** * Reading the version header *)

Lemma finditer_unmatched r l : forall s,
  (forall c rest, In c l -> match_here r (c :: rest) = None) ->
  finditer_from r 0 (l ++ s) = finditer_from r 0 s.
Proof.
  induction l as [|c l IH]; intros s Hl; [reflexivity|].
  cbn [app finditer_from]. rewrite Hl by (now left).
  apply IH. intros c' rest Hc. apply Hl. now right.
Qed.

Lemma no_constant_without_hash name c rest :
  c <> "#"%char -> match_here (version_constant name) (c :: rest) = None.
Proof.
  intros Hc. unfold match_here, version_constant. cbn [match_re].
  change (chars "#define") with ("#"%char :: chars "define").
  cbn [strip_prefix].
  destruct (Ascii.eqb_spec "#" c); [congruence | reflexivity].
Qed.

Lemma digit_is_no_space c : is_digit c = true -> is_space c = false.
Proof.
  unfold is_digit, in_range, is_space.
  change (nat_of_ascii "0") with 48%nat. change (nat_of_ascii "9") with 57%nat.
  generalize (nat_of_ascii c). intros n H.
  apply andb_prop in H as [H1 H2].
  apply Nat.leb_le in H1. apply Nat.leb_le in H2.
  destruct (Nat.leb_spec 9 n), (Nat.leb_spec n 13), (Nat.leb_spec 28 n),
    (Nat.leb_spec n 32), (Nat.eqb_spec n 133), (Nat.eqb_spec n 160);
    cbn; try reflexivity; lia.
Qed.

Lemma match_version_constant name sp1 sp2 digits after :
  sp1 <> [] -> Forall (fun c => is_space c = true) sp1 ->
  stops_class is_space (chars name) -> name <> EmptyString ->
  sp2 <> [] -> Forall (fun c => is_space c = true) sp2 ->
  digits <> [] -> Forall (fun c => is_digit c = true) digits ->
  stops_class is_digit after ->
  match_here (version_constant name)
    (chars "#define" ++ sp1 ++ chars name ++ sp2 ++ digits ++ after)
  = Some (after, [text digits]).
Proof.
  intros Hne1 Hsp1 Hname Hne Hne2 Hsp2 Hned Hdigits Hafter.
  destruct sp1 as [|c1 l1]; [contradiction|].
  destruct sp2 as [|c2 l2]; [contradiction|].
  destruct digits as [|d ds]; [contradiction|].
  unfold match_here, version_constant.
  apply (match_lit _ _ "#define").
  apply (match_plus _ _ is_space _ c1 l1); [exact Hsp1 | |].
  { destruct name as [|n0 name']; [contradiction | exact Hname]. }
  apply (match_lit _ _ name).
  apply (match_plus _ _ is_space _ c2 l2); [exact Hsp2 | |].
  { cbn [app stops_class]. inversion Hdigits; subst.
    now apply digit_is_no_space. }
  inversion Hdigits as [|? ? Hd Hds]; subst.
  cbn [match_re app]. rewrite Hd.
  apply star_run; [exact Hds | exact Hafter|].
  change (d :: ds ++ after)%list with ((d :: ds) ++ after)%list.
  now rewrite consumed_app.
Qed.

Lemma finditer_no_match_inside r l : forall s,
  (forall pre suf, l = (pre ++ suf)%list -> suf <> [] ->
                   match_here r (suf ++ s) = None) ->
  finditer_from r 0 (l ++ s) = finditer_from r 0 s.
Proof.
  induction l as [|c l IH]; intros s Hl; [reflexivity|].
  pose proof (Hl [] (c :: l) eq_refl ltac:(discriminate)) as Hc.
  cbn [app finditer_from] in *. rewrite Hc.
  apply IH. intros pre suf -> Hsuf. now apply (Hl (c :: pre)).
Qed.

Lemma hash_is_no_space : is_space "#" = false.
Proof. reflexivity. Qed.

Lemma starts_with {A} (c : A) (s l x : list A) :
  (c :: s)%list = (l ++ x)%list -> l <> [] -> exists l', l = c :: l'.
Proof.
  destruct l as [|c' l']; [contradiction|]. cbn. intros [= -> _] _. eauto.
Qed.

(** No match of the pattern of a constant begins in a text that does not
    hold the name of the constant, when a [#define] follows that text. *)
Lemma no_constant_before name before suf pre s :
  before = (pre ++ suf)%list -> suf <> [] ->
  (forall a b, before <> (a ++ chars name ++ b)%list) ->
  name <> EmptyString ->
  Forall (fun c => c <> "#"%char) (chars name) ->
  match_here (version_constant name) (suf ++ "#"%char :: s) = None.
Proof.
  intros Hbefore Hsuf Hfree Hne Hname.
  destruct (match_here (version_constant name) (suf ++ "#"%char :: s))
    as [[rest gs]|] eqn:Hm; [exfalso|reflexivity].
  apply match_here_sound in Hm. unfold version_constant in Hm.
  cbn [matches] in Hm.
  destruct Hm as (mid1 & g1 & [Hlit _] & mid2 & g2
                  & (run1 & Hrun1 & _ & Hspaces & _)
                  & mid3 & g3 & [Hlit2 _] & _).
  subst mid1 mid2.
  assert (Hnohash : forall x y, chars name <> (x ++ "#"%char :: y)%list).
  { intros x y Heq. rewrite Heq in Hname.
    apply Forall_app in Hname as [_ Hname].
    inversion Hname; subst. congruence. }
  assert (Hnospace : forall x y, run1 <> (x ++ "#"%char :: y)%list).
  { intros x y Heq. rewrite Heq in Hspaces.
    apply Forall_app in Hspaces as [_ Hspaces].
    inversion Hspaces; subst. discriminate. }
  rewrite app_assoc in Hlit.
  apply app_eq_app in Hlit as [l [[Hs Hrest]|[HP Hrest]]].
  - (* the name begins inside [suf] *)
    apply app_eq_app in Hrest as [l2 [[Hl Hmid]|[Hl Hmid]]].
    + destruct l2 as [|c2 l2'].
      * apply (Hfree (pre ++ chars "#define" ++ run1)%list []).
        rewrite Hbefore, Hs, Hl, !app_nil_r, <- !app_assoc. reflexivity.
      * cbn in Hmid. injection Hmid as <- _. exact (Hnohash _ _ Hl).
    + apply (Hfree (pre ++ chars "#define" ++ run1)%list l2).
      rewrite Hbefore, Hs, Hl, <- !app_assoc. reflexivity.
  - (* [#define] and the blanks reach beyond [suf] *)
    destruct l as [|c l'].
    + cbn in Hrest. apply (Hnohash [] mid3).
      destruct (chars name) as [|n0 name'] eqn:Hchars.
      * destruct name; [contradiction | discriminate].
      * cbn in Hrest. injection Hrest as <- _.
        inversion Hname; subst. congruence.
    + cbn in Hrest. injection Hrest as <- _.
      apply app_eq_app in HP as [l3 [[Hd Hl]|[Hs Hrun]]].
      * destruct l3 as [|c3 l3'].
        -- cbn in Hl. exact (Hnospace [] l' (eq_sym Hl)).
        -- cbn in Hl. injection Hl as <- _.
           destruct suf as [|c0 suf']; [contradiction|].
           cbn in Hd. injection Hd as _ Hd.
           pose proof (in_or_app suf' ("#"%char :: l3') "#"%char
                         (or_intror (or_introl eq_refl))) as Hin.
           rewrite <- Hd in Hin. cbn in Hin. intuition discriminate.
      * exact (Hnospace _ _ Hrun).
Qed.

Lemma prefix_app sub rest : String.prefix sub (sub ++ rest) = true.
Proof.
  induction sub as [|c sub IH]; cbn; [now destruct rest|].
  destruct (ascii_dec c c); [exact IH | contradiction].
Qed.

Lemma text_app a b : text (a ++ b) = (text a ++ text b)%string.
Proof. unfold text. induction a as [|c a IH]; cbn; [|rewrite IH]; reflexivity. Qed.

Lemma contains_occurrence sub a b :
  contains sub (text (a ++ chars sub ++ b)) = true.
Proof.
  induction a as [|c a IH].
  - cbn [app]. rewrite text_app, text_chars.
    destruct (sub ++ text b)%string eqn:E; cbn [contains]; rewrite <- E;
      now rewrite prefix_app.
  - change (text ((c :: a) ++ chars sub ++ b))
      with (String c (text (a ++ chars sub ++ b))).
    cbn [contains]. rewrite IH. now destruct (String.prefix _ _).
Qed.

(** X12. Reading a version constant.  For a constant whose name is not
    empty, holds no [#] and does not begin with white space (as the three
    names that the script asks for): when the header holds [#define],
    white space, the name of the constant, white space and a run of digits
    that ends the text or is followed by something that is no digit, and
    the name of the constant does not occur in the text before this
    [#define], the constant is read from the whole run of digits, whatever
    the text before and after holds otherwise: as the number that the run
    writes when it has no more than 4300 digits, and with the [ValueError]
    of [int] when it has more. *)
Theorem version_constant_is_read name h before sp1 sp2 digits after :
  chars h
  = (before ++ chars "#define" ++ sp1 ++ chars name ++ sp2
       ++ digits ++ after)%list ->
  contains name (text before) = false ->
  name <> EmptyString -> stops_class is_space (chars name) ->
  Forall (fun c => c <> "#"%char) (chars name) ->
  sp1 <> [] -> Forall (fun c => is_space c = true) sp1 ->
  sp2 <> [] -> Forall (fun c => is_space c = true) sp2 ->
  digits <> [] -> Forall (fun c => is_digit c = true) digits ->
  stops_class is_digit after ->
  parse_constant name h
  = if Z.of_nat (List.length digits) <=? 4300 then Ok (int_of_digits digits)
    else Raise (ValueError
                  "Exceeds the limit (4300 digits) for integer string conversion").
Proof.
  intros Hh Hnot Hne Hname Hnohash Hne1 Hsp1 Hne2 Hsp2 Hned Hdigits Hafter.
  assert (Hfree : forall a b, before <> (a ++ chars name ++ b)%list).
  { intros a b ->. now rewrite contains_occurrence in Hnot. }
  unfold parse_constant, finditer. rewrite Hh.
  pose proof (match_version_constant name sp1 sp2 digits after
                Hne1 Hsp1 Hname Hne Hne2 Hsp2 Hned Hdigits Hafter) as Hm.
  change (chars "#define") with ("#"%char :: chars "define") in *.
  rewrite finditer_no_match_inside.
  2:{ intros pre suf Hbefore Hsuf. cbn [app].
      eapply no_constant_before; eauto. }
  cbn [app finditer_from] in *. rewrite Hm.
  unfold group1. cbn [nth]. rewrite chars_text.
  unfold py_int, max_str_digits. rewrite Z.ltb_antisym.
  now destruct (Z.of_nat (List.length digits) <=? 4300).
Qed.

(* ================================================================== *)
(** * Extraction of automation cases: what a source file gives *)

Lemma match_opt_none {R} (k : list ascii -> list string -> option R) x
  l r s g :
  strip_prefix (chars l) s = None ->
  match_re r s g k = Some x ->
  match_re (Opt (Lit l) $ r)%re s g k = Some x.
Proof. intros Hl Hr. cbn [match_re]. now rewrite Hl. Qed.

Lemma space_is_no_ident c : is_space c = true -> is_ident c = false.
Proof.
  destruct c as [[] [] [] [] [] [] [] []]; intros H;
    first [reflexivity | discriminate H].
Qed.

Lemma ident_is_no_space c : is_ident c = true -> is_space c = false.
Proof.
  intros H. destruct (is_space c) eqn:E; [|reflexivity].
  apply space_is_no_ident in E. congruence.
Qed.

Lemma stops_behind_blank cls run s :
  (forall c, is_space c = true -> cls c = false) ->
  blank run -> stops_class cls s -> stops_class cls (run ++ s).
Proof.
  intros Hcls Hrun Hs. destruct run as [|c run]; [exact Hs|].
  inversion Hrun; subst. cbn. auto.
Qed.

(** The pattern on a declaration: it takes the whole declaration and
    captures the name of the case. *)
Lemma match_declaration d rest :
  declaration_ok d ->
  match_here test_case_reference (declaration_text d ++ rest)
  = Some (rest, [case_name d]).
Proof.
  destruct d as [c s1 s2 s3 id1 s4 s5 s6 id2 s7 s8 name s9].
  unfold declaration_ok, declaration_text. cbn [with_const sp_static sp_const
    sp_type reference_ident sp_ident sp_equals sp_brace function_ident
    sp_function sp_comma case_name sp_name].
  intros (H1 & H2 & H3 & Hid1 & H4 & H5 & H6 & Hid2 & H7 & H8 & Hname & H9).
  rewrite <- !app_assoc.
  unfold match_here, test_case_reference.
  apply (match_lit _ _ "static").
  assert (Hhead : forall r tail,
             match_re r tail [] (fun rest0 gs => Some (rest0, gs))
             = Some (rest, [name]) ->
             match_re (Star is_space $ Opt (Lit "const") $ Star is_space
                       $ Lit reference_type $ r)%re
                      (s1 ++ (if c then chars "const" else []) ++ s2
                          ++ chars reference_type ++ tail) []
                      (fun rest0 gs => Some (rest0, gs))
             = Some (rest, [name])).
  { intros r tail Hk. destruct c.
    - apply (match_star _ _ is_space _ s1); [exact H1 | reflexivity|].
      apply (match_opt_lit _ _ "const").
      apply (match_star _ _ is_space _ s2); [exact H2 | reflexivity|].
      apply (match_lit _ _ reference_type). exact Hk.
    - cbn [app]. rewrite app_assoc.
      apply (match_star _ _ is_space _ (s1 ++ s2));
        [apply Forall_app; now split | reflexivity|].
      apply match_opt_none; [reflexivity|].
      apply (match_star _ _ is_space _ []); [constructor | reflexivity|].
      apply (match_lit _ _ reference_type). exact Hk. }
  destruct id1 as [|i1 id1]; [now destruct Hid1|].
  destruct id2 as [|i2 id2]; [now destruct Hid2|].
  assert (Hi1 : is_space i1 = false)
    by (apply ident_is_no_space; destruct Hid1 as [_ H]; now inversion H).
  assert (Hi2 : is_space i2 = false)
    by (apply ident_is_no_space; destruct Hid2 as [_ H]; now inversion H).
  apply Hhead.
  apply (match_star _ _ is_space _ s3); [exact H3 | exact Hi1|].
  cbn [app].
  apply (match_plus _ _ is_ident _ i1 id1); [exact (proj2 Hid1)| |].
  { apply stops_behind_blank; [exact space_is_no_ident | exact H4
                              | reflexivity]. }
  apply (match_star _ _ is_space _ s4); [exact H4 | reflexivity|].
  apply (match_lit _ _ "=").
  apply (match_star _ _ is_space _ s5); [exact H5 | reflexivity|].
  apply (match_lit _ _ "{").
  apply (match_star _ _ is_space _ s6); [exact H6 | exact Hi2|].
  cbn [app].
  apply (match_plus _ _ is_ident _ i2 id2); [exact (proj2 Hid2)| |].
  { apply stops_behind_blank; [exact space_is_no_ident | exact H7
                              | reflexivity]. }
  apply (match_star _ _ is_space _ s7); [exact H7 | reflexivity|].
  apply (match_lit _ _ ",").
  apply (match_star _ _ is_space _ s8); [exact H8 | reflexivity|].
  apply (match_lit _ _ dq).
  destruct name as [|n name]; [now destruct Hname|].
  change (chars (String n name)) with (n :: chars name). cbn [app].
  apply (match_group_plus _ _ is_case_name _ n (chars name));
    [exact (proj2 Hname) | reflexivity|].
  apply (match_lit _ _ dq).
  apply (match_star _ _ is_space _ s9); [exact H9 | reflexivity|].
  apply (match_lit_end _ _ ",").
  cbn [app]. change (n :: chars name) with (chars (String n name)).
  now rewrite text_chars.
Qed.

Lemma declaration_not_empty d : declaration_text d <> [].
Proof. unfold declaration_text. discriminate. Qed.

(** Where a match of the pattern begins: with [static], white space and
    [const], the type of a test case reference, white space and an
    identifier. *)
Lemma match_begins s rest gs :
  match_here test_case_reference s = Some (rest, gs) ->
  exists between sp i tail,
    s = (chars "static" ++ between ++ chars reference_type
           ++ sp ++ i :: tail)%list
    /\ Forall (fun c => c <> "S"%char /\ c <> "a"%char) between
    /\ blank sp /\ is_ident i = true.
Proof.
  intros H. apply match_here_sound in H.
  unfold test_case_reference in H. cbn [matches] in H.
  destruct H as (mid1 & g1 & [Hstatic _] & mid2 & g2 & (run1 & Hrun1 & Hsp1 & _)
                 & mid3 & g3 & Hopt & mid4 & g4 & (run2 & Hrun2 & Hsp2 & _)
                 & mid5 & g5 & [Htype _]
                 & mid6 & g6 & (run3 & Hrun3 & Hsp3 & _)
                 & mid7 & g7 & (run4 & Hrun4 & Hne4 & Hid4 & _) & _).
  assert (Hblank : forall run, Forall (fun c => is_space c = true) run ->
                     Forall (fun c => c <> "S"%char /\ c <> "a"%char) run).
  { intros run. apply Forall_impl. intros c Hc.
    split; intros ->; discriminate Hc. }
  destruct run4 as [|i run4]; [contradiction|].
  inversion Hid4 as [|? ? Hi _]; subst s mid1 mid3 mid4 mid5 mid6.
  cbn [app] in *.
  destruct Hopt as [[Hconst _]|[Hskip _]].
  - subst mid2.
    exists (run1 ++ chars "const" ++ run2)%list, run3, i, (run4 ++ mid7)%list.
    split; [now rewrite <- !app_assoc|].
    split; [|split; [exact Hsp3 | exact Hi]].
    rewrite !Forall_app. repeat split; auto.
    repeat constructor; discriminate.
  - subst mid2.
    exists (run1 ++ run2)%list, run3, i, (run4 ++ mid7)%list.
    split; [now rewrite <- !app_assoc|].
    split; [|split; [exact Hsp3 | exact Hi]].
    rewrite Forall_app. auto.
Qed.

Lemma first_position {A} (a : A) l1 : forall r1 l2 r2,
  ~ In a l1 -> ~ In a l2 ->
  (l1 ++ a :: r1)%list = (l2 ++ a :: r2)%list -> l1 = l2 /\ r1 = r2.
Proof.
  induction l1 as [|c l1 IH]; intros r1 l2 r2 H1 H2 H.
  - destruct l2 as [|c2 l2]; [now injection H as ->|].
    injection H as <- _. exfalso. apply H2. now left.
  - destruct l2 as [|c2 l2].
    + injection H as -> _. exfalso. apply H1. now left.
    + injection H as <- H. apply IH in H as [-> ->]; [auto| |].
      * intros Hin. apply H1. now right.
      * intros Hin. apply H2. now right.
Qed.

Lemma unique_position {A} (a : A) l1 : forall r1 l2 r2,
  ~ In a l1 -> ~ In a r1 ->
  (l1 ++ a :: r1)%list = (l2 ++ a :: r2)%list -> l1 = l2.
Proof.
  induction l1 as [|c l1 IH]; intros r1 l2 r2 H1 Hr H.
  - destruct l2 as [|c2 l2]; [reflexivity|].
    injection H as _ H. exfalso. apply Hr. rewrite H.
    apply in_or_app. right. now left.
  - destruct l2 as [|c2 l2].
    + injection H as -> _. exfalso. apply H1. now left.
    + injection H as <- H. f_equal. apply (IH r1 l2 r2); [|exact Hr|exact H].
      intros Hin. apply H1. now right.
Qed.

Lemma split_first (a : ascii) l :
  In a l -> exists u v, l = (u ++ a :: v)%list /\ ~ In a u.
Proof.
  induction l as [|c l IH]; [intros []|].
  destruct (ascii_dec c a) as [->|Hne].
  - intros _. exists [], l. split; [reflexivity | intros []].
  - intros [Hc|Hin]; [contradiction|].
    destruct (IH Hin) as (u & v & -> & Hu).
    exists (c :: u), v. split; [reflexivity|].
    intros [Hc|Hc]; [contradiction | now apply Hu].
Qed.

Lemma not_in_forall {A} (a : A) (P : A -> Prop) l :
  Forall P l -> ~ P a -> ~ In a l.
Proof. intros Hl Ha Hin. rewrite Forall_forall in Hl. exact (Ha (Hl a Hin)). Qed.

Lemma lstrip_blank sp c l :
  blank sp -> is_space c = false -> lstrip_chars (sp ++ c :: l) = c :: l.
Proof.
  intros Hsp Hc. induction Hsp as [|x sp Hx _ IH]; cbn [app lstrip_chars].
  - now rewrite Hc.
  - now rewrite Hx.
Qed.

Lemma lstrip_app x y :
  lstrip_chars x <> [] -> lstrip_chars (x ++ y) = (lstrip_chars x ++ y)%list.
Proof.
  induction x as [|a x IH]; cbn [app lstrip_chars]; [contradiction|].
  destruct (is_space a); [exact IH | reflexivity].
Qed.

(** Behind a mention of the type that a stopper follows, no white space
    and identifier can come. *)
Lemma stopper_blocks behind rest sp i tail :
  stopper (lstrip_chars behind) = true ->
  (behind ++ rest)%list = (sp ++ i :: tail)%list ->
  blank sp -> is_ident i = true -> False.
Proof.
  intros Hstop Heq Hsp Hi.
  apply (f_equal lstrip_chars) in Heq.
  rewrite (lstrip_blank sp i tail Hsp (ident_is_no_space i Hi)) in Heq.
  destruct (lstrip_chars behind) as [|c l] eqn:E; [discriminate Hstop|].
  rewrite lstrip_app in Heq by (rewrite E; discriminate).
  rewrite E in Heq. injection Heq as -> _. cbn in Hstop.
  now rewrite Hi in Hstop.
Qed.

Lemma free_of_declarations_suffix pre : forall suf,
  free_of_declarations (pre ++ suf) = true -> free_of_declarations suf = true.
Proof.
  induction pre as [|c pre IH]; intros suf H; [exact H|].
  cbn [app free_of_declarations] in H.
  apply andb_prop in H as [_ H]. now apply IH.
Qed.

(** Every mention of the type in a text that is free of declarations has a
    stopper behind it. *)
Lemma free_of_declarations_sound front behind :
  free_of_declarations (front ++ chars reference_type ++ behind) = true ->
  stopper (lstrip_chars behind) = true.
Proof.
  intros H. apply free_of_declarations_suffix in H.
  change (chars reference_type)
    with ("S"%char :: chars "DLTest_TestCaseReference") in H.
  cbn [app free_of_declarations] in H.
  change ("S"%char :: chars "DLTest_TestCaseReference" ++ behind)
    with (chars reference_type ++ behind)%list in H.
  rewrite strip_prefix_app in H. now apply andb_prop in H as [H _].
Qed.

(** No match of the pattern begins in a text that is free of declarations,
    when a declaration follows that text. *)
Lemma no_match_before suf between tail :
  suf <> [] ->
  free_of_declarations suf = true ->
  Forall (fun c => c <> "S"%char) between ->
  match_here test_case_reference
    (suf ++ chars "static" ++ between ++ chars reference_type ++ tail)
  = None.
Proof.
  intros Hsuf Hfree Hbetween.
  destruct (match_here test_case_reference _) as [[rest gs]|] eqn:Hm;
    [exfalso|reflexivity].
  apply match_begins in Hm
    as (between' & sp & i & tail' & Heq & Hbetween' & Hsp & Hi).
  assert (HS : ~ In "S"%char (chars "static" ++ between')).
  { intros Hin. apply in_app_or in Hin as [Hin|Hin].
    - cbn in Hin. intuition discriminate.
    - revert Hin. apply (not_in_forall _ _ _ Hbetween'). intros [H _]. auto. }
  change (chars reference_type)
    with ("S"%char :: chars "DLTest_TestCaseReference") in Heq.
  destruct (in_dec ascii_dec "S"%char suf) as [Hin|Hnot].
  - (* the type would begin inside [suf] *)
    apply split_first in Hin as (u & v & -> & Hu).
    rewrite <- app_assoc in Heq. cbn [app] in Heq.
    rewrite (app_assoc (chars "static") between') in Heq.
    apply first_position in Heq as [-> Heq]; [|exact Hu|exact HS].
    do 24 (destruct v as [|? v];
           [cbn in Heq; discriminate Heq
           |cbn [app] in Heq;
            change (chars "DLTest_TestCaseReference")
              with (list_ascii_of_string "DLTest_TestCaseReference") in Heq;
            cbn [list_ascii_of_string app] in Heq;
            injection Heq as -> Heq]).
    cbn [app] in Heq.
    apply (free_of_declarations_sound (chars "static" ++ between') v) in Hfree.
    exact (stopper_blocks _ _ _ _ _ Hfree Heq Hsp Hi).
  - (* the declaration would begin together with the match *)
    rewrite (app_assoc suf), (app_assoc (suf ++ chars "static")) in Heq.
    rewrite (app_assoc (chars "static") between') in Heq.
    apply first_position in Heq as [Heq _]; [| |exact HS].
    + change (chars "static") with (chars "st" ++ "a"%char :: chars "tic")%list
        in Heq.
      rewrite <- !app_assoc in Heq. cbn [app] in Heq.
      rewrite (app_assoc suf) in Heq. symmetry in Heq.
      apply unique_position in Heq.
      * apply (f_equal (@List.length ascii)) in Heq.
        rewrite length_app in Heq. destruct suf; [contradiction|].
        cbn in Heq. lia.
      * cbn. intuition discriminate.
      * intros Hin. cbn [chars list_ascii_of_string app] in Hin.
        destruct Hin as [H|[H|[H|Hin]]]; try discriminate H.
        revert Hin. apply (not_in_forall _ _ _ Hbetween'). intros [_ H]. auto.
    + intros Hin. apply in_app_or in Hin as [Hin|Hin];
        [apply in_app_or in Hin as [Hin|Hin]|].
      * contradiction.
      * cbn in Hin. intuition discriminate.
      * revert Hin. apply (not_in_forall _ _ _ Hbetween). auto.
Qed.

(** No match of the pattern begins in a text that is free of
    declarations. *)
Lemma no_match_in_free_text s :
  free_of_declarations s = true ->
  match_here test_case_reference s = None.
Proof.
  intros Hfree.
  destruct (match_here test_case_reference s) as [[rest gs]|] eqn:Hm;
    [exfalso|reflexivity].
  apply match_begins in Hm as (between & sp & i & tail & -> & _ & Hsp & Hi).
  rewrite app_assoc in Hfree.
  apply free_of_declarations_sound in Hfree.
  apply (stopper_blocks (sp ++ i :: tail) [] sp i tail Hfree);
    [apply app_nil_r | exact Hsp | exact Hi].
Qed.

Lemma declaration_begins d :
  declaration_ok d ->
  exists between tail,
    declaration_text d
    = (chars "static" ++ between ++ chars reference_type ++ tail)%list
    /\ Forall (fun c => c <> "S"%char) between.
Proof.
  intros (H1 & H2 & _).
  exists (sp_static d ++ (if with_const d then chars "const" else [])
            ++ sp_const d)%list.
  eexists. split.
  - unfold declaration_text. rewrite <- !app_assoc. reflexivity.
  - assert (Hblank : forall run, blank run ->
                       Forall (fun c => c <> "S"%char) run).
    { intros run. apply Forall_impl. intros c Hc ->. discriminate Hc. }
    rewrite !Forall_app. repeat split; auto.
    destruct (with_const d); repeat constructor; discriminate.
Qed.

(** What [finditer] yields on the text of a source file. *)
Lemma finditer_declarations after ds :
  Forall (fun item => free_of_declarations (fst item) = true
                      /\ declaration_ok (snd item)) ds ->
  free_of_declarations after = true ->
  finditer_from test_case_reference 0 (declarations_text ds after)
  = map (fun item => [case_name (snd item)]) ds.
Proof.
  intros Hds Hafter. induction Hds as [|[before d] ds [Hbefore Hd] _ IH];
    cbn [declarations_text map fst snd] in *.
  - rewrite <- (app_nil_r after). rewrite finditer_no_match_inside;
      [reflexivity|].
    intros pre suf -> _. rewrite app_nil_r.
    apply no_match_in_free_text.
    now apply (free_of_declarations_suffix pre).
  - rewrite finditer_no_match_inside.
    + rewrite (finditer_match test_case_reference (declaration_text d)
                 (declarations_text ds after) [case_name d]).
      * now rewrite IH.
      * apply declaration_not_empty.
      * now apply match_declaration.
    + intros pre suf -> Hsuf.
      destruct (declaration_begins d Hd) as (between & tail & -> & Hb).
      rewrite <- !app_assoc. apply no_match_before; [exact Hsuf| |exact Hb].
      now apply (free_of_declarations_suffix pre).
Qed.

(** C9. Extraction of automation cases.  When every file that the pattern
    [test/testautomation*.c] finds holds declarations of the shape
    [static const SDLTest_TestCaseReference IDENT = { FUNCTION, "NAME",],
    with any white space between the tokens, [const] written or not, and a
    non-empty NAME of letters, digits, dots, underscores and hyphens, and
    the text around the declarations does not look like the beginning of a
    declaration (where it mentions the type [SDLTest_TestCaseReference],
    no identifier follows, as in the declaration of an array of pointers
    to test cases), the extraction yields the NAME of every declaration,
    once, in the order of the files and of the text.  The example of the
    specification, the case [foo.bar-1] of one declaration, is an
    instance. *)
Theorem automation_case_extracted_once fs source_path (files : list SourceFile) :
  glob fs (source_path // "test/testautomation*.c")
  = map source_path_of files ->
  (forall f, In f files ->
     source_ok f
     /\ exists source,
          read_text fs (source_path_of f) = Some source
          /\ chars source = source_text f) ->
  get_automation_cases fs source_path = Ok (flat_map declared_cases files).
Proof.
  intros Hglob Hfiles. unfold get_automation_cases. rewrite Hglob.
  clear Hglob.
  assert (Hloop : forall acc,
             get_automation_cases_loop fs (map source_path_of files) acc
             = Ok (acc ++ flat_map declared_cases files)%list).
  { induction files as [|f files IH]; intros acc;
      cbn [map get_automation_cases_loop flat_map].
    - now rewrite app_nil_r.
    - destruct (Hfiles f) as ([Hds Hafter] & source & Hread & Hsource);
        [now left|].
      rewrite Hread, IH by (intros; apply Hfiles; now right).
      rewrite <- app_assoc. do 3 f_equal.
      unfold finditer. rewrite Hsource. unfold source_text.
      rewrite finditer_declarations by assumption.
      unfold declared_cases. rewrite map_map. reflexivity. }
  apply Hloop.
Qed.

(* ================================================================== *)
(** * [shlex]: splitting a command line into words *)

Lemma string_app_assoc (a b c : string) :
  ((a ++ b) ++ c = a ++ b ++ c)%string.
Proof. induction a as [|x a IH]; cbn; [reflexivity | now rewrite IH]. Qed.

Lemma string_app_nil_r (a : string) : (a ++ EmptyString)%string = a.
Proof. induction a as [|x a IH]; cbn; [reflexivity | now rewrite IH]. Qed.

Lemma push_text token c l :
  (push token c ++ text l)%string = (token ++ text (c :: l))%string.
Proof. unfold push. now rewrite string_app_assoc. Qed.

Lemma space_of_shlex_whitespace c :
  is_space c = false -> shlex_whitespace c = false.
Proof.
  destruct c as [[] [] [] [] [] [] [] []]; intros H;
    first [reflexivity | discriminate H].
Qed.

(** Inside quotes: the characters up to the closing quote are taken as they
    are. *)
Lemma read_token_quoted q l : forall rest esc token quoted,
  shlex_quotes q = true ->
  Forall (fun c => c <> q /\ (shlex_escapedquotes q = true -> c <> "\"%char)) l ->
  read_token (l ++ q :: rest) (Some q) esc token quoted
  = read_token rest (Some "a"%char) esc (token ++ text l) true.
Proof.
  intros rest esc token quoted Hq Hl. revert token quoted.
  assert (Hblank : Ascii.eqb q " " = false).
  { destruct (Ascii.eqb_spec q " ") as [->|]; [discriminate Hq | reflexivity]. }
  induction Hl as [|c l [Hc Hesc] _ IH]; intros token quoted.
  - cbn [app read_token]. rewrite Hblank, Hq, Ascii.eqb_refl.
    now rewrite string_app_nil_r.
  - cbn [app read_token]. rewrite Hblank, Hq.
    destruct (Ascii.eqb_spec c q) as [->|_]; [contradiction|].
    assert (Hno : shlex_escape c && shlex_escapedquotes q = false).
    { destruct (shlex_escapedquotes q); [|apply andb_false_r].
      rewrite andb_true_r. unfold shlex_escape.
      destruct (Ascii.eqb_spec c "\") as [->|]; [|reflexivity].
      now contradiction Hesc. }
    rewrite Hno, IH. now rewrite push_text.
Qed.

(** One piece of a word, read between tokens or inside a word. *)
Lemma read_piece p rest st esc token quoted :
  piece_ok p ->
  (st = " "%char /\ token = EmptyString) \/ st = "a"%char ->
  exists esc',
    read_token (piece_text p ++ rest) (Some st) esc token quoted
    = read_token rest (Some "a"%char) esc'
                 (token ++ text (piece_value p)) (quoted || piece_quoted p).
Proof.
  intros Hp Hst. destruct p as [c|c|l|l]; cbn [piece_ok] in Hp;
    cbn [piece_text piece_value piece_quoted].
  - destruct Hp as (Hsp & Hq & He & _).
    apply space_of_shlex_whitespace in Hsp.
    exists esc. rewrite orb_false_r.
    destruct Hst as [[-> ->]| ->]; cbn [app read_token];
      rewrite Hsp, Hq, He; reflexivity.
  - exists "a"%char. rewrite orb_false_r.
    destruct Hst as [[-> ->]| ->]; reflexivity.
  - exists esc. rewrite orb_true_r.
    assert (Hl : Forall (fun c => c <> "'"%char
                                  /\ (shlex_escapedquotes "'" = true
                                      -> c <> "\"%char)) l).
    { revert Hp. apply Forall_impl. intros c [_ Hc]. split; [exact Hc|].
      discriminate. }
    cbn [app]. rewrite <- app_assoc. cbn [app].
    rewrite <- (read_token_quoted "'" l rest esc token quoted eq_refl Hl).
    destruct Hst as [[-> ->]| ->]; reflexivity.
  - exists esc. rewrite orb_true_r.
    assert (Hl : Forall (fun c => c <> dquote
                                  /\ (shlex_escapedquotes dquote = true
                                      -> c <> "\"%char)) l).
    { revert Hp. apply Forall_impl. intros c (_ & Hc & He). auto. }
    cbn [app]. rewrite <- app_assoc. cbn [app].
    rewrite <- (read_token_quoted dquote l rest esc token quoted eq_refl Hl).
    destruct Hst as [[-> ->]| ->]; reflexivity.
Qed.

(** A word, read between tokens or inside a word. *)
Lemma read_word w : forall rest st esc token quoted,
  Forall piece_ok w -> w <> [] ->
  (st = " "%char /\ token = EmptyString) \/ st = "a"%char ->
  exists esc',
    read_token (word_text w ++ rest) (Some st) esc token quoted
    = read_token rest (Some "a"%char) esc'
                 (token ++ word_value w) (quoted || existsb piece_quoted w).
Proof.
  unfold word_text, word_value.
  induction w as [|p w IH]; intros rest st esc token quoted Hw Hne Hst;
    [contradiction|].
  inversion Hw as [|? ? Hp Hw']; subst.
  cbn [flat_map existsb]. rewrite <- app_assoc.
  destruct (read_piece p (flat_map piece_text w ++ rest) st esc token quoted
              Hp Hst) as [esc1 ->].
  rewrite text_app, <- string_app_assoc, orb_assoc.
  destruct w as [|p' w'].
  - exists esc1. cbn. now rewrite string_app_nil_r, orb_false_r.
  - apply IH; [exact Hw' | discriminate | now right].
Qed.

(** A word that stands for the empty string is written with quotes. *)
Lemma empty_word_is_quoted w :
  w <> [] -> word_value w = EmptyString -> existsb piece_quoted w = true.
Proof.
  destruct w as [|[c|c|l|l] w]; [contradiction| | | |]; intros _;
    unfold word_value; cbn; first [discriminate | reflexivity].
Qed.

(** White space between tokens is passed over. *)
Lemma read_gap g : forall rest esc,
  Forall (fun c => c = " "%char \/ c = "009"%char) g ->
  read_token (g ++ rest) (Some " "%char) esc EmptyString false
  = read_token rest (Some " "%char) esc EmptyString false.
Proof.
  intros rest esc Hg. induction Hg as [|c g [-> | ->] _ IH]; [reflexivity| |];
    cbn [app]; rewrite <- IH; reflexivity.
Qed.

(** The tokens of a command line, from a point between two tokens. *)
Lemma shlex_tokens_words more : forall g w fuel,
  (List.length more + 1 < fuel)%nat ->
  Forall (fun c => c = " "%char \/ c = "009"%char) g ->
  word_ok w ->
  Forall (fun gw => gap_ok (fst gw) /\ word_ok (snd gw)) more ->
  shlex_tokens fuel
    (g ++ word_text w
       ++ flat_map (fun gw => (fst gw ++ word_text (snd gw))%list) more)
    (Some " "%char)
  = Ok (word_value w :: map (fun gw => word_value (snd gw)) more).
Proof.
  induction more as [|[g' w'] more IH]; intros g w fuel Hfuel Hg [Hne Hw] Hmore;
    (destruct fuel as [|fuel]; [lia|]); cbn [shlex_tokens];
    rewrite read_gap by exact Hg.
  - cbn [flat_map map]. 
    destruct (read_word w [] " " " " EmptyString false Hw Hne
                (or_introl (conj eq_refl eq_refl))) as [esc ->].
    cbn [append orb read_token].
    change (Ascii.eqb "a" " ") with false.
    change (shlex_quotes "a") with false.
    change (shlex_escape "a") with false.
    cbn match. unfold emit_token.
    assert (Hemit : negb (existsb piece_quoted w)
                    && String.eqb (word_value w) EmptyString = false).
    { destruct (String.eqb_spec (word_value w) EmptyString) as [E|];
        [|apply andb_false_r].
      now rewrite (empty_word_is_quoted w Hne E). }
    rewrite Hemit.
    destruct fuel as [|fuel]; [lia|]. reflexivity.
  - inversion Hmore as [|? ? [[Hgne Hg'] Hw'] Hmore']; subst.
    cbn [fst snd] in *. cbn [flat_map map fst snd].
    destruct g' as [|c g']; [contradiction|].
    inversion Hg' as [|? ? Hc Hg'']; subst.
    rewrite <- !app_assoc. cbn [app].
    destruct (read_word w (c :: g' ++ word_text w'
                             ++ flat_map (fun gw => (fst gw ++ word_text (snd gw))%list)
                                         more)
                " " " " EmptyString false Hw Hne
                (or_introl (conj eq_refl eq_refl))) as [esc ->].
    cbn [append orb read_token].
    change (Ascii.eqb "a" " ") with false.
    change (shlex_quotes "a") with false.
    change (shlex_escape "a") with false.
    cbn match.
    assert (Hc' : shlex_whitespace c = true) by (destruct Hc as [-> | ->]; reflexivity).
    rewrite Hc'.
    assert (Hemit : negb (String.eqb (word_value w) EmptyString)
                    || existsb piece_quoted w = true).
    { destruct (String.eqb_spec (word_value w) EmptyString) as [E|];
        [|reflexivity].
      now rewrite (empty_word_is_quoted w Hne E). }
    rewrite Hemit. unfold emit_token.
    assert (Hemit' : negb (existsb piece_quoted w)
                     && String.eqb (word_value w) EmptyString = false).
    { destruct (String.eqb_spec (word_value w) EmptyString) as [E|];
        [|apply andb_false_r].
      now rewrite (empty_word_is_quoted w Hne E). }
    rewrite Hemit'.
    rewrite (IH g' w' fuel); [reflexivity | cbn [List.length] in Hfuel; lia
                             | exact Hg'' | exact Hw' | exact Hmore'].
Qed.

Lemma word_text_not_empty w : word_ok w -> word_text w <> [].
Proof.
  intros [Hne _]. destruct w as [|[c|c|l|l] w]; [contradiction| | | |];
    discriminate.
Qed.

Lemma command_length c :
  command_ok c ->
  (2 * List.length (more_words c) + 1 <= List.length (command_text c))%nat.
Proof.
  intros (Hw & Hmore & _). unfold command_text. rewrite length_app.
  assert (1 <= List.length (word_text (first_word c)))%nat.
  { pose proof (word_text_not_empty _ Hw).
    destruct (word_text (first_word c)); [contradiction | cbn; lia]. }
  assert (2 * List.length (more_words c)
          <= List.length (flat_map (fun gw => (fst gw ++ word_text (snd gw))%list)
                                   (more_words c)))%nat.
  { induction Hmore as [|[g w] more [[Hg _] Hw'] _ IH]; [cbn; lia|].
    cbn [flat_map fst snd List.length] in *. rewrite !length_app.
    pose proof (word_text_not_empty _ Hw').
    destruct g; [contradiction|]. destruct (word_text w); [contradiction|].
    cbn [List.length]. lia. }
  lia.
Qed.

(** [shlex.split] on a command line gives the words that the line stands
    for. *)
Lemma shlex_split_command c :
  command_ok c ->
  shlex_split (text (command_text c)) = Ok (invocation c).
Proof.
  intros Hc. pose proof (command_length c Hc) as Hlen.
  destruct Hc as (Hw & Hmore & _).
  unfold shlex_split, invocation. rewrite chars_text.
  rewrite <- length_chars, chars_text.
  apply (shlex_tokens_words (more_words c) [] (first_word c));
    [lia | constructor | exact Hw | exact Hmore].
Qed.

(* ================================================================== *)
(** * Descriptor files: what the parser reads *)

Lemma lstrip_chars_app x c y :
  is_space c = false ->
  lstrip_chars (x ++ c :: y) = (lstrip_chars x ++ c :: y)%list.
Proof.
  intros H. induction x as [|a x IH]; cbn [app lstrip_chars].
  - now rewrite H.
  - destruct (is_space a); [exact IH | reflexivity].
Qed.

Lemma rstrip_chars_app a c b :
  is_space c = false ->
  rstrip_chars (a ++ c :: b) = (a ++ c :: rstrip_chars b)%list.
Proof.
  intros H. unfold rstrip_chars.
  rewrite rev_app_distr. cbn [rev]. rewrite <- app_assoc. cbn [app].
  rewrite lstrip_chars_app by exact H.
  rewrite rev_app_distr. cbn [rev].
  now rewrite rev_involutive, <- app_assoc.
Qed.

Lemma rstrip_chars_id l :
  stops_class is_space (rev l) -> rstrip_chars l = l.
Proof.
  unfold rstrip_chars. intros H.
  destruct (rev l) as [|c r] eqn:E.
  - cbn. apply (f_equal (@rev ascii)) in E.
    now rewrite rev_involutive in E.
  - cbn in H. cbn [lstrip_chars]. rewrite H, <- E. apply rev_involutive.
Qed.

Lemma ident_facts c :
  is_ident c = true ->
  is_space c = false /\ c <> "#"%char /\ c <> ";"%char /\ c <> "["%char
  /\ Ascii.eqb c "=" || Ascii.eqb c ":" = false
  /\ c <> "010"%char /\ c <> "013"%char.
Proof.
  destruct c as [[] [] [] [] [] [] [] []]; intros H;
    first [ discriminate H
          | repeat split; first [reflexivity | discriminate] ].
Qed.

Lemma rstrip_identifier l :
  Forall (fun c => is_ident c = true) l -> rstrip_chars l = l.
Proof.
  intros H. apply rstrip_chars_id. apply Forall_rev in H.
  destruct (rev l) as [|c r]; [exact I|].
  inversion H; subst. now apply ident_facts.
Qed.

Lemma find_delim_key key rest :
  Forall (fun c => is_ident c = true) key ->
  find_delim (key ++ "="%char :: rest) = Some (List.length key).
Proof.
  intros H. induction H as [|c key Hc _ IH]; [reflexivity|].
  cbn [app find_delim List.length].
  destruct (ident_facts c Hc) as (_ & _ & _ & _ & -> & _).
  now rewrite IH.
Qed.

Lemma section_header_none c s :
  c <> "["%char -> section_header (String c s) = None.
Proof.
  destruct c as [[] [] [] [] [] [] [] []]; intros H;
    first [reflexivity | now contradiction H].
Qed.

Lemma prefix_other c k s :
  c <> k -> String.prefix (String c EmptyString) (String k s) = false.
Proof.
  intros H. cbn. destruct (ascii_dec c k); [contradiction | reflexivity].
Qed.

Lemma firstn_length_app {A} (a b : list A) : firstn (List.length a) (a ++ b) = a.
Proof.
  rewrite firstn_app, Nat.sub_diag, firstn_all. cbn. apply app_nil_r.
Qed.

Lemma skipn_length_app {A} (a b : list A) c :
  skipn (S (List.length a)) (a ++ c :: b) = b.
Proof. induction a as [|x a IH]; [reflexivity | exact IH]. Qed.

(** A line [Key=Value] in the section [Test], with a key that the section
    does not hold yet. *)
Lemma config_option_line key value sect o :
  key <> EmptyString ->
  Forall (fun c => is_ident c = true) (chars key) ->
  Dict.mem (lower key) sect = false ->
  config_line (key ++ "=" ++ value) (test_state sect o)
  = Ok (test_state
          (Dict.set (lower key)
                    (strip (text (rstrip_chars (chars value)))) sect)
          (Some (lower key))).
Proof.
  intros Hne Hkey Hfresh.
  destruct key as [|k key]; [contradiction|].
  pose proof Hkey as Hkey'.
  change (chars (String k key)) with (k :: chars key) in Hkey'.
  inversion Hkey' as [|? ? Hk _]; subst.
  destruct (ident_facts k Hk) as (Hsp & Hhash & Hsemi & Hbr & _).
  set (V := rstrip_chars (chars value)).
  assert (Hline : chars (String k key ++ "=" ++ value)
                  = (chars (String k key) ++ "="%char :: chars value)%list).
  { now rewrite !chars_app. }
  assert (Hstrip : strip (String k key ++ "=" ++ value)
                   = text (chars (String k key) ++ "="%char :: V)).
  { unfold strip. rewrite Hline.
    change (chars (String k key)) with (k :: chars key). cbn [app lstrip_chars].
    rewrite Hsp.
    change (k :: chars key ++ "="%char :: chars value)
      with ((k :: chars key) ++ "="%char :: chars value)%list.
    now rewrite rstrip_chars_app by reflexivity. }
  unfold config_line. cbv zeta. rewrite Hstrip, chars_text, Hline.
  rewrite find_delim_key by exact Hkey.
  rewrite firstn_length_app, skipn_length_app, text_chars.
  change (chars (String k key)) with (k :: chars key).
  cbn [app text string_of_list_ascii indent_of].
  rewrite Hsp, section_header_none by exact Hbr.
  rewrite (prefix_other "#" k), (prefix_other ";" k) by congruence.
  cbn [String.eqb orb test_state cursect optname indent_level cfg_sections
       parsing_error].
  assert (Hcont : match o with
                  | Some _ => (0 <? 0)%nat
                  | None => false
                  end = false) by now destruct o.
  rewrite Hcont.
  unfold rstrip. rewrite rstrip_identifier by exact Hkey. rewrite text_chars.
  change (Dict.get_default "Test" [] [("Test", sect)]) with sect.
  rewrite Hfresh. reflexivity.
Qed.

(** A blank line or a comment leaves the parser as it is. *)
Lemma config_comment_line s st :
  strip s = EmptyString
  \/ String.prefix "#" (strip s) = true
  \/ String.prefix ";" (strip s) = true ->
  config_line s st = Ok st.
Proof.
  intros H. unfold config_line. cbv zeta.
  assert (E : String.eqb (strip s) EmptyString
              || String.prefix "#" (strip s)
              || String.prefix ";" (strip s) = true).
  { destruct H as [-> |[-> | ->]]; [reflexivity | |];
      rewrite ?orb_true_r; reflexivity. }
  now rewrite E.
Qed.

Lemma mem_set_other {V} k k' (v : V) d :
  k <> k' -> Dict.mem k (Dict.set k' v d) = Dict.mem k d.
Proof. intros H. unfold Dict.mem. now rewrite get_set_other. Qed.

(** The lines of the section, read one after the other: every option has
    its value (without the white space around it) under its key in lower
    case. *)
Lemma config_body body : forall sect o,
  Forall line_ok body ->
  NoDup (flat_map line_keys body) ->
  (forall k, In k (flat_map line_keys body) -> Dict.mem k sect = false) ->
  exists sect' o',
    config_lines (map line_text body) (test_state sect o)
    = Ok (test_state sect' o')
    /\ (forall key value,
           In (OptionLine key value) body ->
           Dict.get (lower key) sect'
           = Some (strip (text (rstrip_chars (chars value)))))
    /\ (forall k, ~ In k (flat_map line_keys body) ->
                  Dict.get k sect' = Dict.get k sect).
Proof.
  induction body as [|[s|key value] body IH]; intros sect o Hok Hnodup Hfresh;
    cbn [map config_lines flat_map line_keys line_text app] in *.
  - exists sect, o. split; [reflexivity|]. split; [intros ? ? []|auto].
  - inversion Hok as [|? ? Hline Hok']; subst.
    cbn [line_ok] in Hline. destruct Hline as [_ Hs].
    rewrite config_comment_line by exact Hs. cbn [exc_bind].
    destruct (IH sect o Hok' Hnodup Hfresh) as (sect' & o' & Hrun & Hget & Hkeep).
    exists sect', o'. split; [exact Hrun|]. split; [|exact Hkeep].
    intros key value [Hin|Hin]; [discriminate Hin | now apply Hget].
  - inversion Hok as [|? ? Hline Hok']; subst.
    cbn [line_ok] in Hline. destruct Hline as (Hne & Hkey & _).
    inversion Hnodup as [|? ? Hnot Hnodup']; subst.
    rewrite config_option_line; [|exact Hne|exact Hkey|apply Hfresh; now left].
    cbn [exc_bind].
    destruct (IH (Dict.set (lower key)
                           (strip (text (rstrip_chars (chars value)))) sect)
                 (Some (lower key)) Hok' Hnodup')
      as (sect' & o' & Hrun & Hget & Hkeep).
    { intros k Hk. rewrite mem_set_other; [apply Hfresh; now right|].
      intros ->. contradiction. }
    exists sect', o'. split; [exact Hrun|]. split.
    + intros key' value' [[= -> ->]|Hin]; [|now apply Hget].
      rewrite Hkeep by exact Hnot. apply get_set_same.
    + intros k Hk. rewrite Hkeep by (intros Hin; apply Hk; now right).
      apply get_set_other. intros ->. apply Hk. now left.
Qed.

(** ** Lines of a text *)

Lemma universal_newlines_id l :
  Forall (fun c => c <> "013"%char) l -> universal_newlines l = l.
Proof.
  intros H. induction H as [|c l Hc _ IH]; [reflexivity|].
  cbn [universal_newlines].
  destruct (Ascii.eqb_spec c "013"); [contradiction|]. now rewrite IH.
Qed.

Lemma split_line l : forall cur rest,
  Forall (fun c => c <> "010"%char) l ->
  split_lines_from cur (l ++ "010"%char :: rest)
  = (cur ++ text l)%string :: split_lines_from EmptyString rest.
Proof.
  induction l as [|c l IH]; intros cur rest H; cbn [app split_lines_from].
  - change (Ascii.eqb "010" "010") with true. cbn match.
    now rewrite string_app_nil_r.
  - inversion H as [|? ? Hc Hl]; subst.
    destruct (Ascii.eqb_spec c "010"); [contradiction|].
    rewrite IH by exact Hl. now rewrite push_text.
Qed.

Lemma split_last_line l : forall cur,
  Forall (fun c => c <> "010"%char) l ->
  split_lines_from cur l
  = if String.eqb (cur ++ text l) EmptyString then []
    else [(cur ++ text l)%string].
Proof.
  induction l as [|c l IH]; intros cur H; cbn [split_lines_from].
  - now rewrite string_app_nil_r.
  - inversion H as [|? ? Hc Hl]; subst.
    destruct (Ascii.eqb_spec c "010"); [contradiction|].
    rewrite IH by exact Hl. now rewrite push_text.
Qed.

Lemma chars_join_cons x y rest :
  chars (join nl (x :: y :: rest))
  = (chars x ++ "010"%char :: chars (join nl (y :: rest)))%list.
Proof.
  change (join nl (x :: y :: rest))
    with (x ++ nl ++ join nl (y :: rest))%string.
  now rewrite !chars_app.
Qed.

Lemma no_newline_lf s : no_newline s -> Forall (fun c => c <> "010"%char) (chars s).
Proof. apply Forall_impl. now intros c [H _]. Qed.

Lemma no_newline_cr s : no_newline s -> Forall (fun c => c <> "013"%char) (chars s).
Proof. apply Forall_impl. now intros c [_ H]. Qed.

(** The lines of a text whose last line is closed by a line feed. *)
Lemma split_lines_closed lines :
  Forall no_newline lines -> lines <> [] ->
  split_lines_from EmptyString (chars (join nl lines ++ nl)) = lines.
Proof.
  intros H Hne. induction H as [|x lines Hx Hl IH]; [contradiction|].
  destruct lines as [|y lines].
  - cbn [join]. rewrite chars_app. change (chars nl) with ["010"%char].
    rewrite split_line by now apply no_newline_lf.
    now rewrite text_chars.
  - change (join nl (x :: y :: lines) ++ nl)%string
      with ((x ++ nl ++ join nl (y :: lines)) ++ nl)%string.
    rewrite !string_app_assoc, chars_app.
    change (chars (nl ++ join nl (y :: lines) ++ nl))
      with ("010"%char :: chars (join nl (y :: lines) ++ nl)).
    rewrite split_line by now apply no_newline_lf.
    rewrite text_chars, IH by discriminate. reflexivity.
Qed.

(** The lines of a text whose last line is not closed. *)
Lemma split_lines_open lines :
  Forall no_newline lines ->
  last lines EmptyString <> EmptyString ->
  split_lines_from EmptyString (chars (join nl lines)) = lines.
Proof.
  intros H Hlast. induction H as [|x lines Hx Hl IH]; [now contradiction Hlast|].
  destruct lines as [|y lines].
  - cbn [join last] in *. rewrite split_last_line by now apply no_newline_lf.
    rewrite text_chars. cbn [append].
    destruct (String.eqb_spec x EmptyString); [contradiction | reflexivity].
  - rewrite chars_join_cons, split_line by now apply no_newline_lf.
    rewrite text_chars, IH by exact Hlast. reflexivity.
Qed.

Lemma chars_no_newline_join lines :
  Forall no_newline lines ->
  Forall (fun c => c <> "013"%char) (chars (join nl lines)).
Proof.
  intros H. induction H as [|x lines Hx Hl IH]; [constructor|].
  destruct lines as [|y lines].
  - now apply no_newline_cr.
  - rewrite chars_join_cons. apply Forall_app. split.
    + now apply no_newline_cr.
    + constructor; [discriminate | exact IH].
Qed.

Lemma split_lines_descriptor lines (closed : bool) :
  Forall no_newline lines -> lines <> [] ->
  (closed = false -> last lines EmptyString <> EmptyString) ->
  split_lines (join nl lines ++ (if closed then nl else EmptyString)) = lines.
Proof.
  intros H Hne Hlast. unfold split_lines.
  pose proof (chars_no_newline_join lines H) as Hcr.
  destruct closed.
  - rewrite universal_newlines_id.
    + now apply split_lines_closed.
    + rewrite chars_app. apply Forall_app. split; [exact Hcr|].
      repeat constructor. discriminate.
  - rewrite string_app_nil_r, universal_newlines_id by exact Hcr.
    apply split_lines_open; auto.
Qed.

(** ** The command of a descriptor *)

Lemma piece_chars p :
  piece_ok p -> Forall in_value (piece_text p).
Proof.
  assert (Hs : forall c, is_space c = false ->
                         c <> "010"%char /\ c <> "013"%char).
  { intros c Hc. split; intros ->; discriminate Hc. }
  destruct p as [c|c|l|l]; cbn [piece_ok piece_text]; intros H.
  - destruct H as (Hsp & _ & _ & Hp). destruct (Hs c Hsp).
    repeat constructor; assumption.
  - repeat constructor; first [discriminate | apply H].
  - constructor; [repeat split; discriminate|].
    apply Forall_app. split.
    + revert H. apply Forall_impl. now intros c [H _].
    + repeat constructor; discriminate.
  - constructor; [repeat split; discriminate|].
    apply Forall_app. split.
    + revert H. apply Forall_impl. now intros c [H _].
    + repeat constructor; discriminate.
Qed.

Lemma word_chars w : Forall piece_ok w -> Forall in_value (word_text w).
Proof.
  intros H. unfold word_text. induction H as [|p w Hp _ IH]; [constructor|].
  cbn [flat_map]. apply Forall_app. split; [now apply piece_chars | exact IH].
Qed.

Lemma command_chars c : command_ok c -> Forall in_value (command_text c).
Proof.
  intros ([_ Hw] & Hmore & _). unfold command_text.
  apply Forall_app. split; [now apply word_chars|].
  induction Hmore as [|[g w] more [[_ Hg] [_ Hw']] _ IH]; [constructor|].
  cbn [flat_map fst snd] in *. rewrite <- app_assoc.
  apply Forall_app. split; [|apply Forall_app; split; [now apply word_chars|exact IH]].
  revert Hg. apply Forall_impl.
  intros ch [-> | ->]; repeat split; discriminate.
Qed.

Lemma command_begins c :
  command_ok c ->
  exists ch rest, command_text c = ch :: rest /\ is_space ch = false.
Proof.
  intros ([Hne Hw] & _ & _). unfold command_text, word_text.
  destruct (first_word c) as [|p w]; [contradiction|].
  inversion Hw as [|? ? Hp _]; subst. cbn [flat_map].
  destruct p as [ch|ch|l|l]; cbn [piece_text app];
    do 2 eexists; (split; [reflexivity|]); try reflexivity.
  apply Hp.
Qed.

Lemma strip_command c :
  command_ok c ->
  strip (text (rstrip_chars (chars (text (command_text c)))))
  = text (command_text c).
Proof.
  intros Hc. destruct (command_begins c Hc) as (ch & rest & Hbegin & Hch).
  destruct Hc as (_ & _ & Hend).
  rewrite chars_text, rstrip_chars_id by exact Hend.
  unfold strip. rewrite chars_text.
  rewrite Hbegin in *. cbn [lstrip_chars]. rewrite Hch.
  now rewrite rstrip_chars_id by exact Hend.
Qed.

Lemma interpolate_plain l :
  Forall (fun c => c <> "%"%char) l -> interpolate l = Ok l.
Proof.
  intros H. induction H as [|c l Hc _ IH]; [reflexivity|].
  cbn [interpolate]. destruct (Ascii.eqb_spec c "%"); [contradiction|].
  now rewrite IH.
Qed.

(** ** A descriptor, read *)

Lemma line_text_no_newline l : line_ok l -> no_newline (line_text l).
Proof.
  destruct l as [s|key value]; cbn [line_ok line_text].
  - now intros [H _].
  - intros (_ & Hkey & Hvalue). unfold no_newline.
    rewrite !chars_app. apply Forall_app. split.
    + revert Hkey. apply Forall_impl. intros c Hc.
      now destruct (ident_facts c Hc) as (_ & _ & _ & _ & _ & H1 & H2).
    + apply Forall_app. split; [repeat constructor; discriminate|exact Hvalue].
Qed.

Lemma exec_line_ok c :
  command_ok c -> line_ok (OptionLine "Exec" (text (command_text c))).
Proof.
  intros Hc. cbn [line_ok]. split; [discriminate|].
  split; [repeat constructor|].
  unfold no_newline. rewrite chars_text.
  apply command_chars in Hc. revert Hc. apply Forall_impl.
  now intros ch (H1 & H2 & _).
Qed.

Lemma descriptor_lines_body d :
  descriptor_lines d = "[Test]" :: map line_text (descriptor_body d).
Proof.
  unfold descriptor_lines, descriptor_body. now rewrite map_app.
Qed.

Lemma descriptor_body_ok d :
  descriptor_ok d ->
  Forall line_ok (descriptor_body d)
  /\ NoDup (flat_map line_keys (descriptor_body d)).
Proof.
  intros (Hb & Hc & Ha & Hnodup & _). unfold descriptor_body. split.
  - apply Forall_app. split; [exact Hb|].
    constructor; [now apply exec_line_ok | exact Ha].
  - rewrite flat_map_app. cbn [flat_map line_keys app].
    change (lower "Exec") with "exec".
    rewrite flat_map_app in Hnodup.
    apply (NoDup_Add (Add_app "exec" _ _)).
    now inversion Hnodup.
Qed.

(** The parser on a descriptor: the section [Test] holds the command line
    under [exec]. *)
Lemma config_read_descriptor d :
  descriptor_ok d ->
  exists sect,
    config_read (Some (descriptor_text d)) = Ok [("Test", sect)]
    /\ Dict.get "exec" sect = Some (text (command_text (exec_command d))).
Proof.
  intros Hd. destruct (descriptor_body_ok d Hd) as [Hbody Hnodup].
  pose proof Hd as (_ & Hc & _ & _ & Hlast).
  unfold config_read, descriptor_text.
  rewrite split_lines_descriptor.
  - rewrite descriptor_lines_body. cbn [config_lines].
    change (config_line "[Test]" _) with (Ok (test_state [] None)).
    cbn [exc_bind].
    destruct (config_body (descriptor_body d) [] None Hbody Hnodup)
      as (sect & o & -> & Hget & _); [reflexivity|].
    cbn [exc_bind test_state parsing_error cfg_sections].
    exists sect. split; [reflexivity|].
    specialize (Hget "Exec" (text (command_text (exec_command d)))).
    change (lower "Exec") with "exec" in Hget.
    rewrite Hget, strip_command by
        first [exact Hc | unfold descriptor_body; apply in_or_app; right; now left].
    reflexivity.
  - rewrite descriptor_lines_body. constructor; [repeat constructor; discriminate|].
    apply Forall_forall. intros s Hs. apply in_map_iff in Hs as (l & <- & Hl).
    rewrite Forall_forall in Hbody. apply line_text_no_newline. now apply Hbody.
  - rewrite descriptor_lines_body. discriminate.
  - exact Hlast.
Qed.

(** The invocation that a descriptor gives. *)
Lemma descriptor_command_spec fs dir entry d :
  read_text fs (dir // entry) = Some (descriptor_text d) ->
  descriptor_ok d ->
  descriptor_command fs dir entry = Ok (invocation (exec_command d)).
Proof.
  intros Hread Hd. unfold descriptor_command. rewrite Hread.
  destruct (config_read_descriptor d Hd) as (sect & -> & Hget).
  cbn [exc_bind]. unfold config_get.
  change (Dict.lookup "Test" [("Test", sect)]) with (Ok sect).
  cbn [exc_bind]. change (lower "Exec") with "exec". rewrite Hget.
  destruct Hd as (_ & Hc & _).
  rewrite chars_text, interpolate_plain.
  - cbn [exc_bind]. now apply shlex_split_command.
  - apply command_chars in Hc. revert Hc. apply Forall_impl.
    now intros ch (_ & _ & H).
Qed.

Lemma set_fresh {V} k (v : V) d :
  ~ In k (Dict.keys d) -> Dict.set k v d = (d ++ [(k, v)])%list.
Proof.
  unfold Dict.keys. induction d as [|[k' v'] d IH]; cbn; intros H; [reflexivity|].
  destruct (String.eqb_spec k k') as [->|Hne]; [exfalso; auto|].
  now rewrite IH by auto.
Qed.

Lemma get_unit_tests_loop_descriptors fs dir tests : forall found,
  (forall name d, In (name, d) tests ->
     name <> EmptyString /\ descriptor_ok d
     /\ read_text fs (dir // (name ++ ".test")) = Some (descriptor_text d)) ->
  NoDup (Dict.keys found ++ map fst tests) ->
  get_unit_tests_loop fs dir (map (fun t => fst t ++ ".test") tests) found
  = Ok (found
          ++ map (fun t => (fst t, invocation (exec_command (snd t)))) tests)%list.
Proof.
  induction tests as [|[name d] tests IH]; intros found Hfiles Hnodup;
    cbn [map get_unit_tests_loop fst snd].
  - now rewrite app_nil_r.
  - destruct (Hfiles name d) as (Hne & Hd & Hread); [now left|].
    pose proof (descriptor_command_spec fs dir (name ++ ".test") d Hread Hd)
      as Hcmd.
    unfold descriptor_command in Hcmd.
    destruct (config_read (read_text fs (dir // (name ++ ".test"))))
      as [config|e]; [|discriminate Hcmd].
    cbn [exc_bind] in *.
    destruct (config_get config "Test" "Exec") as [exec|e];
      [|discriminate Hcmd].
    cbn [exc_bind] in *. rewrite Hcmd. cbn [exc_bind].
    rewrite stem_test by exact Hne.
    assert (Hfresh : ~ In name (Dict.keys found)).
    { cbn [map fst] in Hnodup. apply NoDup_remove_2 in Hnodup.
      intros Hin. apply Hnodup. apply in_or_app. now left. }
    rewrite set_fresh by exact Hfresh.
    rewrite IH.
    + now rewrite <- app_assoc.
    + intros n d' Hin. apply Hfiles. now right.
    + unfold Dict.keys in *. rewrite map_app. cbn [map fst].
      rewrite <- app_assoc. exact Hnodup.
Qed.

(** C8. Unit-test discovery.  When every entry of the directory of
    installed tests is a descriptor [NAME.test], no two with the same NAME,
    whose text is the header [[Test]], lines [Key=Value], blank lines and
    comments, and one line [Exec=] with a command line (words made of
    plain characters, characters behind a backslash and texts between
    single or double quotes, with blanks or tabs between the words),
    discovery gives, for every entry and in the order of the directory,
    the test NAME, the stem of the file name, with the words of the command
    line as a POSIX shell splits them: white space inside quotes or behind
    a backslash stays in its word, the quotes and the backslash are
    dropped.  The example of the specification, [Exec=/bin/true --flag
    "a b"], is an instance. *)
Theorem descriptor_gives_invocation fs prefix (tests : list (string * Descriptor)) :
  let dir := prefix // "share/installed-tests/SDL3" in
  iterdir fs dir = Some (map (fun t => fst t ++ ".test") tests) ->
  NoDup (map fst tests) ->
  (forall name d, In (name, d) tests ->
     name <> EmptyString /\ descriptor_ok d
     /\ read_text fs (dir // (name ++ ".test")) = Some (descriptor_text d)) ->
  get_unit_tests fs prefix
  = Ok (map (fun t => (fst t, invocation (exec_command (snd t)))) tests).
Proof.
  intros dir Hdir Hnodup Hfiles. unfold get_unit_tests. fold dir.
  rewrite Hdir.
  now rewrite (get_unit_tests_loop_descriptors fs dir tests []).
Qed.

(* ================================================================== *)
(** * Unit-test discovery: which tests a directory gives *)

Lemma in_keys_get {V} k (d : Dict.t V) :
  In k (Dict.keys d) <-> Dict.get k d <> None.
Proof.
  unfold Dict.keys. induction d as [|[k' v] d IH]; cbn.
  - split; [intros [] | congruence].
  - destruct (String.eqb_spec k k') as [->|Hne].
    + split; [discriminate | auto].
    + rewrite <- IH. split; [intros [Heq|H]; [congruence | exact H] | auto].
Qed.

Lemma in_keys_set {V} k k' (v : V) d :
  In k (Dict.keys (Dict.set k' v d)) <-> k = k' \/ In k (Dict.keys d).
Proof.
  rewrite !in_keys_get, get_set.
  destruct (String.eqb_spec k k') as [->|Hne].
  - split; [auto | discriminate].
  - split; [auto | intros [Heq|H]; [contradiction | exact H]].
Qed.

Lemma nodup_keys_set {V} k (v : V) d :
  NoDup (Dict.keys d) -> NoDup (Dict.keys (Dict.set k v d)).
Proof.
  unfold Dict.keys. induction d as [|[k' v'] d IH]; cbn; intros H.
  - constructor; [intros [] | constructor].
  - destruct (String.eqb_spec k k') as [->|Hne]; [exact H|].
    inversion H as [|? ? Hnot Hd]; subst. cbn. constructor; [|auto].
    intros Hin. apply Hnot.
    apply (in_keys_set k' k v d) in Hin as [Heq|Hin]; [congruence | exact Hin].
Qed.

Lemma get_unit_tests_loop_spec fs dir entries : forall tests0 tests,
  get_unit_tests_loop fs dir entries tests0 = Ok tests ->
  (NoDup (Dict.keys tests0) -> NoDup (Dict.keys tests))
  /\ (forall name, In name (Dict.keys tests)
                   <-> In name (Dict.keys tests0) \/ In name (map stem entries))
  /\ (forall entry, In entry entries ->
                    exists command, descriptor_command fs dir entry = Ok command)
  /\ (forall name command,
         Dict.get name tests = Some command ->
         Dict.get name tests0 = Some command
         \/ exists entry, In entry entries /\ stem entry = name
                          /\ descriptor_command fs dir entry = Ok command).
Proof.
  induction entries as [|entry entries IH]; intros tests0 tests;
    cbn [get_unit_tests_loop].
  - intros [= <-]. repeat split; auto.
    + intros [H|[]]. exact H.
    + intros ? [].
  - intros H.
    destruct (config_read (read_text fs (dir // entry))) as [config|]
      eqn:Hconfig; [|discriminate].
    cbn [exc_bind] in H.
    destruct (config_get config "Test" "Exec") as [exec|] eqn:Hexec;
      [|discriminate].
    cbn [exc_bind] in H.
    destruct (shlex_split exec) as [command|] eqn:Hsplit; [|discriminate].
    cbn [exc_bind] in H.
    assert (Hcmd : descriptor_command fs dir entry = Ok command).
    { unfold descriptor_command. rewrite Hconfig. cbn [exc_bind].
      rewrite Hexec. exact Hsplit. }
    apply IH in H as (Hnodup & Hkeys & Hparsed & Hfrom).
    split; [|split; [|split]].
    + intros H0. apply Hnodup. now apply nodup_keys_set.
    + intros name. rewrite Hkeys, in_keys_set. cbn [map In].
      intuition congruence.
    + intros e [<-|He]; eauto.
    + intros name cmd Hget. apply Hfrom in Hget as [Hget|(e & He & Hs & Hc)].
      * rewrite get_set in Hget.
        destruct (String.eqb_spec name (stem entry)) as [->|Hne]; [|now left].
        injection Hget as <-. right. exists entry.
        split; [now left | auto].
      * right. exists e. split; [now right | auto].
Qed.

(** X14. What a directory of installed tests gives.  When discovery
    succeeds, every entry of the directory, whatever its name, was read as
    a descriptor with an [Exec] line in a section [Test] that splits into
    words; the tests found are exactly the stems of the entries, each once;
    and the invocation recorded for a test is the one that an entry with
    this stem gives. *)
Theorem unit_tests_are_the_stems_of_the_entries fs prefix tests :
  get_unit_tests fs prefix = Ok tests ->
  let dir := prefix // "share/installed-tests/SDL3" in
  exists entries,
    iterdir fs dir = Some entries
    /\ NoDup (Dict.keys tests)
    /\ (forall name, In name (Dict.keys tests) <-> In name (map stem entries))
    /\ (forall entry, In entry entries ->
                      exists command,
                        descriptor_command fs dir entry = Ok command)
    /\ (forall name command,
           Dict.get name tests = Some command ->
           exists entry, In entry entries /\ stem entry = name
                         /\ descriptor_command fs dir entry = Ok command).
Proof.
  intros H dir. unfold get_unit_tests in H. cbn zeta in H. fold dir in H.
  destruct (iterdir fs dir) as [entries|]; [|discriminate].
  exists entries. split; [reflexivity|].
  apply get_unit_tests_loop_spec in H as (Hnodup & Hkeys & Hparsed & Hfrom).
  split; [apply Hnodup; constructor|].
  split; [intros name; rewrite Hkeys; cbn; tauto|].
  split; [exact Hparsed|].
  intros name command Hget.
  apply Hfrom in Hget as [Hget|Hget]; [discriminate | exact Hget].
Qed.

(** X13. A version header without [#].  When the header of a tag holds no
    [#] at all, no version constant can be read from it, and the turn of
    the pipeline for this tag ends with [StopIteration]: no test of the tag
    is looked for. *)
Theorem header_without_constants_stops_the_pipeline args fs tag t h :
  read_text fs (cwd args // tag // "include/SDL3/SDL_version.h") = Some h ->
  Forall (fun c => c <> "#"%char) (chars h) ->
  (forall name, parse_constant name h = Raise StopIteration)
  /\ pipeline_step args fs tag t = Raise StopIteration.
Proof.
  intros Hread Hh.
  assert (Hparse : forall name, parse_constant name h = Raise StopIteration).
  { intros name. unfold parse_constant, finditer.
    rewrite <- (app_nil_r (chars h)), finditer_unmatched; [reflexivity|].
    intros c rest Hc. apply no_constant_without_hash.
    rewrite Forall_forall in Hh. now apply Hh. }
  split; [exact Hparse|].
  unfold pipeline_step. rewrite Hread. cbn [exc_bind].
  now rewrite Hparse.
Qed.

(* ================================================================== *)
(** * Report Printer: the columns line up *)

Lemma length_repeat_char c n : String.length (repeat_char c n) = n.
Proof. induction n; cbn; auto. Qed.

Lemma length_center s w :
  len s <= w -> String.length (center s w) = Z.to_nat w.
Proof.
  unfold center, len. intros H.
  rewrite !string_length_app, !length_repeat_char.
  set (n := String.length s) in *.
  rewrite Z.max_r by lia.
  pose proof (Z.div_pos (w - Z.of_nat n) 2 ltac:(lia) ltac:(lia)).
  pose proof (Z.div_le_upper_bound (w - Z.of_nat n) 2 (w - Z.of_nat n)
                ltac:(lia) ltac:(lia)).
  lia.
Qed.

Lemma length_ljust s w :
  len s <= w -> String.length (ljust s w) = Z.to_nat w.
Proof.
  unfold ljust, len. intros H.
  rewrite string_length_app, length_repeat_char. lia.
Qed.

Lemma length_rjust s w :
  len s <= w -> String.length (rjust s w) = Z.to_nat w.
Proof.
  unfold rjust, len. intros H.
  rewrite string_length_app, length_repeat_char. lia.
Qed.

Lemma length_join sep n l :
  Forall (fun x => String.length x = n) l ->
  String.length (join sep l)
  = (List.length l * n + (List.length l - 1) * String.length sep)%nat.
Proof.
  induction l as [|x l IH]; intros H; [reflexivity|].
  inversion H as [|? ? Hx Hl]; subst.
  destruct l as [|y l]; [cbn; lia|].
  change (join sep (x :: y :: l)) with (x ++ sep ++ join sep (y :: l)).
  rewrite !string_length_app, IH by exact Hl. cbn [List.length].
  rewrite !Nat.sub_succ, !Nat.sub_0_r. nia.
Qed.

Lemma max_len_bounds names width :
  max_len names = Ok width ->
  0 <= width /\ forall name, In name names -> len name <= width.
Proof.
  destruct names as [|n names]; [discriminate|]. cbn [max_len].
  intros [= <-].
  assert (H : forall l init,
             init <= fold_left Z.max l init
             /\ forall z, In z l -> z <= fold_left Z.max l init).
  { induction l as [|z l IH]; intros init; cbn [fold_left].
    - split; [lia | intros ? []].
    - destruct (IH (Z.max init z)) as [H1 H2]. split; [lia|].
      intros z' [<-|Hz]; [lia | auto]. }
  destruct (H (map len names) (len n)) as [H1 H2].
  split; [pose proof (Nat2Z.is_nonneg (String.length n)) as Hn;
          fold (len n) in Hn; lia|].
  intros name [<-|Hin]; [exact H1|].
  apply H2. now apply in_map.
Qed.

Lemma map_exc_length {A B} (f : A -> exc B) l : forall ys,
  map_exc f l = Ok ys -> List.length ys = List.length l.
Proof.
  induction l as [|x l IH]; cbn [map_exc]; intros ys.
  - now intros [= <-].
  - destruct (f x); [|discriminate]. cbn [exc_bind].
    destruct (map_exc f l) as [ys'|]; [|discriminate]. cbn [exc_bind].
    intros [= <-]. cbn. f_equal. now apply IH.
Qed.

Lemma length_value r : len (TestResult_value r) <= 12.
Proof. destruct r; cbn; lia. Qed.

Lemma length_row_text width name cells :
  len name <= width ->
  String.length (row_text width name cells)
  = (Z.to_nat width + 1 + (List.length cells * 12 + (List.length cells - 1)))%nat.
Proof.
  intros Hname. unfold row_text.
  rewrite !string_length_app, length_ljust by exact Hname.
  rewrite (length_join "|" 12).
  - rewrite length_map. cbn. lia.
  - apply Forall_map, Forall_forall. intros r _.
    now rewrite length_center by apply length_value.
Qed.

(** X15. The columns of a printed table line up.  When no tag is longer
    than the 12 characters of a column, a table that is printed in full
    consists of the blank line, the heading, the two title lines, a rule as
    long as the first title line, and one row per name, each as long as
    the rule. *)
Theorem report_table_is_aligned args t heading names results w w' :
  Forall (fun tag => len tag <= 12) (other_tags args) ->
  print_table args t heading names results w = Returned tt w' ->
  exists title1 title2 rows,
    stdout w'
    = (stdout w
         ++ [EmptyString; heading; title1; title2;
             repeat_char "-" (String.length title1)]
         ++ rows)%list
    /\ List.length rows = List.length names
    /\ Forall (fun row => String.length row = String.length title1) rows.
Proof.
  intros Htags H. unfold print_table in H.
  apply bind_returned in H as (width & w1 & Hw & H).
  apply lift_returned in Hw as [Hw ->].
  apply max_len_bounds in Hw as [Hwidth Hnames].
  apply bind_returned in H as ([] & w1 & H1 & H). injection H1 as <-.
  apply bind_returned in H as ([] & w2 & H2 & H). injection H2 as <-.
  apply bind_returned in H as (versions & w3 & Hv & H).
  apply lift_returned in Hv as [_ ->].
  apply bind_returned in H as ([] & w4 & H4 & H). injection H4 as <-.
  apply bind_returned in H as ([] & w5 & H5 & H). injection H5 as <-.
  apply bind_returned in H as ([] & w6 & H6 & H). injection H6 as <-.
  apply print_rows_returned in H as (rows & Hs & Hrows).
  cbn [write_line stdout] in Hs.
  eexists _, _, rows. split; [|split].
  - rewrite Hs, <- !app_assoc. cbn [app]. reflexivity.
  - symmetry. eapply Forall2_length. exact Hrows.
  - rewrite string_length_app, length_rjust by (cbn; lia).
    rewrite (length_join "|" 12).
    2:{ apply Forall_map. revert Htags. apply Forall_impl.
        intros tag Htag. now rewrite length_center. }
    rewrite length_map.
    clear Hs. induction Hrows as [|name row names' rows' (cells & Hc & ->) _ IH];
      constructor.
    + rewrite length_row_text by (apply Hnames; now left).
      unfold row_results in Hc. apply map_exc_length in Hc. rewrite Hc.
      replace (Z.to_nat (width + 1)) with (Z.to_nat width + 1)%nat by lia.
      cbn. lia.
    + apply IH. intros n Hn. apply Hnames. now right.
Qed.

(* ================================================================== *)
(** * Section printers: proofs *)

Lemma run_body_is_exec_all cls body : forall p,
  (fix run_body (body : list Sections.Stmt) (p : Sections.Printer)
     : Sections.Printer * Sections.Stop :=
     match body with
     | [] => (p, Sections.Done)
     | s :: rest =>
         match Sections.exec cls s p with
         | (p', Sections.Done) => run_body rest p'
         | stopped => stopped
         end
     end) body p
  = Sections.exec_all cls body p.
Proof.
  induction body as [|s body IH]; intros p; cbn [Sections.exec_all];
    [reflexivity|].
  destruct (Sections.exec cls s p) as [p' [| |]]; auto.
Qed.

Lemma exec_with cls title body p :
  Sections.exec cls (Sections.With title body) p
  = match cls with
    | Sections.SectionPrinter =>
        Sections.exec_all cls body (Sections.say (title ++ ":") p)
    | Sections.GitHubSectionPrinter =>
        let p1 := Sections.say ("::group::" ++ title) p in
        if Sections.in_group p1
        then (p1, Sections.AssertionError "Can enter a group only once")
        else
          match Sections.exec_all cls body (Sections.set_in_group true p1) with
          | (p2, Sections.Done) =>
              (Sections.say "::endgroup::" (Sections.set_in_group false p2),
               Sections.Done)
          | stopped => stopped
          end
    end.
Proof.
  destruct cls; cbn [Sections.exec]; cbn zeta;
    rewrite run_body_is_exec_all; reflexivity.
Qed.

Lemma exec_all_app cls a : forall b p,
  Sections.exec_all cls (a ++ b) p
  = match Sections.exec_all cls a p with
    | (p', Sections.Done) => Sections.exec_all cls b p'
    | stopped => stopped
    end.
Proof.
  induction a as [|s a IH]; intros b p; cbn [app Sections.exec_all];
    [reflexivity|].
  destruct (Sections.exec cls s p) as [p' [| |]]; auto.
Qed.

Lemma exec_prints cls body : forall p,
  Forall Sections.is_print body ->
  Sections.exec_all cls body p
  = ({| Sections.in_group := Sections.in_group p;
        Sections.lines :=
          Sections.lines p ++ flat_map (Sections.rendering cls) body |},
     Sections.Done).
Proof.
  induction body as [|s body IH]; intros p H; cbn [Sections.exec_all flat_map].
  - rewrite app_nil_r. now destruct p.
  - inversion H as [|? ? [line ->] Hbody]; subst.
    cbn [Sections.exec Sections.rendering]. rewrite IH by exact Hbody.
    cbn [Sections.say Sections.in_group Sections.lines].
    repeat (rewrite <- ?app_assoc; cbn [app]); reflexivity.
Qed.

(** X16. Groups in sequence.  A run of prints and of groups whose bodies
    only print, on a printer that is in no group, completes with either
    printer: the assertion of the GitHub printer never fails, the printer
    is in no group afterwards, and what was printed is, statement by
    statement, the title line ([title:], or [::group::title]), the lines
    of the body and, for the GitHub printer, [::endgroup::]. *)
Theorem groups_in_sequence_are_closed cls body p :
  Forall Sections.is_flat body ->
  Sections.in_group p = false ->
  Sections.exec_all cls body p
  = ({| Sections.in_group := false;
        Sections.lines :=
          Sections.lines p ++ flat_map (Sections.rendering cls) body |},
     Sections.Done).
Proof.
  revert p. induction body as [|s body IH]; intros p H Hp;
    cbn [Sections.exec_all flat_map].
  - rewrite app_nil_r. destruct p; cbn in *; now subst.
  - inversion H as [|? ? Hs Hbody]; subst.
    destruct Hs as [[line ->]|(title & inner & -> & Hinner)].
    + cbn [Sections.exec Sections.rendering]. rewrite IH; auto.
      cbn [Sections.say Sections.lines]. repeat (rewrite <- ?app_assoc; cbn [app]); reflexivity.
    + rewrite exec_with. destruct cls.
      * rewrite exec_prints by exact Hinner. rewrite IH; auto.
        cbn [Sections.say Sections.lines Sections.rendering].
        repeat (rewrite <- ?app_assoc; cbn [app]); reflexivity.
      * cbn zeta. cbn [Sections.say Sections.in_group]. rewrite Hp.
        rewrite exec_prints by exact Hinner. rewrite IH; auto.
        cbn [Sections.say Sections.set_in_group Sections.lines
             Sections.rendering].
        rewrite <- !app_assoc. cbn [app]. repeat (rewrite <- ?app_assoc; cbn [app]); reflexivity.
Qed.

(** X17. A group that is left open.  With the GitHub printer, a group whose
    body, after some prints, comes to a statement that raises or to another
    group, never completes: what is printed is the marker of the group, the
    prints before that statement and, when that statement is a group, its
    marker, and no [::endgroup::]; a statement that raises passes its
    exception on, a group gives the assertion error; the printer stays in
    the group, so that every later group on it fails the assertion as
    well, right after printing its marker. *)
Theorem github_group_left_open title before s after p :
  Sections.in_group p = false ->
  Forall Sections.is_print before ->
  Sections.breaks_a_group s ->
  let body := (before ++ s :: after)%list in
  let printed := (Sections.lines p ++ ("::group::" ++ title)%string
                    :: flat_map (Sections.rendering
                                   Sections.GitHubSectionPrinter) before)%list in
  exists p' stop,
    Sections.exec Sections.GitHubSectionPrinter (Sections.With title body) p
    = (p', stop)
    /\ Sections.in_group p' = true
    /\ match s with
       | Sections.Raises e =>
           stop = Sections.Escaped e /\ Sections.lines p' = printed
       | Sections.With inner _ =>
           stop = Sections.AssertionError "Can enter a group only once"
           /\ Sections.lines p' = (printed ++ [("::group::" ++ inner)%string])%list
       | Sections.Say _ => False
       end
    /\ forall later later_body,
         Sections.exec Sections.GitHubSectionPrinter
                       (Sections.With later later_body) p'
         = (Sections.say ("::group::" ++ later) p',
            Sections.AssertionError "Can enter a group only once").
Proof.
  intros Hp Hbefore Hs body printed. subst body.
  rewrite exec_with. cbn zeta. cbn [Sections.say Sections.in_group].
  rewrite Hp, exec_all_app, exec_prints by exact Hbefore.
  cbn [Sections.exec_all Sections.set_in_group Sections.in_group
       Sections.lines].
  assert (Hlater : forall p', Sections.in_group p' = true ->
            forall later later_body,
              Sections.exec Sections.GitHubSectionPrinter
                            (Sections.With later later_body) p'
              = (Sections.say ("::group::" ++ later) p',
                 Sections.AssertionError "Can enter a group only once")).
  { intros p' Hp' later later_body. rewrite exec_with. cbn zeta.
    cbn [Sections.say Sections.in_group]. now rewrite Hp'. }
  destruct Hs as [[e ->]|(inner & inner_body & ->)].
  - cbn [Sections.exec]. do 2 eexists. split; [reflexivity|].
    split; [reflexivity|]. split; [|now apply Hlater].
    split; [reflexivity|]. subst printed.
    cbn [Sections.lines Sections.say Sections.set_in_group].
    repeat (rewrite <- ?app_assoc; cbn [app]); reflexivity.
  - rewrite exec_with. cbn zeta. cbn [Sections.say Sections.in_group].
    do 2 eexists. split; [reflexivity|].
    split; [reflexivity|]. split; [|now apply Hlater].
    split; [reflexivity|]. subst printed.
    cbn [Sections.lines Sections.say Sections.set_in_group].
    repeat (rewrite <- ?app_assoc; cbn [app]); reflexivity.
Qed.

(* ================================================================== *)
(** * The theorems above at concrete inputs *)

Lemma example_pipeline :
  pipeline Example.arguments Scenario.fs = Ok Example.tables.
Proof. lazy. reflexivity. Qed.

Lemma example_in_order :
  in_order Example.arguments Example.tables "v1".
Proof. exists (1, 0, 0), (1, 1, 0). repeat split. Qed.

Lemma pipeline_fills_tables_witness :
  has_entries Example.arguments Example.tables "v1".
Proof.
  apply (pipeline_fills_tables Example.arguments Scenario.fs Example.tables
           example_pipeline).
  now left.
Defined.

Lemma pipeline_names_cover_witness : names_cover Example.tables.
Proof.
  exact (pipeline_names_cover Example.arguments Scenario.fs Example.tables
           example_pipeline).
Defined.

Lemma engine_raises_only_start_failure_witness :
  (exists w',
      engine Example.arguments Example.tables []
             (Scenario.world (fun _ => CannotStart))
      = Raised (OSError "Popen") w')
  /\ exists t w',
       pipeline Example.arguments Example.empty_command = Ok t
       /\ engine Example.arguments t [] (Scenario.world Scenario.all_pass)
          = Raised (IndexError "list index out of range") w'.
Proof.
  split.
  - pose proof (engine_raises_only_start_failure
                  Example.arguments Scenario.fs Example.tables []
                  (Scenario.world (fun _ => CannotStart)) example_pipeline)
      as H.
    destruct (engine Example.arguments Example.tables []
                     (Scenario.world (fun _ => CannotStart)))
      as [st w'|e w'|] eqn:E; [lazy in E; discriminate E| |destruct H].
    exists w'. lazy in E. injection E as <- _. reflexivity.
  - destruct (pipeline Example.arguments Example.empty_command)
      as [t|e] eqn:Hp; [|lazy in Hp; discriminate Hp].
    pose proof (engine_raises_only_start_failure
                  Example.arguments Example.empty_command t []
                  (Scenario.world Scenario.all_pass) Hp) as H.
    destruct (engine Example.arguments t [] (Scenario.world Scenario.all_pass))
      as [st w'|e w'|] eqn:E; [|exists t, w'; split; [reflexivity|]
                               |destruct H].
    + lazy in Hp. injection Hp as <-. lazy in E. discriminate E.
    + rewrite E. lazy in Hp. injection Hp as <-. lazy in E.
      injection E as <- _. reflexivity.
Defined.

Lemma exit_code_0_means_all_passed_witness :
  exists st w',
    engine Example.arguments Example.tables []
           (Scenario.world Scenario.all_pass) = Returned st w'
    /\ exists d,
         Dict.get "v1" (TEST_RESULTS st) = Some d
         /\ forall name, discovered Example.tables "v1" name ->
                         Dict.get name d = Some SUCCESS.
Proof.
  destruct (engine Example.arguments Example.tables []
                   (Scenario.world Scenario.all_pass))
    as [st w'|e w'|] eqn:H.
  - exists st, w'. split; [reflexivity|].
    apply (exit_code_0_means_all_passed
             Example.arguments Example.tables []
             (Scenario.world Scenario.all_pass) st w' H).
    + lazy in H. injection H as <- _. reflexivity.
    + now left.
  - lazy in H. discriminate H.
  - lazy in H. discriminate H.
Defined.

Lemma cell_is_NA_iff_not_discovered_witness :
  exists st w',
    engine Example.arguments Example.tables []
           (Scenario.world Scenario.first_fails) = Returned st w'
    /\ exists d,
         Dict.get "v1" (TEST_RESULTS st) = Some d
         /\ forall name,
              Dict.get_default name NA d = NA
              <-> ~ discovered Example.tables "v1" name.
Proof.
  destruct (engine Example.arguments Example.tables []
                   (Scenario.world Scenario.first_fails))
    as [st w'|e w'|] eqn:H.
  - exists st, w'. split; [reflexivity|].
    apply (cell_is_NA_iff_not_discovered
             Example.arguments Example.tables []
             (Scenario.world Scenario.first_fails) st w' "v1" H).
    + now left.
    + exists (1, 0, 0), (1, 1, 0). repeat split.
  - lazy in H. discriminate H.
  - lazy in H. discriminate H.
Defined.

Lemma main_returns_an_exit_code_witness :
  exists code w',
    main Example.arguments Scenario.fs (Scenario.world (fun _ => Hangs))
    = Returned code w'
    /\ (code = 0 \/ code = 1).
Proof.
  apply (main_returns_an_exit_code
           Example.arguments Scenario.fs Example.tables
           (Scenario.world (fun _ => Hangs)) example_pipeline).
  - discriminate.
  - intros tag tests name cmd Ht Hin. cbn in Ht.
    destruct (String.eqb tag "v1"); [injection Ht as <-|].
    + destruct Hin as [[= <- <-]|[[= <- <-]|[]]]; reflexivity.
    + destruct (String.eqb tag "v2"); [injection Ht as <-|discriminate Ht].
      destruct Hin as [[= <- <-]|[]]; reflexivity.
  - intros n cmd env. discriminate.
  - intros tag [<-|[]]. exists (1, 0, 0), (1, 1, 0). repeat split.
  - discriminate.
Defined.

(** The condition on the commands is needed: a descriptor with an empty
    [Exec] stops [main] at its test with the [IndexError] of [Popen], though
    the system would start every program. *)
Lemma main_with_empty_command :
  programs_start (Scenario.world Scenario.all_pass)
  /\ exists w',
       main Example.arguments Example.empty_command
            (Scenario.world Scenario.all_pass)
       = Raised (IndexError "list index out of range") w'.
Proof.
  split; [intros n cmd env; discriminate|].
  eexists. lazy. reflexivity.
Qed.

Lemma main_without_PATH_witness :
  main Example.arguments Scenario.fs Example.world_without_PATH
  = Raised (KeyError "PATH") Example.world_without_PATH.
Proof.
  exact (main_without_PATH Example.arguments Scenario.fs Example.tables
           Example.world_without_PATH example_pipeline eq_refl).
Defined.

Lemma automation_mode_needs_a_case_witness :
  exists t,
    pipeline (Scenario.args ["v2"] "v2" None None true) Scenario.fs = Ok t
    /\ exists e w',
         main (Scenario.args ["v2"] "v2" None None true) Scenario.fs
              (Scenario.world Scenario.all_pass)
         = Raised e w'.
Proof.
  destruct (pipeline (Scenario.args ["v2"] "v2" None None true) Scenario.fs)
    as [t|e] eqn:H.
  - exists t. split; [reflexivity|].
    apply (automation_mode_needs_a_case
             (Scenario.args ["v2"] "v2" None None true) Scenario.fs t
             (Scenario.world Scenario.all_pass) H eq_refl).
    lazy in H. injection H as <-. reflexivity.
  - lazy in H. discriminate H.
Defined.


Lemma automation_cases_are_quoted_names_witness :
  Forall case_name_ok ["foo_1"; "bar_2"].
Proof.
  assert (H : get_automation_cases Scenario.fs "w/v1" = Ok ["foo_1"; "bar_2"])
    by (lazy; reflexivity).
  pose proof (automation_cases_are_quoted_names
                Scenario.fs "w/v1" ["foo_1"; "bar_2"] H) as Hall.
  revert Hall. apply Forall_impl. intros name [Hok _]. exact Hok.
Defined.

Lemma version_constant_is_read_witness :
  parse_constant "SDL_MINOR_VERSION" (Scenario.version_h "3" "2" "10") = Ok 2.
Proof.
  apply (version_constant_is_read
           "SDL_MINOR_VERSION" (Scenario.version_h "3" "2" "10")
           (chars "#define SDL_MAJOR_VERSION 3" ++ chars nl)
           [" "%char] [" "%char] ["2"%char]
           (chars nl ++ chars "#define SDL_MICRO_VERSION 10" ++ chars nl)).
  - reflexivity.
  - reflexivity.
  - discriminate.
  - reflexivity.
  - repeat constructor; discriminate.
  - discriminate.
  - repeat constructor.
  - discriminate.
  - repeat constructor.
  - discriminate.
  - repeat constructor.
  - reflexivity.
Defined.

Lemma header_without_constants_stops_the_pipeline_witness :
  pipeline_step Example.arguments Example.no_version "v1" no_tables
  = Raise StopIteration.
Proof.
  apply (header_without_constants_stops_the_pipeline
           Example.arguments Example.no_version "v1" no_tables
           "/* no version here */").
  - reflexivity.
  - repeat constructor; discriminate.
Defined.

Lemma unit_tests_are_the_stems_of_the_entries_witness :
  exists entries,
    iterdir Scenario.fs ("w/v1/prefix" // "share/installed-tests/SDL3")
    = Some entries
    /\ NoDup ["alpha"; "testautomation"]
    /\ forall name, In name ["alpha"; "testautomation"]
                    <-> In name (map stem entries).
Proof.
  destruct (unit_tests_are_the_stems_of_the_entries
              Scenario.fs "w/v1/prefix"
              [("alpha", ["/p/alpha"; "--x"]);
               ("testautomation", ["/p/testautomation"])])
    as (entries & Hdir & Hnodup & Hkeys & _).
  - lazy. reflexivity.
  - exists entries. auto.
Defined.

Lemma report_table_is_aligned_witness :
  exists w' title1 title2 rows,
    print_table Example.arguments Example.tables "Test results:"
                ["alpha"; "beta"] [("v1", [("alpha", FAILED)])]
                (Scenario.world Scenario.all_pass)
    = Returned tt w'
    /\ stdout w'
       = ([EmptyString; "Test results:"; title1; title2;
           repeat_char "-" (String.length title1)] ++ rows)%list
    /\ Forall (fun row => String.length row = String.length title1) rows.
Proof.
  destruct (print_table Example.arguments Example.tables "Test results:"
                        ["alpha"; "beta"] [("v1", [("alpha", FAILED)])]
                        (Scenario.world Scenario.all_pass))
    as [[] w'|e w'|] eqn:H.
  - destruct (report_table_is_aligned
                Example.arguments Example.tables "Test results:"
                ["alpha"; "beta"] [("v1", [("alpha", FAILED)])]
                (Scenario.world Scenario.all_pass) w')
      as (title1 & title2 & rows & Hout & _ & Hrows).
    + repeat constructor. cbn. lia.
    + exact H.
    + exists w', title1, title2, rows. split; [reflexivity|].
      split; [exact Hout | exact Hrows].
  - lazy in H. discriminate H.
  - lazy in H. discriminate H.
Defined.

Lemma groups_in_sequence_are_closed_witness :
  Sections.exec_all Sections.GitHubSectionPrinter
    [Sections.With "Run alpha" [Sections.Say "Test alpha : SUCCESS"];
     Sections.With "Run beta" [Sections.Say "Skipping"]]
    Sections.init
  = ({| Sections.in_group := false;
        Sections.lines :=
          ["::group::Run alpha"; "Test alpha : SUCCESS"; "::endgroup::";
           "::group::Run beta"; "Skipping"; "::endgroup::"] |},
     Sections.Done).
Proof.
  apply (groups_in_sequence_are_closed
           Sections.GitHubSectionPrinter
           [Sections.With "Run alpha" [Sections.Say "Test alpha : SUCCESS"];
            Sections.With "Run beta" [Sections.Say "Skipping"]]
           Sections.init).
  - constructor; [|constructor; [|constructor]];
      right; do 2 eexists; (split; [reflexivity|]);
      (constructor; [eexists; reflexivity | constructor]).
  - reflexivity.
Defined.

Lemma github_group_left_open_witness :
  exists p',
    Sections.exec Sections.GitHubSectionPrinter
      (Sections.With "Run alpha"
         [Sections.Say "Running"; Sections.Raises (OSError "Popen");
          Sections.Say "Test alpha : SUCCESS"])
      Sections.init
    = (p', Sections.Escaped (OSError "Popen"))
    /\ Sections.in_group p' = true
    /\ Sections.lines p' = ["::group::Run alpha"; "Running"].
Proof.
  destruct (github_group_left_open
              "Run alpha" [Sections.Say "Running"]
              (Sections.Raises (OSError "Popen"))
              [Sections.Say "Test alpha : SUCCESS"] Sections.init)
    as (p' & stop & Hexec & Hin & [-> Hlines] & _).
  - reflexivity.
  - repeat constructor. eexists; reflexivity.
  - left. eexists; reflexivity.
  - exists p'. split; [exact Hexec|]. split; [exact Hin | exact Hlines].
Defined.

(** With [--filter-testautomation foo]: of the cases [foo_1] and [bar_2]
    found for [v1], [foo_1] is kept; it is the only automation case of the
    run. *)
Lemma automation_filter_applies_at_discovery_witness :
  exists t,
    pipeline (Scenario.args ["v1"] "v2" None (Some "foo") false) Scenario.fs
    = Ok t
    /\ get_automation_cases Scenario.fs "w/v1" = Ok ["foo_1"; "bar_2"]
    /\ Dict.get "v1" (TAG_AUTOMATION_CASES t) = Some ["foo_1"]
    /\ (forall name, In name (all_automation_cases t) <-> name = "foo_1").
Proof.
  destruct (pipeline (Scenario.args ["v1"] "v2" None (Some "foo") false)
                     Scenario.fs) as [t|e] eqn:H;
    [|lazy in H; discriminate H].
  exists t. split; [reflexivity|].
  destruct (automation_filter_applies_at_discovery
              (Scenario.args ["v1"] "v2" None (Some "foo") false)
              Scenario.fs "foo" t eq_refl ltac:(discriminate) H)
    as (Htags & _ & Hall & _).
  destruct (Htags "v1") as (found & Hfound & Hget); [now left|].
  assert (Hv1 : get_automation_cases Scenario.fs "w/v1" = Ok ["foo_1"; "bar_2"])
    by (lazy; reflexivity).
  change (cwd (Scenario.args ["v1"] "v2" None (Some "foo") false) // "v1")
    with "w/v1" in Hfound.
  rewrite Hv1 in Hfound. injection Hfound as <-.
  split; [reflexivity|]. split; [exact Hget|].
  intros name. rewrite Hall. split.
  - intros (Hc & tag & found & [<-|[<-|[]]] & Hfound & Hin).
    + change (cwd (Scenario.args ["v1"] "v2" None (Some "foo") false) // "v1")
        with "w/v1" in Hfound.
      rewrite Hv1 in Hfound. injection Hfound as <-.
      destruct Hin as [<-|[<-|[]]]; [reflexivity | discriminate Hc].
    + lazy in Hfound. injection Hfound as <-. destruct Hin.
  - intros ->. split; [reflexivity|].
    exists "v1", ["foo_1"; "bar_2"]. split; [now left|].
    split; [exact Hv1 | now left].
Defined.

(** The example of the specification, behind the declaration of a
    function and in front of an array of pointers to test cases: the case
    [foo.bar-1] is extracted, once. *)
Lemma automation_case_extracted_once_witness :
  get_automation_cases
    {| read_text := fun _ =>
         Some ("static int foo(void *arg);" ++ nl
               ++ "static const SDLTest_TestCaseReference fooRef = {foo, "
               ++ dq ++ "foo.bar-1" ++ dq ++ ", ...};" ++ nl
               ++ "static const SDLTest_TestCaseReference *fooTests[] = {"
               ++ nl ++ "    &fooRef, NULL" ++ nl ++ "};" ++ nl);
       iterdir := fun _ => None;
       glob := fun _ => ["SDL/test/testautomation_main.c"] |}
    "SDL"
  = Ok ["foo.bar-1"].
Proof.
  apply (automation_case_extracted_once
           _ "SDL"
           [{| source_path_of := "SDL/test/testautomation_main.c";
               declarations :=
                 [(chars ("static int foo(void *arg);" ++ nl),
                   {| with_const := true;
                      sp_static := [" "%char]; sp_const := [" "%char];
                      sp_type := [" "%char];
                      reference_ident := chars "fooRef";
                      sp_ident := [" "%char]; sp_equals := [" "%char];
                      sp_brace := [];
                      function_ident := chars "foo";
                      sp_function := []; sp_comma := [" "%char];
                      case_name := "foo.bar-1"; sp_name := [] |})];
               remainder :=
                 chars (" ...};" ++ nl
                        ++ "static const SDLTest_TestCaseReference *fooTests[] = {"
                        ++ nl ++ "    &fooRef, NULL" ++ nl ++ "};" ++ nl) |}]).
  - reflexivity.
  - intros f [<-|[]]. split.
    + split; [|reflexivity].
      constructor; [|constructor]. split; [reflexivity|].
      unfold declaration_ok, blank, identifier, case_name_ok. cbn.
      repeat split; try discriminate; repeat constructor.
    + eexists. split; reflexivity.
Defined.

(** Conditions on concrete characters and lists of them, by evaluation. *)
Ltac all_ok :=
  repeat first [ apply Forall_nil | apply Forall_cons | split | reflexivity
               | discriminate | (left; reflexivity)
               | (right; left; reflexivity) ].

(** The example of the specification, [testver.test], and a descriptor
    [other.test] with a comment, the key [Type], a blank behind a
    backslash and a text between single quotes. *)
Lemma descriptor_gives_invocation_witness :
  get_unit_tests
    {| read_text := fun path =>
         if String.eqb path
              "w/v1/prefix/share/installed-tests/SDL3/testver.test"
         then Some ("[Test]" ++ nl ++ "Exec=/bin/true --flag "
                    ++ dq ++ "a b" ++ dq)
         else Some ("[Test]" ++ nl ++ "# installed test" ++ nl
                    ++ "Type=session" ++ nl
                    ++ "Exec=/opt/my\ tests/run  --name='x y'" ++ nl);
       iterdir := fun _ => Some ["testver.test"; "other.test"];
       glob := fun _ => [] |}
    "w/v1/prefix"
  = Ok [("testver", ["/bin/true"; "--flag"; "a b"]);
        ("other", ["/opt/my tests/run"; "--name=x y"])].
Proof.
  apply (descriptor_gives_invocation
           _ "w/v1/prefix"
           [("testver",
             {| lines_before := [];
                exec_command :=
                  {| first_word := map PlainChar (chars "/bin/true");
                     more_words :=
                       [([" "%char], map PlainChar (chars "--flag"));
                        ([" "%char], [DoubleQuoted (chars "a b")])] |};
                lines_after := [];
                final_newline := false |});
            ("other",
             {| lines_before :=
                  [CommentLine "# installed test"; OptionLine "Type" "session"];
                exec_command :=
                  {| first_word :=
                       (map PlainChar (chars "/opt/my")
                        ++ EscapedChar " " :: map PlainChar (chars "tests/run"))%list;
                     more_words :=
                       [([" "%char; " "%char],
                         (map PlainChar (chars "--name=")
                          ++ [SingleQuoted (chars "x y")])%list)] |};
                lines_after := [];
                final_newline := true |})]).
  - reflexivity.
  - repeat constructor; cbn; intuition discriminate.
  - intros name d [[= <- <-]|[[= <- <-]|[]]];
      (split; [discriminate|]); (split; [|reflexivity]);
      unfold descriptor_ok, command_ok, word_ok;
      cbn [lines_before exec_command lines_after final_newline first_word
           more_words app flat_map line_keys];
      (split; [all_ok|]); (split; [|split; [all_ok|split]]).
    + split; [split; [discriminate | cbn; all_ok]|].
      split; [|reflexivity].
      unfold gap_ok, word_ok; cbn; all_ok.
    + repeat constructor. intros [].
    + intros _. vm_compute. discriminate.
    + split; [split; [discriminate | cbn; all_ok]|].
      split; [|reflexivity].
      unfold gap_ok, word_ok; cbn; all_ok.
    + change (lower "Type") with "type".
      repeat constructor; cbn; intuition discriminate.
    + discriminate.
Defined.
